(* ===== verification/_CoqProject ===== *)
-Q . S2P
Prelude.v
Num.v
Diode.v
Newton.v
Machine.v
RealNum.v
ConvexNewton.v
DiodeReal.v
DiodeRate.v
Enclosure.v
Residual.v
RefModel.v
CapReal.v
FloatNum.v
Sweep.v
SweepReal.v
Format.v
Report.v
World.v
Figure.v
Script.v
IntNum.v
FloatRun.v
Merit.v
FloatReal.v
