(* ===== verification/Prelude.v ===== *)
(** * Verification of the GaAs solar-cell J-V script ([src/solarcell.py])

    ** The program

    The repository is one Python script.  It has no input.  It defines the
    measured figures of a GaAs cell and the parameters of a single-diode
    model as module constants (lines 5-17), defines one function,
    [solar_cell_current] (lines 20-40), which solves the implicit diode
    equation

      [J - Jsc + J0*(exp((V + J*Rs)/(n*Vt)) - 1) + (V + J*Rs)/Rsh = 0]

    for the current density [J] by Newton's iteration from the guess [Jsc],
    calls it on a grid of 500 voltages (lines 43-45), hands the two curves
    and some formatted strings to matplotlib (lines 47-110) and prints a
    report of sixteen lines (lines 113-128).

    ** The development, file by file

    - [Prelude.v] (this file): Python exceptions as values ([exn],
      [result], the notation [x <- c ;; k]), the list functions the driver
      uses ([map_result] for a list comprehension that may raise,
      [zip_with] for the element-wise product), checks of tables in two
      parts, counted runs of a transition relation ([steps]) with their
      general lemmas, and the model of [print] and of [str.join].
    - [Num.v]: the class [Num], the arithmetic the script is written
      against.  Every definition that models code is generic in it.  [dec]
      is a decimal literal, [pydiv] the division of Python scalars, which
      raises [ZeroDivisionError].
    - [Diode.v], [Module Cell]: the constants, the residual [f] of line 30
      and the derivative [df] of line 32.
    - [Newton.v], [Module Solver]: the function [solar_cell_current],
      statement by statement.  The loop is [for_range], a fixpoint on the
      number of iterations left whose arguments are the two locals
      [J_guess] and [J_new]; [J_new] is an [option], unbound before the
      first iteration, so that [return J_new] is modelled as Python
      executes it.
    - [Machine.v], [Module Machine]: the same call as a transition relation
      [step] on the state (loop counter, [J_guess], [J_new]), with the
      executable [next] and [run].
    - [RealNum.v]: the instance of [Num] on the real numbers.
    - [ConvexNewton.v]: Newton's iteration on a function that satisfies the
      contract [ConvexIncreasing] (positive slope, tangent below the
      graph).
    - [DiodeReal.v], [Module DiodeR]: the residual satisfies the contract;
      what the function returns over the reals.
    - [DiodeRate.v], [Module DiodeRate] and [Module RefRate]: the rate of
      convergence over the reals, for all admissible parameters and, with
      numbers, for the reference parameters on the range of the sweep.
    - [Enclosure.v]: the exponential of a fraction between two computed
      integers, from the alternating series of [exp (- y)] evaluated in
      fixed point with directed rounding.
    - [Residual.v], [Module Residual]: the residual of the reference cell
      at a fraction between two computed integers; its sign and its size.
    - [RefModel.v], [Module RefModel]: the hard-coded figures against the
      model in exact arithmetic, the returned current at short circuit and
      its monotonicity in the voltage.
    - [CapReal.v], [Module CapReal]: the call over the reals at voltages
      from 5 to 10 volt, where the cap of 100 iterations is reached.
    - [SweepReal.v], [Module SweepR]: the grid and the sweep over the
      reals.
    - [FloatNum.v]: the instance of [Num] on binary64 (primitive floats),
      with [FloatExp.exp] standing for [numpy.exp].
    - [Sweep.v], [Module Sweep]: [linspace], [V_range], [J_range],
      [P_range] and the axis limits of lines 78, 86 and 87.
    - [Format.v], [Module Fmt]: the presentation type [.Nf] of Python's
      float formatting, and a reader of what it prints.
    - [Report.v], [Module Report]: the legend labels, the title, the
      parameter box and the lines of the printed report.
    - [World.v]: the effects of the script as data.  A [call] is one method
      call on a library object with its arguments as Python values; the
      [world] is the sequence of calls made and lines printed; [io] is the
      monad of statements, in which an exception ends a sequence and keeps
      the effects before it.
    - [Figure.v], [Module Figure]: the matplotlib calls of lines 47-110,
      block by block, and the legend query.
    - [Script.v], [Module Script]: [main], the module body from line 43 to
      line 128, and [run], the program started in the empty world.
    - [IntNum.v]: an instance of [Num] on the integers, in which the
      divisor [n*Vt] is zero; it carries the witnesses of the error path.
    - [FloatRun.v], [Module RefRun]: the run of the script on binary64,
      evaluated by the kernel.
    - [Merit.v], [Module Merit]: the open-circuit voltage and the maximum
      power of the model, derived over the reals.
    - [FloatReal.v], [Module FloatReal]: the number a double denotes, the
      size of the residual of the reference cell at a computed point, and
      the run on binary64 compared with the semantics over the reals.

    ** What the theorems show

    - Control flow, for every arithmetic ([Newton.v]): the call raises
      exactly when a divisor of line 32 is zero, and only
      [ZeroDivisionError]; otherwise it returns the Newton iterate after
      the first iteration whose step is below [1e-10], or the hundredth
      iterate when there is none.
    - The call as a machine ([Machine.v]): an invariant of the reachable
      states, at most 101 transitions in any run, one complete run, whose
      outcome is the value of the function.
    - Analysis over the reals ([ConvexNewton.v], [DiodeReal.v]): for
      [J0 >= 0], [Rs >= 0], [n > 0], [Rsh > 0] the residual has exactly one
      root at every voltage, the root does not increase with the voltage,
      every iterate after the first is at or above the root, the returned
      value is at or above the root, at most [Jsc] in forward bias and
      above it in reverse bias, and on [break] within [1e-10 * df] of the
      root.  Without series resistance the call returns the root, which is
      then explicit, in at most two iterations.
    - Rate of convergence over the reals ([DiodeRate.v]): the scaled error
      [d = Rs/(n*Vt) * (J - root)] of an iterate above the root becomes at
      most [d*d/(1+d)] in one update; hence some iteration always meets the
      step test.  The update that follows a step below the tolerance is
      within [2 * Rs/(n*Vt) * (tol * df)^2] of the root: the accuracy of the
      result is of the order of the square of the tolerance.  For the
      reference parameters and every voltage of [[-0.1, Voc + 0.05]] one of
      the first 13 iterations meets the test, the returned value is within
      [2e-20] of the root and its residual is below [1e-18], so that the
      output contract of the specification (a residual below the
      tolerance) holds there.
    - Outside the sweep, over the reals ([CapReal.v]): far above the root
      an update lowers the scaled error by at most [1.01]; for every
      voltage from 5 to 10 volt the first guess is more than 120 such
      steps from the root, so no iteration of the 100 meets the step test
      and the call returns a value more than 500 mA/cm2 above the
      operating point, as it does on binary64 at 5 volt.
    - The reference model in exact arithmetic ([RefModel.v],
      [SweepReal.v], [Merit.v]): the current returned at the hard-coded
      [Voc] is about [-26.03] and the one returned at the hard-coded
      [V_MPP] about [18.51]; at [V = 0] it is within [3.1e-6] of [Jsc]; on
      the range of the sweep it does not increase with the voltage by more
      than [2e-20], and the sweep returns 500 currents, each within [2e-20]
      of the operating point at its grid voltage.  The open circuit of the
      model is between [0.9631] and [0.9632] volt, and the power the
      program computes on the interval of the sweep has its maximum
      between [24.443] and [24.444], reached between [0.825] and [0.838]
      volt: the hard-coded figures are those of another cell.
    - The program as a whole, for every arithmetic ([Script.v],
      [Figure.v], [Sweep.v]): it raises in the sweep before any effect, or
      makes the calls of [Figure.all_calls] in order and then prints; no
      exception other than [ZeroDivisionError] escapes; the legend lists
      the five labelled artists of the first axis and the power curve; the
      power array is the pointwise product.
    - The run on binary64 ([FloatRun.v]): the constants are the doubles
      Python parses; the three arrays have 500 finite entries on a strictly
      increasing grid; every call of the sweep leaves through [break]
      within 8 iterations; [J_range] is strictly decreasing; the computed
      curve crosses zero near 0.964 V and has its maximum power near
      0.831 V, so the hard-coded [Voc] and maximum power point are not on
      it; the marked points are inside the axis limits and the curve leaves
      them from sample 460 on; outside the sweep the call returns [nan]
      (V = 22) or an unconverged value (V = 5) without notice; the strings
      of the figure and the sixteen printed lines are the ones stated.
    - The two semantics together ([Enclosure.v], [FloatReal.v]): at each
      of the 500 voltages of the grid the current density computed on
      binary64 is within [1e-12] of the operating point of the model over
      the reals at that voltage, the residual of the exact equation at the
      computed value is at most [1e-12], and the value is within
      [1.0001e-12] of what the function returns over the reals; the power density of line 45 is within
      [1.1e-12] of the voltage times that operating point (the product is
      compared exactly, as fractions over powers of two, and differs from
      the rounded one by at most [2^-45]).  The comparison is made after
      the run, from bounds on the residual at the computed value, and does
      not rely on how the exponential is rounded on binary64.
    - Formatting ([Format.v]): the digits printed are those of the nearest
      integer to the scaled exact value, ties to even, and reading the text
      back returns that integer and the sign.

    ** Bounds and fuel

    The loop bound is the source's [range(100)]: [Solver.max_iter] is 100
    and [for_range] is structurally recursive on it, so the function is
    total and no fuel is chosen.  [Machine.run] takes a number of steps;
    101 is enough for every call (theorem [call_terminates]): 100 loop
    bodies and the exit.  The grid has the source's 500 points.
    [Fmt.ndigits] counts decimal digits with fuel [log2 n], enough because
    a number below [10 * 2^k] has at most [k + 1] digits
    ([ndigits_fuel_bound]).  The reference exponential [FloatExp.exp_ref]
    works in fixed point with 128 fractional bits, more than twice the 53
    bits of a double, so that one final rounding decides the result on the
    sampled arguments.  In [DiodeRate.v] the exponential is bounded above
    by [(16/15)^498], compared with [91 * 10^12] on integers, and the chain
    [ref_chain] has eleven bounds because eleven contractions bring a
    scaled error of [4.01] below [Rs/(n*Vt) * 1e-10].  The enclosure of
    [Residual.v] halves the argument 8 times, sums 11 terms of the series
    and works with 60 fractional bits: the argument is below 36 on the
    grid, so the reduced argument is below [0.15] and the first term left
    out below [0.15^11 / 11!], about [2e-17]; the roundings and the 8
    squarings keep the relative width of the enclosure below [1e-14]; the
    diode current is below 100 on the grid, so the residual is known to
    about [1e-12].  The lemmas over the reals that the comparison uses are
    proved on the interval of the sweep widened by [1e-4], which holds the
    doubles nearest to [-0.1] and to [Voc + 0.05].  The staircase of
    [Merit.v] counts voltages and currents in millionths and takes fuel
    200: the bound [24.444] on the whole interval needs 164 steps, the
    bounds on the two sides of the maximum fewer than 20.

    ** What is not modelled, and what is assumed

    - What matplotlib does with the calls it receives (layout, drawing,
      the window of [plt.show]): output of a library.  The calls and their
      arguments are modelled.
    - [numpy.exp] is library code.  On the reals it is the exponential.
      On binary64 [FloatExp.exp] is a faithful double-precision algorithm;
      the theorems of [FloatRun.v] that depend on the solver's digits are
      about the run with this exponential.  The statements are chosen with
      margins far larger than one unit in the last place.
    - [numpy.linspace], the built-in [max], [print], [str.join], float
      literals, float formatting and the answer of
      [get_legend_handles_labels] are modelled from the documentation of
      Python, numpy and matplotlib, not from code of the repository.
    - The specification's result type, parameter validation and explicit
      non-convergence and overflow outcomes do not exist in the source;
      the theorems state what the source does instead. *)

From Stdlib Require Import ZArith List Lia Bool.
From Stdlib Require String Ascii.
Import ListNotations.

(** ** Hint databases of the development *)

(** [solar]: resolution hints closing the routine side conditions;
    [solar_reflect]: rewriting of boolean tests into propositions. *)
Create HintDb solar.
Create Rewrite HintDb solar_reflect.

(** ** Python exceptions as values *)

Inductive exn : Type :=
| ZeroDivisionError
| UnboundLocalError
| ValueError.

Inductive result (A : Type) : Type :=
| Ok (a : A)
| Raise (e : exn).

Arguments Ok {A} a.
Arguments Raise {A} e.

Definition bind {A B : Type} (c : result A) (k : A -> result B) : result B :=
  match c with
  | Ok a => k a
  | Raise e => Raise e
  end.

Declare Scope py_scope.
Delimit Scope py_scope with py.

Notation "x <- c ;; k" := (bind c (fun x => k))
  (at level 61, c at next level, right associativity) : py_scope.

Lemma bind_Ok_iff {A B : Type} (c : result A) (k : A -> result B) (b : B) :
  bind c k = Ok b <-> exists a, c = Ok a /\ k a = Ok b.
Proof.
  destruct c as [a|e]; simpl; split.
  - intros H; exists a; auto.
  - intros (a' & Ha & Hk); congruence.
  - discriminate.
  - intros (a' & Ha & _); discriminate.
Qed.

Lemma bind_Raise_iff {A B : Type} (c : result A) (k : A -> result B) (e : exn) :
  bind c k = Raise e <->
  c = Raise e \/ exists a, c = Ok a /\ k a = Raise e.
Proof.
  destruct c as [a|e']; simpl; split.
  - intros H; right; exists a; auto.
  - intros [H|(a' & Ha & Hk)]; congruence.
  - intros [= ->]; left; reflexivity.
  - intros [[= ->]|(a' & Ha & _)]; [reflexivity|discriminate].
Qed.

(** ** Lists of results *)

(** A list comprehension whose element expression may raise: the first
    exception, in list order, is the outcome. *)
Fixpoint map_result {A B : Type} (g : A -> result B) (l : list A)
  : result (list B) :=
  match l with
  | [] => Ok []
  | a :: l' =>
      (b <- g a ;; bs <- map_result g l' ;; Ok (b :: bs))%py
  end.

(** Element-wise combination of two sequences of the same shape. *)
Fixpoint zip_with {A B C : Type} (g : A -> B -> C) (l : list A) (l' : list B)
  : list C :=
  match l, l' with
  | a :: l, b :: l' => g a b :: zip_with g l l'
  | _, _ => []
  end.

Lemma map_result_Ok_map {A B : Type} (g : A -> result B) (h : A -> B)
  (l : list A) :
  (forall a, In a l -> g a = Ok (h a)) -> map_result g l = Ok (map h l).
Proof.
  induction l as [|a l IH]; intros Hg; [reflexivity|]; cbn.
  rewrite (Hg a (or_introl eq_refl)); cbn.
  rewrite IH by (intros a' Ha'; apply Hg; right; exact Ha'); reflexivity.
Qed.

Lemma map_result_length {A B : Type} (g : A -> result B) (l : list A)
  (bs : list B) :
  map_result g l = Ok bs -> length bs = length l.
Proof.
  revert bs; induction l as [|a l IH]; intros bs; cbn.
  - intros [= <-]; reflexivity.
  - destruct (g a) as [b|e]; cbn; [|discriminate].
    destruct (map_result g l) as [bs'|e]; cbn; [|discriminate].
    intros [= <-]; cbn; f_equal; apply IH; reflexivity.
Qed.

Lemma map_result_Forall2 {A B : Type} (g : A -> result B) (l : list A)
  (bs : list B) :
  map_result g l = Ok bs <-> Forall2 (fun a b => g a = Ok b) l bs.
Proof.
  revert bs; induction l as [|a l IH]; intros bs; cbn; split.
  - intros [= <-]; constructor.
  - intros Hf; inversion Hf; reflexivity.
  - destruct (g a) as [b|e] eqn:Hg; cbn; [|discriminate].
    destruct (map_result g l) as [bs'|e]; cbn; [|discriminate].
    intros [= <-]; constructor; [exact Hg|apply IH; reflexivity].
  - intros Hf; inversion Hf as [|a' b l' bs' Hg Hrest]; subst.
    rewrite Hg; cbn; rewrite (proj2 (IH bs') Hrest); reflexivity.
Qed.

(** Strengthening a pointwise relation with membership on the left. *)
Lemma Forall2_impl_In {A B : Type} (P Q : A -> B -> Prop) (l : list A)
  (l' : list B) :
  (forall a b, In a l -> P a b -> Q a b) -> Forall2 P l l' -> Forall2 Q l l'.
Proof.
  intros HPQ HP; induction HP as [|a b l l' Hab _ IH]; constructor.
  - apply HPQ; [left; reflexivity|exact Hab].
  - apply IH; intros a' b' Ha'; apply HPQ; right; exact Ha'.
Qed.

Lemma in_removelast {A : Type} (a : A) (l : list A) :
  In a (removelast l) -> In a l.
Proof.
  induction l as [|x [|y l] IH]; cbn; [tauto|tauto|].
  intros [->|Ha]; [left; reflexivity|right; apply IH, Ha].
Qed.

(** A comprehension over calls that all return, returns. *)
Lemma map_result_total {A B : Type} (g : A -> result B) (l : list A) :
  (forall a, In a l -> exists b, g a = Ok b) ->
  exists bs, map_result g l = Ok bs.
Proof.
  induction l as [|a l IH]; intros Hg; [exists []; reflexivity|].
  destruct (Hg a (or_introl eq_refl)) as [b Hb].
  destruct IH as [bs Hbs]; [intros a' Ha'; apply Hg; right; exact Ha'|].
  exists (b :: bs); cbn; rewrite Hb; cbn; rewrite Hbs; reflexivity.
Qed.

(** The exception of the first element is the exception of the whole. *)
Lemma map_result_Raise_head {A B : Type} (g : A -> result B) (a : A)
  (l : list A) (e : exn) :
  g a = Raise e -> map_result g (a :: l) = Raise e.
Proof. intros Hg; cbn; rewrite Hg; reflexivity. Qed.

(** A comprehension that combines each element with the result of its call
    is the element-wise combination with the list of results. *)
Lemma map_result_zip_with {A B C : Type} (g : A -> result B)
  (h : A -> B -> C) (l : list A) :
  map_result (fun a => b <- g a ;; Ok (h a b))%py l
  = (bs <- map_result g l ;; Ok (zip_with h l bs))%py.
Proof.
  induction l as [|a l IH]; [reflexivity|]; cbn.
  destruct (g a) as [b|e]; cbn; [|reflexivity].
  rewrite IH; destruct (map_result g l); reflexivity.
Qed.

Lemma zip_with_length {A B C : Type} (g : A -> B -> C) (l : list A)
  (l' : list B) :
  length l = length l' -> length (zip_with g l l') = length l.
Proof.
  revert l'; induction l as [|a l IH]; intros [|b l'] Hl; cbn in *;
    try reflexivity; try discriminate.
  f_equal; apply IH; lia.
Qed.

Lemma zip_with_nth {A B C : Type} (g : A -> B -> C) (l : list A)
  (l' : list B) (i : nat) (a : A) (b : B) :
  nth_error l i = Some a -> nth_error l' i = Some b ->
  nth_error (zip_with g l l') i = Some (g a b).
Proof.
  revert l l'; induction i as [|i IH]; intros [|x l] [|y l'] Ha Hb;
    cbn in *; try discriminate.
  - injection Ha as ->; injection Hb as ->; reflexivity.
  - apply IH; assumption.
Qed.

(** ** Boolean checks over lists, and what they establish *)

(** [pairwise R l]: [R a b] holds for every [a] that stands before [b]. *)
Fixpoint pairwise {A : Type} (R : A -> A -> bool) (l : list A) : bool :=
  match l with
  | [] => true
  | a :: l' => forallb (R a) l' && pairwise R l'
  end.

Lemma pairwise_spec {A : Type} (R : A -> A -> bool) (l : list A) :
  pairwise R l = true ->
  forall i j a b, i < j ->
    nth_error l i = Some a -> nth_error l j = Some b -> R a b = true.
Proof.
  induction l as [|x l IH]; intros Hp i j a b Hij Ha Hb.
  - destruct i; discriminate.
  - cbn in Hp; apply andb_true_iff in Hp as [Hx Hl].
    destruct j as [|j]; [lia|]; destruct i as [|i]; cbn in Ha, Hb.
    + injection Ha as <-.
      exact (proj1 (forallb_forall _ _) Hx b (nth_error_In _ _ Hb)).
    + apply (IH Hl i j); [lia|assumption|assumption].
Qed.

(** A test of two lists, element by element. *)
Fixpoint forall2b {A B : Type} (p : A -> B -> bool) (l : list A) (l' : list B)
  : bool :=
  match l, l' with
  | [], [] => true
  | a :: l, b :: l' => p a b && forall2b p l l'
  | _, _ => false
  end.

Lemma forall2b_Forall2 {A B : Type} (p : A -> B -> bool) (Q : A -> B -> Prop)
  (l : list A) (l' : list B) :
  (forall a b, p a b = true -> Q a b) ->
  forall2b p l l' = true -> Forall2 Q l l'.
Proof.
  intros HpQ; revert l'; induction l as [|a l IH]; intros [|b l'] H;
    try discriminate; [constructor|].
  apply andb_true_iff in H as [Hab Hl]; constructor; auto.
Qed.

Lemma Forall2_and {A B : Type} (Q Q' : A -> B -> Prop) (l : list A)
  (l' : list B) :
  Forall2 Q l l' -> Forall2 Q' l l' -> Forall2 (fun a b => Q a b /\ Q' a b) l l'.
Proof.
  induction 1 as [|a b l l' Hab _ IH]; intros H'; inversion H'; subst;
    constructor; auto.
Qed.

Lemma Forall2_zip_with {A B C : Type} (g : A -> B -> C) (Q : A -> B -> Prop)
  (T : A -> C -> Prop) (l : list A) (l' : list B) :
  (forall a b, Q a b -> T a (g a b)) ->
  Forall2 Q l l' -> Forall2 T l (zip_with g l l').
Proof. intros HQT; induction 1; cbn [zip_with]; constructor; auto. Qed.

(** A table checked in two parts: one test on the first [k] entries,
    another on the rest. *)
Lemma forallb_split_at {A : Type} (P Q : A -> bool) (k : nat) (l : list A) :
  forallb P (firstn k l) = true -> forallb Q (skipn k l) = true ->
  forall i x, nth_error l i = Some x ->
    (i < k -> P x = true) /\ (k <= i -> Q x = true).
Proof.
  intros HP HQ i x Hi; split; intros Hik.
  - apply (proj1 (forallb_forall _ _) HP), (nth_error_In _ i).
    rewrite nth_error_firstn; destruct (Nat.ltb_spec i k); [exact Hi|lia].
  - apply (proj1 (forallb_forall _ _) HQ), (nth_error_In _ (i - k)).
    rewrite nth_error_skipn; replace (k + (i - k)) with i by lia; exact Hi.
Qed.

(** ** Counted runs of a transition relation *)

Section Runs.
Context {A : Type} (R : A -> A -> Prop).

(** [steps n a b]: [b] is reached from [a] in exactly [n] transitions. *)
Inductive steps : nat -> A -> A -> Prop :=
| steps_O (a : A) : steps 0 a a
| steps_S (n : nat) (a b c : A) : R a b -> steps n b c -> steps (S n) a c.

(** A state with no successor. *)
Definition stuck (a : A) : Prop := forall b, ~ R a b.

Definition functional : Prop := forall a b c, R a b -> R a c -> b = c.

Lemma steps_1 (a b : A) : R a b -> steps 1 a b.
Proof. intros Hab; exact (steps_S 0 a b b Hab (steps_O b)). Qed.

Lemma steps_app (n m : nat) (a b c : A) :
  steps n a b -> steps m b c -> steps (n + m) a c.
Proof.
  induction 1 as [a|n a a' b Haa' _ IH]; intros Hbc; cbn; [exact Hbc|].
  exact (steps_S _ _ _ _ Haa' (IH Hbc)).
Qed.

(** Under a functional relation two runs from the same state agree as long
    as both go on, so a run that ends in a stuck state is the longest. *)
Lemma steps_stuck_longest (n m : nat) (a b c : A) :
  functional -> steps n a b -> stuck b -> steps m a c -> m <= n.
Proof.
  intros Hf Hn; revert m c.
  induction Hn as [a|n a a' b Haa' _ IH]; intros m c Hb Hm.
  - destruct Hm as [|m a a' c Haa' _]; [lia|elim (Hb _ Haa')].
  - destruct Hm as [|m a a'' c Haa'' Hm]; [lia|].
    rewrite <- (Hf _ _ _ Haa' Haa'') in Hm.
    specialize (IH m c Hb Hm); lia.
Qed.

Lemma steps_functional (n : nat) (a b c : A) :
  functional -> steps n a b -> steps n a c -> b = c.
Proof.
  intros Hf Hb; revert c.
  induction Hb as [a|n a a' b Haa' _ IH]; intros c Hc.
  - inversion Hc; reflexivity.
  - inversion Hc as [|n' x a'' y Haa'' Hc']; subst.
    rewrite <- (Hf _ _ _ Haa' Haa'') in Hc'; exact (IH _ Hc').
Qed.

(** Two complete runs have the same length and the same final state. *)
Lemma steps_stuck_unique (n m : nat) (a b c : A) :
  functional -> steps n a b -> stuck b -> steps m a c -> stuck c ->
  n = m /\ b = c.
Proof.
  intros Hf Hn Hb Hm Hc.
  pose proof (steps_stuck_longest n m a b c Hf Hn Hb Hm).
  pose proof (steps_stuck_longest m n a c b Hf Hm Hc Hn).
  assert (n = m) as -> by lia; split; [reflexivity|].
  exact (steps_functional m a b c Hf Hn Hm).
Qed.

End Runs.

(** ** Console output *)

(** A sequence of [print] calls whose arguments may raise: the lines
    written before the first exception, and how the sequence ended. *)
Fixpoint print_all (ls : list (result String.string))
  : list String.string * result unit :=
  match ls with
  | [] => ([], Ok tt)
  | Ok s :: ls' => let (out, r) := print_all ls' in (s :: out, r)
  | Raise e :: _ => ([], Raise e)
  end.

Lemma print_all_Ok (ss : list String.string) :
  print_all (map Ok ss) = (ss, Ok tt).
Proof.
  induction ss as [|s ss IH]; [reflexivity|cbn; rewrite IH; reflexivity].
Qed.

(** The line feed, ["\n"] in the Python source. *)
Definition newline : String.string :=
  String.String (Ascii.ascii_of_nat 10) String.EmptyString.

(** [sep.join(items)]. *)
Fixpoint join (sep : String.string) (items : list String.string)
  : String.string :=
  match items with
  | [] => String.EmptyString
  | [s] => s
  | s :: items' => String.append s (String.append sep (join sep items'))
  end.
