(* ===== verification/Num.v ===== *)
(** * Num: the arithmetic the script is written against

    [src/solarcell.py] computes with Python floats and numpy [float64]
    values.  Every definition that models the script is written once, over
    the interface [Num] below, and is then read at two instances:

    - the real numbers ([RealNum.v]), where the analysis of the Newton
      iteration is carried out;
    - IEEE binary64 ([FloatNum.v]), which evaluates inside the kernel and
      reproduces the run of the script.

    Nothing else is assumed of [F]: the theorems of [Newton.v] hold for any
    instance, whatever its rounding.

    The interface lists exactly the operations that occur in the source:
    [+ - * /], unary minus, [abs], [np.exp], the comparisons [<] and [==],
    and the conversion of a Python [int] to a float. *)

From Stdlib Require Import ZArith.
From S2P Require Import Prelude.

Class Num (F : Type) : Type := {
  num_of_Z : Z -> F;       (* int -> float conversion *)
  nadd : F -> F -> F;
  nsub : F -> F -> F;
  nmul : F -> F -> F;
  ndiv : F -> F -> F;      (* numpy division: total, IEEE on floats *)
  nopp : F -> F;
  nabs : F -> F;
  nexp : F -> F;           (* np.exp *)
  nltb : F -> F -> bool;
  neqb : F -> F -> bool
}.

Declare Scope num_scope.
Delimit Scope num_scope with num.

Notation "x + y" := (nadd x y) : num_scope.
Notation "x - y" := (nsub x y) : num_scope.
Notation "x * y" := (nmul x y) : num_scope.
Notation "x / y" := (ndiv x y) : num_scope.
Notation "- x" := (nopp x) : num_scope.
Notation "x <? y" := (nltb x y) : num_scope.
Notation "x =? y" := (neqb x y) : num_scope.

Section Literals.
  Context {F : Type} `{Num F}.
  Local Open Scope num_scope.

  (** The Python literal [m]e[-k] with an integer mantissa: a float literal
      such as [30.52638788] is [dec 3052638788 8].  On binary64 the quotient
      of two exactly representable integers is correctly rounded, which is
      what the Python parser produces for these literals ([FloatNum.v]
      checks each of them against the parsed constant). *)
Definition dec (m : Z) (k : nat) : F :=
  num_of_Z m / num_of_Z (10 ^ Z.of_nat k).

  (** Division of two Python scalars: [a / b] raises [ZeroDivisionError]
      when [b == 0], where numpy's division returns inf or nan. *)
Definition pydiv (a b : F) : result F :=
  if b =? num_of_Z 0 then Raise ZeroDivisionError else Ok (a / b).

Lemma pydiv_Ok (a b : F) :
  (b =? num_of_Z 0) = false -> pydiv a b = Ok (a / b).
Proof. unfold pydiv; intros ->; reflexivity. Qed.

Lemma pydiv_Raise (a b : F) :
  (b =? num_of_Z 0) = true -> pydiv a b = Raise ZeroDivisionError.
Proof. unfold pydiv; intros ->; reflexivity. Qed.

Lemma pydiv_cases (a b : F) :
  (pydiv a b = Ok (a / b) /\ (b =? num_of_Z 0) = false) \/
  (pydiv a b = Raise ZeroDivisionError /\ (b =? num_of_Z 0) = true).
Proof. unfold pydiv; destruct (b =? num_of_Z 0); auto. Qed.

End Literals.
