(* ===== verification/Diode.v ===== *)
(** * Diode: the module constants and the single-diode equation

    Models lines 5-17 of [src/solarcell.py] (the module-level constants) and
    the two expressions the body of [solar_cell_current] evaluates at every
    iteration: the residual [f] (line 30) and its derivative [df] (line 32).

    Everything is generic over the arithmetic [Num F].  The expressions keep
    the source's parenthesisation and its left-to-right association, which is
    what decides the rounding on binary64. *)

From Stdlib Require Import ZArith.
From S2P Require Import Prelude Num.

Module Cell.

Section WithNum.
Context {F : Type} `{Num F}.
Local Open Scope num_scope.

(** ** Module constants (lines 5-17) *)

(** Measured figures of merit: they are echoed by the plot and the report,
    never computed from the model. *)
Definition Voc : F := dec 1008312 6.
Definition Jsc : F := dec 3052638788 8.
Definition FF : F := dec 883105 6.
Definition eta : F := dec 271821 6.
Definition V_MPP : F := dec 915723 6.
Definition J_MPP : F := dec 2968373326 8.

(** Diode model parameters.  [Rsh] is a Python [int]: it is converted to a
    float where it meets one. *)
Definition Vt : F := dec 2585 5.
Definition n : F := dec 12 1.
Definition J0 : F := dec 1 12.
Definition Rs : F := dec 1 3.
Definition Rsh : F := num_of_Z 10000.

(** ** The residual and its derivative (lines 30 and 32)

    The binders shadow the module constants of the same name, as the
    parameters of the Python function do; [Vt] is not a parameter: the body
    reads the module constant. *)

(** The exponent [(V + J_guess*Rs)/(n*Vt)], written twice in the source. *)
Definition diode_arg (V n Rs J_guess : F) : F :=
  (V + J_guess * Rs) / (n * Vt).

(** Line 30.  [V] is a numpy scalar at the only call site (an element of
    [V_range]), so both divisions are numpy's and never raise. *)
Definition f (V Jsc J0 n Rs Rsh J_guess : F) : F :=
  J_guess - Jsc + J0 * (nexp (diode_arg V n Rs J_guess) - num_of_Z 1)
  + (V + J_guess * Rs) / Rsh.

(** Line 32, as a value: what the expression is worth when neither Python
    division raises. *)
Definition df_val (V J0 n Rs Rsh J_guess : F) : F :=
  num_of_Z 1 + (J0 * Rs / (n * Vt)) * nexp (diode_arg V n Rs J_guess)
  + Rs / Rsh.

(** Line 32, as it executes: [J0*Rs/(n*Vt)] and [Rs/Rsh] divide Python
    scalars, so each raises [ZeroDivisionError] on a zero divisor. The first
    is evaluated before the second. *)
Definition df (V J0 n Rs Rsh J_guess : F) : result F :=
  (a <- pydiv (J0 * Rs) (n * Vt) ;;
   b <- pydiv Rs Rsh ;;
   Ok (num_of_Z 1 + a * nexp (diode_arg V n Rs J_guess) + b))%py.

(** The guard under which line 32 does not raise. *)
Definition divisors_ok (n Rsh : F) : bool :=
  negb (n * Vt =? num_of_Z 0) && negb (Rsh =? num_of_Z 0).

(** ** [df] on each branch *)

Lemma df_Ok (V J0 n Rs Rsh J_guess : F) :
  divisors_ok n Rsh = true ->
  df V J0 n Rs Rsh J_guess = Ok (df_val V J0 n Rs Rsh J_guess).
Proof.
  unfold divisors_ok, df, df_val; intros Hok.
  apply Bool.andb_true_iff in Hok as [Hn Hr].
  apply Bool.negb_true_iff in Hn, Hr.
  rewrite (pydiv_Ok _ _ Hn), (pydiv_Ok _ _ Hr); reflexivity.
Qed.

Lemma df_Raise (V J0 n Rs Rsh J_guess : F) :
  divisors_ok n Rsh = false ->
  df V J0 n Rs Rsh J_guess = Raise ZeroDivisionError.
Proof.
  unfold divisors_ok, df; intros Hok.
  destruct (pydiv_cases (J0 * Rs) (n * Vt)) as [[-> Hn]|[-> Hn]]; simpl; auto.
  destruct (pydiv_cases Rs Rsh) as [[-> Hr]|[-> Hr]]; simpl; auto.
  rewrite Hn, Hr in Hok; discriminate.
Qed.

End WithNum.

End Cell.
