(* ===== verification/Newton.v ===== *)
(** * Newton: the function [solar_cell_current] (lines 20-40)

    [Solver.solar_cell_current] is the Python function, statement by
    statement: the initial guess (line 26), the [for _ in range(100)] loop
    (line 28) whose body computes [f], [df] and [J_new] (lines 30-34), the
    [break] on a small step (lines 36-37), the update of [J_guess] (line 38)
    and [return J_new] (line 40).

    The theorems of this file hold for every arithmetic [Num F]; they are the
    control-flow facts about the function: when it raises, that it otherwise
    always returns, and which Newton iterate it returns. *)

From Stdlib Require Import ZArith Lia Bool.
From S2P Require Import Prelude Num Diode.

Module Solver.

Section WithNum.
Context {F : Type} `{Num F}.
Local Open Scope num_scope.

(** The step tolerance of line 36 and the iteration cap of line 28. *)
Definition tol : F := dec 1 10.
Definition max_iter : nat := 100.

Section Call.
(** The arguments of one call. *)
Variables V Jsc J0 n Rs Rsh : F.

(** ** The loop body *)

(** Lines 30-34 as a value: the Newton update of [J_guess]. *)
Definition newton_step (J_guess : F) : F :=
  J_guess - Cell.f V Jsc J0 n Rs Rsh J_guess / Cell.df_val V J0 n Rs Rsh J_guess.

(** Line 36: the test that guards [break]. *)
Definition converged (J_guess : F) : bool :=
  nabs (newton_step J_guess - J_guess) <? tol.

(** Lines 30-36 as they execute: [f], then [df] (which may raise), then
    [J_new] and the test.  The pair is [(J_new, break?)]. *)
Definition body (J_guess : F) : result (F * bool) :=
  (let f := Cell.f V Jsc J0 n Rs Rsh J_guess in
   df <- Cell.df V J0 n Rs Rsh J_guess ;;
   let J_new := J_guess - f / df in
   Ok (J_new, nabs (J_new - J_guess) <? tol))%py.

(** ** The loop

    [for_range k J_guess J_new] runs the remaining [k] iterations of the
    [for] loop from the local variables [J_guess] and [J_new]; [J_new] is
    [None] while the name is unbound.  The result is the binding of [J_new]
    when the loop is left, by [break] or by exhaustion. *)
Fixpoint for_range (k : nat) (J_guess : F) (J_new : option F)
  : result (option F) :=
  match k with
  | O => Ok J_new
  | S k' =>
      (r <- body J_guess ;;
       if snd r then Ok (Some (fst r))
       else for_range k' (fst r) (Some (fst r)))%py
  end.

(** Lines 20-40: the whole function.  [return J_new] raises
    [UnboundLocalError] if the loop never bound the name. *)
Definition solar_cell_current : result F :=
  (r <- for_range max_iter Jsc None ;;
   match r with
   | Some J_new => Ok J_new
   | None => Raise UnboundLocalError
   end)%py.

(** ** Specification: the sequence of Newton iterates *)

(** [iterate k J] is the [k]-th iterate from [J], with no stopping test. *)
Fixpoint iterate (k : nat) (J : F) : F :=
  match k with
  | O => J
  | S k' => iterate k' (newton_step J)
  end.

(** [stops_at k j J]: a loop of [k] iterations started at [J] leaves after
    its iteration number [j] (counted from 0): no earlier iteration met the
    test, and iteration [j] met it or was the last one. *)
Definition stops_at (k j : nat) (J : F) : Prop :=
  j < k /\
  (forall i, i < j -> converged (iterate i J) = false) /\
  (converged (iterate j J) = true \/ S j = k).

(** ** Lemmas on the body *)

Lemma body_Ok (J_guess : F) :
  Cell.divisors_ok n Rsh = true ->
  body J_guess = Ok (newton_step J_guess, converged J_guess).
Proof.
  intros Hok; unfold body, converged, newton_step.
  rewrite (Cell.df_Ok _ _ _ _ _ _ Hok); reflexivity.
Qed.

Lemma body_Raise (J_guess : F) :
  Cell.divisors_ok n Rsh = false ->
  body J_guess = Raise ZeroDivisionError.
Proof.
  intros Hok; unfold body.
  rewrite (Cell.df_Raise _ _ _ _ _ _ Hok); reflexivity.
Qed.

Lemma iterate_S_r (k : nat) (J : F) :
  iterate (S k) J = newton_step (iterate k J).
Proof. revert J; induction k as [|k IH]; intros J; [reflexivity|apply IH]. Qed.

Lemma stops_at_S (k j : nat) (J : F) :
  converged J = false -> stops_at k j (newton_step J) -> stops_at (S k) (S j) J.
Proof.
  intros Hc (Hj & Hbefore & Hlast); repeat split.
  - lia.
  - intros [|i] Hi; [exact Hc|apply Hbefore; lia].
  - destruct Hlast as [Hl|Hl]; [left; exact Hl|right; lia].
Qed.

Lemma stops_at_0 (k : nat) (J : F) :
  converged J = true \/ k = 0 -> stops_at (S k) 0 J.
Proof.
  intros Hc; repeat split; [lia|intros i Hi; lia|].
  destruct Hc as [Hc | ->]; [left; exact Hc|right; reflexivity].
Qed.

(** [stops_at] determines the iteration: the loop leaves at one place. *)
Lemma stops_at_unique (k j j' : nat) (J : F) :
  stops_at k j J -> stops_at k j' J -> j = j'.
Proof.
  intros (Hj & Hb & Hl) (Hj' & Hb' & Hl').
  destruct (Nat.lt_trichotomy j j') as [Hlt|[Heq|Hgt]]; [exfalso|exact Heq|exfalso].
  - destruct Hl as [Hl|Hl]; [rewrite (Hb' j Hlt) in Hl; discriminate|lia].
  - destruct Hl' as [Hl'|Hl']; [rewrite (Hb j' Hgt) in Hl'; discriminate|lia].
Qed.

(** ** The loop, on every branch *)

(** With non-zero divisors the loop of [S k] iterations leaves after some
    iteration [j] with [J_new] bound to the iterate number [S j]. *)
Lemma for_range_Ok (k : nat) (J_guess : F) (J_new : option F) :
  Cell.divisors_ok n Rsh = true ->
  exists j, stops_at (S k) j J_guess /\
            for_range (S k) J_guess J_new = Ok (Some (iterate (S j) J_guess)).
Proof.
  intros Hok; revert J_guess J_new.
  induction k as [|k IH]; intros Jg Jn; cbn [for_range];
    rewrite (body_Ok _ Hok); cbn [bind fst snd].
  - exists 0; split; [apply stops_at_0|]; destruct (converged Jg); auto.
  - destruct (converged Jg) eqn:Hc.
    + exists 0; split; [apply stops_at_0; auto|reflexivity].
    + destruct (IH (newton_step Jg) (Some (newton_step Jg))) as (j & Hs & Hr).
      exists (S j); split; [apply stops_at_S; assumption|exact Hr].
Qed.

(** With a zero divisor the first iteration raises. *)
Lemma for_range_Raise (k : nat) (J_guess : F) (J_new : option F) :
  Cell.divisors_ok n Rsh = false ->
  for_range (S k) J_guess J_new = Raise ZeroDivisionError.
Proof. intros Hok; cbn [for_range]; rewrite (body_Raise _ Hok); reflexivity. Qed.

(** ** Deciding an early exit *)

(** [breaks_within k J]: one of the first [k] iterations from the guess [J]
    meets the step test. *)
Fixpoint breaks_within (k : nat) (J : F) : bool :=
  match k with
  | O => false
  | S k' => converged J || breaks_within k' (newton_step J)
  end.

Lemma breaks_within_spec (k : nat) (J : F) :
  breaks_within k J = true ->
  exists j, j < k /\
            (forall i, i < j -> converged (iterate i J) = false) /\
            converged (iterate j J) = true.
Proof.
  revert J; induction k as [|k IH]; intros J; cbn; [discriminate|].
  destruct (converged J) eqn:Hc; cbn.
  - intros _; exists 0; repeat split; [lia|intros i Hi; lia|exact Hc].
  - intros Hb; destruct (IH _ Hb) as (j & Hj & Hbefore & Hlast).
    exists (S j); repeat split; [lia| |exact Hlast].
    intros [|i] Hi; [exact Hc|apply Hbefore; lia].
Qed.

(** An early exit within [k <= m] iterations is where a loop of [m]
    iterations stops. *)
Lemma breaks_within_stops_at (k m : nat) (J : F) :
  k <= m -> breaks_within k J = true ->
  exists j, j < k /\ stops_at m j J /\ converged (iterate j J) = true.
Proof.
  intros Hkm Hb; destruct (breaks_within_spec _ _ Hb) as (j & Hj & Hbefore & Hl).
  exists j; repeat split; [exact Hj|lia|exact Hbefore|left; exact Hl|exact Hl].
Qed.

Lemma breaks_within_false (k : nat) (J : F) :
  breaks_within k J = false ->
  forall j, j < k -> converged (iterate j J) = false.
Proof.
  revert J; induction k as [|k IH]; intros J Hb j Hj; [lia|].
  cbn in Hb; apply orb_false_iff in Hb as [Hc Hb].
  destruct j as [|j]; [exact Hc|apply (IH _ Hb); lia].
Qed.

(** An iteration that meets the test is an early exit, at the first such
    iteration. *)
Lemma converged_breaks_within (k j : nat) (J : F) :
  j < k -> converged (iterate j J) = true -> breaks_within k J = true.
Proof.
  intros Hj Hc; destruct (breaks_within k J) eqn:Hb; [reflexivity|].
  rewrite (breaks_within_false _ _ Hb j Hj) in Hc; discriminate.
Qed.

(** No early exit in [S k] iterations: the loop is left by exhaustion. *)
Lemma breaks_within_false_stops_at (k : nat) (J : F) :
  breaks_within (S k) J = false -> stops_at (S k) k J.
Proof.
  intros Hb; repeat split; [lia| |right; reflexivity].
  intros i Hi; apply (breaks_within_false _ _ Hb); lia.
Qed.

(** ** The function, on every branch *)

(** With non-zero divisors the call returns, and what it returns is the
    Newton iterate after the stopping iteration. *)
Lemma solar_cell_current_Ok :
  Cell.divisors_ok n Rsh = true ->
  exists j, stops_at 100 j Jsc /\
            solar_cell_current = Ok (iterate (S j) Jsc).
Proof.
  intros Hok; unfold solar_cell_current, max_iter.
  destruct (for_range_Ok 99 Jsc None Hok) as (j & Hs & ->).
  exists j; split; [exact Hs|reflexivity].
Qed.

(** If some iteration [j < k] meets the test, the call returns through
    [break], at the first such iteration. *)
Lemma solar_cell_current_break (k j : nat) :
  Cell.divisors_ok n Rsh = true ->
  j < k -> k <= 100 -> converged (iterate j Jsc) = true ->
  exists j', j' < k /\ stops_at 100 j' Jsc /\
             converged (iterate j' Jsc) = true /\
             solar_cell_current = Ok (iterate (S j') Jsc).
Proof.
  intros Hok Hj Hk Hc.
  pose proof (converged_breaks_within k j Jsc Hj Hc) as Hb.
  destruct (breaks_within_stops_at k 100 Jsc Hk Hb) as (j' & Hj' & Hs & Hc').
  destruct (solar_cell_current_Ok Hok) as (j0 & Hs0 & Hr).
  rewrite (stops_at_unique _ _ _ _ Hs0 Hs) in Hr; eauto.
Qed.

(** If none of the 100 iterations meets the test, the loop is left by
    exhaustion and the call returns the hundredth update. *)
Lemma solar_cell_current_exhausted :
  Cell.divisors_ok n Rsh = true ->
  (forall j, j < 100 -> converged (iterate j Jsc) = false) ->
  stops_at 100 99 Jsc /\ solar_cell_current = Ok (iterate 100 Jsc).
Proof.
  intros Hok Hno.
  assert (stops_at 100 99 Jsc) as Hs
    by (repeat split; [lia|intros i Hi; apply Hno; lia|right; reflexivity]).
  destruct (solar_cell_current_Ok Hok) as (j0 & Hs0 & Hr).
  rewrite (stops_at_unique _ _ _ _ Hs0 Hs) in Hr; split; assumption.
Qed.

Lemma solar_cell_current_Raise :
  Cell.divisors_ok n Rsh = false ->
  solar_cell_current = Raise ZeroDivisionError.
Proof.
  intros Hok; unfold solar_cell_current, max_iter.
  rewrite (for_range_Raise _ _ _ Hok); reflexivity.
Qed.

(** C1. Functional correctness of the loop: when neither divisor [n*Vt] nor
    [Rsh] is zero, [solar_cell_current] returns the Newton iterate number
    [j+1] from the initial guess [Jsc], where [j < 100] is the first
    iteration whose step is below the tolerance, or [j = 99] when no
    iteration meets the test; this [j] is unique. *)
Theorem solar_cell_current_returns_stopping_iterate :
  Cell.divisors_ok n Rsh = true ->
  exists! j, stops_at 100 j Jsc /\
             solar_cell_current = Ok (iterate (S j) Jsc).
Proof.
  intros Hok; destruct (solar_cell_current_Ok Hok) as (j & Hs & Hr).
  exists j; split; [auto|].
  intros j' [Hs' _]; exact (stops_at_unique _ _ _ _ Hs Hs').
Qed.

(** C9. Error path: the call raises exactly when a divisor of line 32 is
    zero, and the exception is then [ZeroDivisionError]; in particular
    [return J_new] never finds the name unbound. *)
Theorem solar_cell_current_raises_iff (e : exn) :
  solar_cell_current = Raise e <->
  e = ZeroDivisionError /\ Cell.divisors_ok n Rsh = false.
Proof.
  destruct (Cell.divisors_ok n Rsh) eqn:Hok.
  - destruct (solar_cell_current_Ok Hok) as (j & _ & ->).
    split; [discriminate|intros [_ Hf]; discriminate].
  - rewrite (solar_cell_current_Raise Hok).
    split; [intros [= <-]; auto|intros [-> _]; reflexivity].
Qed.

(** Termination within the cap: a returned value is reached after at
    most 100 evaluations of the body, and it is one Newton update
    past a guess [J_guess] that either met the step test or was the guess
    of the hundredth iteration. *)
Theorem solar_cell_current_one_step_past_guess (J : F) :
  solar_cell_current = Ok J ->
  exists j, j < 100 /\
            J = newton_step (iterate j Jsc) /\
            (converged (iterate j Jsc) = true \/ j = 99).
Proof.
  intros Hr; destruct (Cell.divisors_ok n Rsh) eqn:Hok.
  - destruct (solar_cell_current_Ok Hok) as (j & (Hj & _ & Hl) & Hj').
    rewrite Hj' in Hr; injection Hr as <-.
    exists j; repeat split; [exact Hj|apply iterate_S_r|].
    destruct Hl as [Hl|Hl]; [left; exact Hl|right; lia].
  - rewrite (solar_cell_current_Raise Hok) in Hr; discriminate.
Qed.

End Call.
End WithNum.

End Solver.
