(* ===== verification/Machine.v ===== *)
(** * Machine: one call of [solar_cell_current] as a state machine

    The specification remarks that the solver keeps no state between calls;
    within a call the state is the triple of the loop counter and the two
    local variables [J_guess] and [J_new].  This file gives the call as a
    transition relation on that state, one transition per evaluation of the
    loop body, and proves that the function of [Newton.v] computes the
    unique final state of the relation: an invariant of the reachable
    states, a bound on the length of every run, and the refinement of the
    machine by the function. *)

From Stdlib Require Import ZArith Lia Bool.
From S2P Require Import Prelude Num Diode Newton.

Module Machine.

Section WithNum.
Context {F : Type} `{Num F}.

(** Control states.  [Loop i J_guess J_new] is the head of the [for] loop
    with [i] iterations completed; [J_new] is [None] while unbound. *)
Inductive state : Type :=
| Loop (i : nat) (J_guess : F) (J_new : option F)
| Returned (J : F)
| Raised (e : exn).

Definition outcome (s : state) : option (result F) :=
  match s with
  | Loop _ _ _ => None
  | Returned J => Some (Ok J)
  | Raised e => Some (Raise e)
  end.

Section Call.
Variables V Jsc J0 n Rs Rsh : F.

Local Abbreviation body := (Solver.body V Jsc J0 n Rs Rsh).
Local Abbreviation newton_step := (Solver.newton_step V Jsc J0 n Rs Rsh).
Local Abbreviation converged := (Solver.converged V Jsc J0 n Rs Rsh).
Local Abbreviation iterate := (Solver.iterate V Jsc J0 n Rs Rsh).

(** Line 26: the state in which the loop is entered. *)
Definition init : state := Loop 0 Jsc None.

(** One transition: an iteration that goes on (lines 30-38), one that
    breaks and returns (lines 36-37, 40), one that raises (line 32), and the
    exit by exhaustion of [range(100)] (lines 28, 40). *)
Inductive step : state -> state -> Prop :=
| step_continue (i : nat) (J_guess : F) (J_new : option F) (J' : F) :
    i < 100 -> body J_guess = Ok (J', false) ->
    step (Loop i J_guess J_new) (Loop (S i) J' (Some J'))
| step_break (i : nat) (J_guess : F) (J_new : option F) (J' : F) :
    i < 100 -> body J_guess = Ok (J', true) ->
    step (Loop i J_guess J_new) (Returned J')
| step_raise (i : nat) (J_guess : F) (J_new : option F) (e : exn) :
    i < 100 -> body J_guess = Raise e ->
    step (Loop i J_guess J_new) (Raised e)
| step_exhausted (J_guess J : F) :
    step (Loop 100 J_guess (Some J)) (Returned J)
| step_unbound (J_guess : F) :
    step (Loop 100 J_guess None) (Raised UnboundLocalError).

(** The transition as a function, for evaluation. *)
Definition next (s : state) : option state :=
  match s with
  | Loop i J_guess J_new =>
      if Nat.ltb i 100 then
        match body J_guess with
        | Ok (J', false) => Some (Loop (S i) J' (Some J'))
        | Ok (J', true) => Some (Returned J')
        | Raise e => Some (Raised e)
        end
      else if Nat.eqb i 100 then
        match J_new with
        | Some J => Some (Returned J)
        | None => Some (Raised UnboundLocalError)
        end
      else None
  | _ => None
  end.

Fixpoint run (fuel : nat) (s : state) : state :=
  match fuel with
  | O => s
  | S fuel' => match next s with Some s' => run fuel' s' | None => s end
  end.

(** What holds of every state a call reaches. *)
Definition inv (s : state) : Prop :=
  match s with
  | Loop i J_guess J_new =>
      i <= 100 /\ J_guess = iterate i Jsc /\
      (i = 0 -> J_new = None) /\ (0 < i -> J_new = Some J_guess)
  | Returned J =>
      exists j, j < 100 /\ J = iterate (S j) Jsc /\
                (converged (iterate j Jsc) = true \/ j = 99)
  | Raised e => e = ZeroDivisionError /\ Cell.divisors_ok n Rsh = false
  end.

(** The distance to the end of the call. *)
Definition measure (s : state) : nat :=
  match s with
  | Loop i _ _ => 101 - i
  | _ => 0
  end.

(** ** The transition relation *)

Lemma next_step (s s' : state) : next s = Some s' <-> step s s'.
Proof.
  split.
  - destruct s as [i Jg Jn| |]; cbn [next]; try discriminate.
    destruct (Nat.ltb_spec i 100) as [Hi|Hi].
    + destruct (body Jg) as [[J' []]|e] eqn:Hb; intros [= <-];
        [apply step_break|apply step_continue|apply step_raise]; assumption.
    + destruct (Nat.eqb_spec i 100) as [->|Hne]; [|discriminate].
      destruct Jn; intros [= <-]; [apply step_exhausted|apply step_unbound].
  - intros Hs; destruct Hs as [i Jg Jn J' Hi Hb|i Jg Jn J' Hi Hb|i Jg Jn e Hi Hb| |];
      cbn [next]; try (destruct (Nat.ltb_spec i 100); [rewrite Hb; reflexivity|lia]);
      reflexivity.
Qed.

Lemma step_functional : functional step.
Proof.
  intros s s1 s2 H1 H2; apply next_step in H1, H2; congruence.
Qed.

Lemma final_stuck (s : state) : outcome s <> None -> stuck step s.
Proof.
  intros Ho s' Hs; destruct Hs; cbn [outcome] in Ho; congruence.
Qed.

Lemma step_measure (s s' : state) : step s s' -> measure s' < measure s.
Proof. intros Hs; destruct Hs; cbn [measure]; lia. Qed.

(** ** The invariant *)

Lemma body_Ok_inv (J_guess J' : F) (b : bool) :
  body J_guess = Ok (J', b) ->
  Cell.divisors_ok n Rsh = true /\ J' = newton_step J_guess /\
  b = converged J_guess.
Proof.
  destruct (Cell.divisors_ok n Rsh) eqn:Hok.
  - rewrite (Solver.body_Ok _ _ _ _ _ _ _ Hok); intros [= <- <-]; auto.
  - rewrite (Solver.body_Raise _ _ _ _ _ _ _ Hok); discriminate.
Qed.

Lemma body_Raise_inv (J_guess : F) (e : exn) :
  body J_guess = Raise e ->
  e = ZeroDivisionError /\ Cell.divisors_ok n Rsh = false.
Proof.
  destruct (Cell.divisors_ok n Rsh) eqn:Hok.
  - rewrite (Solver.body_Ok _ _ _ _ _ _ _ Hok); discriminate.
  - rewrite (Solver.body_Raise _ _ _ _ _ _ _ Hok); intros [= <-]; auto.
Qed.

Lemma inv_init : inv init.
Proof. cbn [inv init]; repeat split; [lia|lia]. Qed.

Lemma inv_step (s s' : state) : inv s -> step s s' -> inv s'.
Proof.
  intros Hi Hs; destruct Hs as [i Jg Jn J' Hlt Hb|i Jg Jn J' Hlt Hb|i Jg Jn e Hlt Hb|Jg J|Jg];
    cbn [inv] in Hi |- *; destruct Hi as (Hle & HJg & H0 & Hpos).
  - apply body_Ok_inv in Hb as (_ & -> & _).
    rewrite Solver.iterate_S_r, <- HJg; repeat split; lia.
  - apply body_Ok_inv in Hb as (_ & -> & Hc).
    exists i; rewrite Solver.iterate_S_r, <- HJg; auto.
  - exact (body_Raise_inv _ _ Hb).
  - specialize (Hpos ltac:(lia)); injection Hpos as ->.
    exists 99; rewrite HJg; repeat split; [lia|right; reflexivity].
  - specialize (Hpos ltac:(lia)); discriminate.
Qed.

(** ** Runs are bounded *)

Lemma steps_measure (k : nat) (s s' : state) :
  steps step k s s' -> k + measure s' <= measure s.
Proof.
  induction 1 as [a|k a b c Hab _ IH]; [lia|].
  pose proof (step_measure _ _ Hab); lia.
Qed.

(** ** The function computes the final state *)

(** The value of the function from the binding of [J_new] at loop exit. *)
Definition returned (r : result (option F)) : result F :=
  (o <- r ;;
   match o with
   | Some J_new => Ok J_new
   | None => Raise UnboundLocalError
   end)%py.

(** From the head of the loop with [k] iterations left, the machine runs to
    the final state that [for_range k] describes, in at most [k + 1]
    transitions. *)
Lemma for_range_steps (k i : nat) (J_guess : F) (J_new : option F) :
  i + k = 100 ->
  exists m s, m <= k + 1 /\ steps step m (Loop i J_guess J_new) s /\
              outcome s
              = Some (returned (Solver.for_range V Jsc J0 n Rs Rsh k J_guess J_new)).
Proof.
  revert i J_guess J_new; induction k as [|k IH]; intros i Jg Jn Hik.
  - assert (i = 100) as -> by lia; cbn [Solver.for_range returned bind].
    destruct Jn as [J|];
      [exists 1, (Returned J)|exists 1, (Raised UnboundLocalError)];
      (split; [lia|split; [apply steps_1|reflexivity]]);
      [apply step_exhausted|apply step_unbound].
  - cbn [Solver.for_range]; destruct (body Jg) as [[J' []]|e] eqn:Hb;
      cbn [bind fst snd returned].
    + exists 1, (Returned J'); split; [lia|split; [|reflexivity]].
      apply steps_1, step_break; [lia|exact Hb].
    + destruct (IH (S i) J' (Some J') ltac:(lia)) as (m & s & Hm & Hs & Ho).
      exists (S m), s; split; [lia|split; [|exact Ho]].
      apply steps_S with (b := Loop (S i) J' (Some J')); [|exact Hs].
      apply step_continue; [lia|exact Hb].
    + exists 1, (Raised e); split; [lia|split; [|reflexivity]].
      apply steps_1, step_raise; [lia|exact Hb].
Qed.

Lemma run_steps (fuel : nat) (s : state) :
  exists k, k <= fuel /\ steps step k s (run fuel s) /\
            (k < fuel -> next (run fuel s) = None).
Proof.
  revert s; induction fuel as [|fuel IH]; intros s; cbn [run].
  - exists 0; split; [lia|split; [constructor|lia]].
  - destruct (next s) as [s'|] eqn:Hn.
    + destruct (IH s') as (k & Hk & Hs & Hstop).
      exists (S k); split; [lia|split].
      * apply steps_S with (b := s'); [apply next_step, Hn|exact Hs].
      * intros Hlt; apply Hstop; lia.
    + exists 0; split; [lia|split; [constructor|intros _; exact Hn]].
Qed.

(** The executable machine, run for 101 steps, is at the final state the
    function describes. *)
Lemma run_complete :
  exists k, steps step k init (run 101 init) /\
            outcome (run 101 init)
            = Some (Solver.solar_cell_current V Jsc J0 n Rs Rsh).
Proof.
  destruct (run_steps 101 init) as (k & Hk & Hs & Hstop).
  destruct (for_range_steps 100 0 Jsc None eq_refl) as (m & s & Hm & Hs' & Ho).
  assert (stuck step s) as Hst by (apply final_stuck; congruence).
  pose proof (steps_stuck_longest step m k init s _ step_functional Hs' Hst Hs).
  exists k; split; [exact Hs|].
  destruct (Nat.eq_dec k m) as [->|Hne].
  - rewrite <- (steps_functional step m init s _ step_functional Hs' Hs).
    exact Ho.
  - assert (stuck step (run 101 init)) as Hst'.
    { intros b Hb; apply next_step in Hb.
      rewrite Hstop in Hb; [discriminate|lia]. }
    destruct (steps_stuck_unique step m k init s _ step_functional
                Hs' Hst Hs Hst') as [_ <-]; exact Ho.
Qed.

(** C12. Invariant of a call: in every reachable state of the loop the
    counter is at most 100, [J_guess] is the Newton iterate of that index,
    [J_new] is unbound exactly before the first iteration and equals
    [J_guess] afterwards; a returned value is one update past the guess of
    a converged or of the hundredth iteration; the only exception raised is
    [ZeroDivisionError], on a zero divisor. *)
Theorem call_invariant (k : nat) (s : state) :
  steps step k init s -> inv s.
Proof.
  enough (forall a, steps step k a s -> inv a -> inv s) as Hg
    by (intros Hr; exact (Hg _ Hr inv_init)).
  induction 1 as [a|k a b c Hab _ IH]; intros Ha; [exact Ha|].
  exact (IH (inv_step _ _ Ha Hab)).
Qed.

(** C13. Termination: every run of a call has at most 101 transitions (100
    evaluations of the body and the exit), and the run of 101 steps of the
    executable machine ends in a final state. *)
Theorem call_terminates :
  (forall k s, steps step k init s -> k <= 101) /\
  outcome (run 101 init) <> None.
Proof.
  split.
  - intros k s Hs; pose proof (steps_measure _ _ _ Hs) as Hm.
    cbn [measure init] in Hm; lia.
  - destruct run_complete as (k & _ & ->); discriminate.
Qed.

(** C10. Refinement: the machine has exactly one complete run, and its
    outcome is the value of [Solver.solar_cell_current]; the executable
    machine computes it. *)
Theorem machine_refines_function :
  outcome (run 101 init) = Some (Solver.solar_cell_current V Jsc J0 n Rs Rsh) /\
  forall k s, steps step k init s -> outcome s <> None ->
              s = run 101 init.
Proof.
  destruct run_complete as (k & Hs & Ho); split; [exact Ho|].
  intros k' s' Hs' Ho'.
  refine (proj2 (steps_stuck_unique step k' k init s' _ step_functional
                   Hs' (final_stuck _ Ho') Hs (final_stuck _ _))).
  rewrite Ho; discriminate.
Qed.

End Call.
End WithNum.

End Machine.
