(* ===== verification/RealNum.v ===== *)
(** * RealNum: the script read over the real numbers

    The instance [R_Num] interprets every operation of [Num] by the exact
    operation of the field of reals; [np.exp] is the exponential.  This is
    the idealised semantics in which the Newton iteration is analysed
    ([ConvexNewton.v], [DiodeReal.v]).  The comparisons are the classical
    decisions of [<] and [=], so the definitions do not evaluate here: the
    executable instance is the one of [FloatNum.v]. *)

From Stdlib Require Import ZArith Reals Lra.
From S2P Require Import Prelude Num Diode.

Local Open Scope R_scope.

Definition Rltb (x y : R) : bool := if Rlt_dec x y then true else false.
Definition Reqb (x y : R) : bool := if Req_dec_T x y then true else false.

#[export] Instance R_Num : Num R := {|
  num_of_Z := IZR;
  nadd := Rplus;
  nsub := Rminus;
  nmul := Rmult;
  ndiv := Rdiv;
  nopp := Ropp;
  nabs := Rabs;
  nexp := exp;
  nltb := Rltb;
  neqb := Reqb
|}.

(** ** Reflection of the boolean tests *)

Lemma Rltb_true_iff (x y : R) : Rltb x y = true <-> x < y.
Proof. unfold Rltb; destruct (Rlt_dec x y); split; auto; discriminate. Qed.

Lemma Rltb_false_iff (x y : R) : Rltb x y = false <-> y <= x.
Proof.
  unfold Rltb; destruct (Rlt_dec x y); split; auto; try discriminate; lra.
Qed.

Lemma Reqb_true_iff (x y : R) : Reqb x y = true <-> x = y.
Proof. unfold Reqb; destruct (Req_dec_T x y); split; auto; discriminate. Qed.

Lemma Reqb_false_iff (x y : R) : Reqb x y = false <-> x <> y.
Proof.
  unfold Reqb; destruct (Req_dec_T x y); split; auto; try discriminate.
  intros Hne; contradiction.
Qed.

#[export] Hint Rewrite Rltb_true_iff Rltb_false_iff Reqb_true_iff Reqb_false_iff
  Bool.andb_true_iff Bool.negb_true_iff Bool.andb_false_iff Bool.negb_false_iff
  : solar_reflect.

(** ** Tactics *)

(** [num_real] exposes the real operations behind the interface. *)
Ltac num_real :=
  cbn [num_of_Z nadd nsub nmul ndiv nopp nabs nexp nltb neqb R_Num] in *.

(** [cell_consts] unfolds the module constants to decimal fractions that
    [lra] reads. *)
Ltac cell_consts :=
  unfold Cell.Voc, Cell.Jsc, Cell.FF, Cell.eta, Cell.V_MPP, Cell.J_MPP,
    Cell.Vt, Cell.n, Cell.J0, Cell.Rs, Cell.Rsh, dec in *;
  num_real; cbn [Z.of_nat Pos.of_succ_nat Pos.succ] in *.

(** ** The constants as reals *)

Lemma dec_real (m : Z) (k : nat) : dec m k = IZR m / 10 ^ k.
Proof.
  unfold dec; num_real; f_equal.
  rewrite pow_IZR; reflexivity.
Qed.

Lemma Vt_pos : 0 < Cell.Vt (F := R).
Proof. cell_consts; lra. Qed.

Lemma divisors_ok_real (n Rsh : R) :
  Cell.divisors_ok n Rsh = true <-> n <> 0 /\ Rsh <> 0.
Proof.
  unfold Cell.divisors_ok; num_real; autorewrite with solar_reflect.
  pose proof Vt_pos as HVt.
  split; intros [Hn Hr]; split; auto.
  - intros ->; apply Hn; lra.
  - intros Hz; apply Rmult_integral in Hz; destruct Hz; [auto|lra].
Qed.
