(* ===== verification/ConvexNewton.v ===== *)
(** * ConvexNewton: Newton's iteration on an increasing convex function

    The analysis of the solver does not depend on the diode equation, only
    on two facts about the residual [f] and the expression [df] the code
    divides by: [df] is positive, and the tangent of slope [df x] at [x]
    lies below [f].  The class [ConvexIncreasing] states this contract;
    [DiodeReal.v] discharges it for the single-diode residual, and every
    theorem here is proved against the contract alone. *)

From Stdlib Require Import Reals Lra Lia.
From S2P Require Import Prelude.

Local Open Scope R_scope.

(** What the iteration needs of the pair ([f], [df]). *)
Class ConvexIncreasing (f df : R -> R) : Prop := {
  df_pos : forall x, 0 < df x;
  tangent_below : forall x y, f x + df x * (y - x) <= f y
}.

(** One Newton update, and [k] of them. *)
Definition newton (f df : R -> R) (x : R) : R := x - f x / df x.

Fixpoint newton_iter (f df : R -> R) (k : nat) (x : R) : R :=
  match k with
  | O => x
  | S k' => newton_iter f df k' (newton f df x)
  end.

Section Newton.
Context (f df : R -> R) `{HC : !ConvexIncreasing f df}.

Local Abbreviation N := (newton f df).

Lemma df_neq_0 (x : R) : df x <> 0.
Proof. pose proof (df_pos x); lra. Qed.

(** The step is the residual scaled by the positive slope. *)
Lemma newton_step_size (x : R) : df x * (N x - x) = - f x.
Proof. unfold newton; field_simplify; [lra|apply df_neq_0]. Qed.

Lemma newton_iter_S_r (k : nat) (x : R) :
  newton_iter f df (S k) x = N (newton_iter f df k x).
Proof. revert x; induction k as [|k IH]; intros x; [reflexivity|apply IH]. Qed.

(** ** Monotonicity of [f] and uniqueness of the root *)

Lemma f_strictly_increasing (x y : R) : x < y -> f x < f y.
Proof.
  intros Hxy; pose proof (tangent_below x y); pose proof (df_pos x); nra.
Qed.

Lemma f_increasing (x y : R) : x <= y -> f x <= f y.
Proof.
  intros [Hlt| ->]; [left; apply f_strictly_increasing; exact Hlt|lra].
Qed.

Lemma f_le_inv (x y : R) : f x <= f y -> x <= y.
Proof.
  intros Hf; destruct (Rle_or_lt x y) as [Hle|Hlt]; [exact Hle|].
  pose proof (f_strictly_increasing _ _ Hlt); lra.
Qed.

Lemma root_unique (r r' : R) : f r = 0 -> f r' = 0 -> r = r'.
Proof. intros Hr Hr'; apply Rle_antisym; apply f_le_inv; lra. Qed.

(** ** One update *)

(** Convexity: the update never lands where the residual is negative. *)
Lemma newton_residual_nonneg (x : R) : 0 <= f (N x).
Proof.
  pose proof (tangent_below x (N x)); pose proof (newton_step_size x); lra.
Qed.

(** Hence the update never undershoots a root. *)
Lemma newton_ge_root (r x : R) : f r = 0 -> r <= N x.
Proof.
  intros Hr; apply f_le_inv; rewrite Hr; apply newton_residual_nonneg.
Qed.

(** From a point with a non-negative residual the update moves left. *)
Lemma newton_le (x : R) : 0 <= f x -> N x <= x.
Proof.
  intros Hf; pose proof (newton_step_size x); pose proof (df_pos x); nra.
Qed.

Lemma newton_lt (x : R) : 0 < f x -> N x < x.
Proof.
  intros Hf; pose proof (newton_step_size x); pose proof (df_pos x); nra.
Qed.

(** The fixed points of the update are the roots. *)
Lemma newton_fixed_iff (x : R) : N x = x <-> f x = 0.
Proof.
  pose proof (newton_step_size x) as Hs; pose proof (df_pos x) as Hd.
  split; intros Hx; [rewrite Hx in Hs; lra|nra].
Qed.

(** ** The sequence of iterates *)

(** After the first update every iterate has a non-negative residual. *)
Lemma newton_iter_residual_nonneg (k : nat) (x : R) :
  0 <= f (newton_iter f df (S k) x).
Proof. rewrite newton_iter_S_r; apply newton_residual_nonneg. Qed.

(** ... lies at or above the root ... *)
Lemma newton_iter_ge_root (r : R) (k : nat) (x : R) :
  f r = 0 -> r <= newton_iter f df (S k) x.
Proof. intros Hr; rewrite newton_iter_S_r; apply newton_ge_root, Hr. Qed.

(** ... and the sequence decreases from then on. *)
Lemma newton_iter_decreasing (k : nat) (x : R) :
  newton_iter f df (S (S k)) x <= newton_iter f df (S k) x.
Proof.
  rewrite (newton_iter_S_r (S k)); apply newton_le, newton_iter_residual_nonneg.
Qed.

Lemma newton_iter_antitone (j k : nat) (x : R) :
  (1 <= j <= k)%nat -> newton_iter f df k x <= newton_iter f df j x.
Proof.
  intros [Hj Hjk]; induction Hjk as [|k Hjk IH]; [lra|].
  destruct k as [|k]; [lia|].
  pose proof (newton_iter_decreasing k x); lra.
Qed.

(** Started where the residual is non-negative, the whole sequence
    decreases and stays above the root. *)
Lemma newton_iter_from_above (r : R) (k : nat) (x : R) :
  f r = 0 -> 0 <= f x ->
  r <= newton_iter f df k x <= x.
Proof.
  intros Hr Hx; split.
  - destruct k; [apply f_le_inv; cbn; lra|apply newton_iter_ge_root, Hr].
  - destruct k as [|k]; [cbn; lra|].
    pose proof (newton_iter_antitone 1 (S k) x ltac:(lia)) as Ha.
    cbn [newton_iter] in Ha |- *; pose proof (newton_le x Hx); lra.
Qed.

(** ** The residual bounds the error *)

(** Where the slope is at least 1 (as [df] is for the diode), the distance
    to the root from above is at most the residual. *)
Lemma error_le_residual (r x : R) :
  (forall y, 1 <= df y) -> f r = 0 -> r <= x -> x - r <= f x.
Proof.
  intros Hd Hr Hx; pose proof (tangent_below r x); pose proof (Hd r); nra.
Qed.

End Newton.
