(* ===== verification/DiodeReal.v ===== *)
(** * DiodeReal: the single-diode residual over the reals

    Discharges the contract [ConvexIncreasing] of [ConvexNewton.v] for the
    residual [Cell.f] and the slope [Cell.df_val] of [Diode.v], read at the
    instance [R_Num], and transfers the results on Newton's iteration to the
    loop of [Newton.v]: what [Solver.solar_cell_current] returns over the
    reals, on which side of the root, and how far from it.

    The section hypotheses are the invariant the specification states for
    the cell parameters: [J0 >= 0], [Rs >= 0], [n > 0], [Rsh > 0].  The
    thermal voltage is the module constant, which is positive. *)

From Stdlib Require Import ZArith Reals Lra Lia.
From S2P Require Import Prelude Num Diode Newton RealNum ConvexNewton.

Local Open Scope R_scope.

(** The exponential lies above each of its tangents. *)
Lemma exp_tangent (u v : R) : exp u * (1 + (v - u)) <= exp v.
Proof.
  replace v with (u + (v - u)) at 2 by ring; rewrite exp_plus.
  pose proof (exp_pos u); pose proof (exp_ineq1_le (v - u)); nra.
Qed.

Lemma exp_le (u v : R) : u <= v -> exp u <= exp v.
Proof. intros [Hlt| ->]; [left; apply exp_increasing, Hlt|lra]. Qed.

Module DiodeR.

Section Params.
Variables V Jsc J0 n Rs Rsh : R.
Hypothesis J0_nonneg : 0 <= J0.
Hypothesis Rs_nonneg : 0 <= Rs.
Hypothesis n_pos : 0 < n.
Hypothesis Rsh_pos : 0 < Rsh.

Local Abbreviation f := (Cell.f V Jsc J0 n Rs Rsh).
Local Abbreviation df := (Cell.df_val V J0 n Rs Rsh).

(** ** The equations, unfolded *)

Lemma nVt_pos : 0 < n * Cell.Vt.
Proof. apply Rmult_lt_0_compat; [exact n_pos|apply Vt_pos]. Qed.

Lemma diode_arg_eq (J : R) :
  Cell.diode_arg V n Rs J = (V + J * Rs) / (n * Cell.Vt).
Proof. reflexivity. Qed.

Lemma f_eq (J : R) :
  f J = J - Jsc + J0 * (exp (Cell.diode_arg V n Rs J) - 1) + (V + J * Rs) / Rsh.
Proof. reflexivity. Qed.

Lemma df_eq (J : R) :
  df J = 1 + J0 * Rs / (n * Cell.Vt) * exp (Cell.diode_arg V n Rs J) + Rs / Rsh.
Proof. reflexivity. Qed.

(** Residual and slope contain the same exponential, so the slope is an
    affine function of the residual. *)
Lemma df_of_f (J : R) :
  df J = 1 + Rs / Rsh
         + Rs / (n * Cell.Vt) * (f J - J + Jsc + J0 - (V + J * Rs) / Rsh).
Proof. rewrite f_eq, df_eq; unfold Rdiv; ring. Qed.

Lemma diode_arg_diff (x y : R) :
  Cell.diode_arg V n Rs y - Cell.diode_arg V n Rs x
  = Rs / (n * Cell.Vt) * (y - x).
Proof.
  rewrite !diode_arg_eq; pose proof Vt_pos; field; split; lra.
Qed.

Lemma divisors_ok_params : Cell.divisors_ok n Rsh = true.
Proof. apply divisors_ok_real; split; lra. Qed.

(** ** The contract *)

Lemma df_ge_1 (J : R) : 1 <= df J.
Proof.
  rewrite df_eq; pose proof nVt_pos as Hc.
  pose proof (exp_pos (Cell.diode_arg V n Rs J)) as He.
  assert (0 <= J0 * Rs / (n * Cell.Vt)) as Ha
    by (apply Rmult_le_pos; [nra|left; apply Rinv_0_lt_compat, Hc]).
  assert (0 <= Rs / Rsh) as Hb
    by (apply Rmult_le_pos; [lra|left; apply Rinv_0_lt_compat, Rsh_pos]).
  nra.
Qed.

Lemma f_tangent_below (x y : R) : f x + df x * (y - x) <= f y.
Proof.
  rewrite !f_eq, df_eq.
  pose proof (exp_tangent (Cell.diode_arg V n Rs x) (Cell.diode_arg V n Rs y)) as Ht.
  rewrite diode_arg_diff in Ht.
  generalize dependent (exp (Cell.diode_arg V n Rs x)).
  generalize dependent (exp (Cell.diode_arg V n Rs y)).
  intros Ey Ex Ht; unfold Rdiv in *.
  generalize dependent (/ (n * Cell.Vt)); generalize dependent (/ Rsh).
  intros ir ic Ht.
  assert (0 <= J0 * (Ey - Ex * (1 + Rs * ic * (y - x)))) by nra.
  nra.
Qed.

#[export] Instance diode_convex : ConvexIncreasing f df.
Proof.
  split; [intros x; pose proof (df_ge_1 x); lra|exact f_tangent_below].
Qed.

(** The slope is at least one, so a current is no farther from the
    operating point than its residual is from zero. *)
Lemma root_within_residual (r J : R) :
  f r = 0 -> Rabs (J - r) <= Rabs (f J).
Proof.
  intros Hr; pose proof (df_ge_1 r); pose proof (df_ge_1 J).
  pose proof (f_tangent_below r J); pose proof (f_tangent_below J r).
  pose proof (Rle_abs (f J)); pose proof (Rle_abs (- f J)) as Hn.
  rewrite Rabs_Ropp in Hn.
  apply Rabs_le; destruct (Rle_or_lt r J); split; nra.
Qed.

(** ** The loop of [Newton.v] is Newton's iteration on ([f], [df]) *)

Lemma newton_step_real (J : R) :
  Solver.newton_step V Jsc J0 n Rs Rsh J = newton f df J.
Proof. reflexivity. Qed.

Lemma iterate_real (k : nat) (J : R) :
  Solver.iterate V Jsc J0 n Rs Rsh k J = newton_iter f df k J.
Proof. revert J; induction k as [|k IH]; intros J; [reflexivity|apply IH]. Qed.

Lemma tol_real : Solver.tol = / 10 ^ 10.
Proof. unfold Solver.tol; rewrite dec_real; lra. Qed.

Lemma tol_pos : 0 < Solver.tol (F := R).
Proof. rewrite tol_real; apply Rinv_0_lt_compat, pow_lt; lra. Qed.

Lemma converged_real (J : R) :
  Solver.converged V Jsc J0 n Rs Rsh J = true <->
  Rabs (newton f df J - J) < Solver.tol.
Proof. unfold Solver.converged; num_real; apply Rltb_true_iff. Qed.

(** What the call returns, in terms of Newton iterates. *)
Lemma solar_cell_current_real :
  exists j, Solver.stops_at V Jsc J0 n Rs Rsh 100 j Jsc /\
            Solver.solar_cell_current V Jsc J0 n Rs Rsh
            = Ok (newton_iter f df (S j) Jsc).
Proof.
  destruct (Solver.solar_cell_current_Ok V Jsc J0 n Rs Rsh divisors_ok_params)
    as (j & Hs & Hr).
  exists j; split; [exact Hs|rewrite Hr, iterate_real; reflexivity].
Qed.

(** ** Signs of the residual at the initial guess *)

Lemma f_at_Jsc :
  f Jsc = J0 * (exp (Cell.diode_arg V n Rs Jsc) - 1) + (V + Jsc * Rs) / Rsh.
Proof. rewrite f_eq; lra. Qed.

Lemma diode_arg_sign (J : R) :
  (0 <= V + J * Rs -> 0 <= Cell.diode_arg V n Rs J) /\
  (V + J * Rs < 0 -> Cell.diode_arg V n Rs J < 0).
Proof.
  rewrite diode_arg_eq; pose proof (Rinv_0_lt_compat _ nVt_pos) as Hi.
  unfold Rdiv; split; intros Hv; nra.
Qed.

(** Forward of [V = -Jsc*Rs] the guess [Jsc] is at or above the root. *)
Lemma f_Jsc_nonneg : 0 <= V + Jsc * Rs -> 0 <= f Jsc.
Proof.
  intros Hv; rewrite f_at_Jsc.
  pose proof (exp_le 0 _ (proj1 (diode_arg_sign Jsc) Hv)) as He.
  rewrite exp_0 in He; pose proof (Rinv_0_lt_compat _ Rsh_pos).
  unfold Rdiv; nra.
Qed.

(** In reverse bias it is strictly below the root. *)
Lemma f_Jsc_neg : V + Jsc * Rs < 0 -> f Jsc < 0.
Proof.
  intros Hv; rewrite f_at_Jsc.
  pose proof (exp_increasing _ 0 (proj2 (diode_arg_sign Jsc) Hv)) as He.
  rewrite exp_0 in He; pose proof (Rinv_0_lt_compat _ Rsh_pos).
  unfold Rdiv; nra.
Qed.

(** ** Accuracy of one converged update *)

(** If the step from [Jg] is below the tolerance, the update is within
    [tol * df Jg] of the root, from above. *)
Lemma converged_step_accuracy (r Jg : R) :
  f r = 0 ->
  Solver.converged V Jsc J0 n Rs Rsh Jg = true ->
  0 <= newton f df Jg - r < Solver.tol * df Jg.
Proof.
  intros Hr Hc; apply converged_real in Hc.
  pose proof (newton_ge_root f df r Jg Hr) as Hge.
  pose proof (df_ge_1 Jg) as Hd; pose proof tol_pos as Ht.
  pose proof (newton_step_size f df Jg) as Hs.
  split; [lra|].
  destruct (Rle_or_lt r Jg) as [Hle|Hlt].
  - pose proof (error_le_residual f df r Jg df_ge_1 Hr Hle) as He.
    pose proof (f_increasing f df r Jg Hle) as Hf; rewrite Hr in Hf.
    pose proof (newton_le f df Jg Hf) as Hn.
    rewrite Rabs_left1 in Hc by lra; nra.
  - apply Rabs_def2 in Hc; nra.
Qed.

(** ** Existence of the operating point *)

Lemma f_continuous : continuity f.
Proof. unfold Cell.f, Cell.diode_arg; num_real; reg. Qed.

Lemma f_below (a : R) :
  a <= 0 ->
  f a <= a + (J0 * exp (Cell.diode_arg V n Rs 0) + V / Rsh - Jsc).
Proof.
  intros Ha; rewrite f_eq.
  assert (Cell.diode_arg V n Rs a <= Cell.diode_arg V n Rs 0) as Hu.
  { pose proof (diode_arg_diff a 0) as Hd.
    pose proof (Rinv_0_lt_compat _ nVt_pos) as Hi; unfold Rdiv in Hd.
    assert (0 <= Rs * / (n * Cell.Vt)) by nra; nra. }
  apply exp_le in Hu; pose proof (Rinv_0_lt_compat _ Rsh_pos) as Hi.
  assert (a * Rs * / Rsh <= 0) by (assert (a * Rs <= 0) by nra; nra).
  unfold Rdiv; nra.
Qed.

Lemma f_above (b : R) : 0 <= b -> b - (Jsc + J0 - V / Rsh) <= f b.
Proof.
  intros Hb; rewrite f_eq.
  pose proof (exp_pos (Cell.diode_arg V n Rs b)).
  pose proof (Rinv_0_lt_compat _ Rsh_pos) as Hi.
  assert (0 <= b * Rs * / Rsh) by (assert (0 <= b * Rs) by nra; nra).
  unfold Rdiv; nra.
Qed.

Lemma diode_root_exists : exists r, f r = 0.
Proof.
  set (C := J0 * exp (Cell.diode_arg V n Rs 0) + V / Rsh - Jsc).
  set (D := Jsc + J0 - V / Rsh).
  pose proof (Rabs_pos C) as HC; pose proof (Rabs_pos D) as HD.
  pose proof (Rle_abs C) as HC'; pose proof (Rle_abs D) as HD'.
  destruct (IVT f (- (Rabs C + 1)) (Rabs D + 1) f_continuous) as (r & _ & Hr).
  - lra.
  - pose proof (f_below (- (Rabs C + 1)) ltac:(lra)); fold C in H; lra.
  - pose proof (f_above (Rabs D + 1) ltac:(lra)); fold D in H; lra.
  - exists r; exact Hr.
Qed.

(** ** Properties of the returned value *)

(** C20. The implicit equation defines the current: for every voltage the
    residual has exactly one root, the operating point of the cell. *)
Theorem operating_point_exists_unique : exists! r, f r = 0.
Proof.
  destruct diode_root_exists as (r & Hr); exists r; split; [exact Hr|].
  intros r' Hr'; exact (root_unique f df r r' Hr Hr').
Qed.

(** C2. Over the reals, whatever the voltage, the value the solver returns
    is never below the operating point: it lies at or above every root of
    the residual, and its own residual is non-negative. *)
Theorem real_result_not_below_root (r J : R) :
  f r = 0 ->
  Solver.solar_cell_current V Jsc J0 n Rs Rsh = Ok J ->
  r <= J /\ 0 <= f J.
Proof.
  intros Hr HJ; destruct solar_cell_current_real as (j & _ & Hj).
  rewrite Hj in HJ; injection HJ as <-; split.
  - apply newton_iter_ge_root; [exact diode_convex|exact Hr].
  - apply newton_iter_residual_nonneg, diode_convex.
Qed.

(** C29. From [V >= -Jsc*Rs] on (the whole forward range), the returned
    value is at most the initial guess [Jsc]: the iteration descends from
    the short-circuit current towards the root. *)
Theorem real_result_at_most_Jsc (J : R) :
  0 <= V + Jsc * Rs ->
  Solver.solar_cell_current V Jsc J0 n Rs Rsh = Ok J ->
  J <= Jsc.
Proof.
  intros Hv HJ; destruct solar_cell_current_real as (j & _ & Hj).
  rewrite Hj in HJ; injection HJ as <-.
  destruct diode_root_exists as (r & Hr).
  apply (newton_iter_from_above f df r (S j) Jsc Hr (f_Jsc_nonneg Hv)).
Qed.

(** C30. In reverse bias ([V + Jsc*Rs < 0], which holds at the first sample
    [V = -0.1] of the sweep) the returned current density exceeds [Jsc]. *)
Theorem real_reverse_bias_exceeds_Jsc (J : R) :
  V + Jsc * Rs < 0 ->
  Solver.solar_cell_current V Jsc J0 n Rs Rsh = Ok J ->
  Jsc < J.
Proof.
  intros Hv HJ; destruct solar_cell_current_real as (j & _ & Hj).
  rewrite Hj in HJ; injection HJ as <-.
  pose proof (newton_iter_residual_nonneg f df j Jsc) as Hres.
  pose proof (f_Jsc_neg Hv) as Hneg.
  destruct (Rle_or_lt (newton_iter f df (S j) Jsc) Jsc) as [Hle|Hlt]; [|exact Hlt].
  pose proof (f_increasing f df _ _ Hle); lra.
Qed.

(** The call returns the update of the iterate the loop stops at. *)
Lemma solar_cell_current_at (j : nat) :
  Solver.stops_at V Jsc J0 n Rs Rsh 100 j Jsc ->
  Solver.solar_cell_current V Jsc J0 n Rs Rsh
  = Ok (newton f df (newton_iter f df j Jsc)).
Proof.
  intros Hs; destruct solar_cell_current_real as (j' & Hs' & Hj).
  rewrite (Solver.stops_at_unique _ _ _ _ _ _ _ _ _ _ Hs' Hs) in Hj.
  rewrite Hj, newton_iter_S_r; reflexivity.
Qed.

(** C4. Accuracy on [break]: if the loop leaves through the step test at
    iteration [j], the returned value is within [tol * df J_guess] of the
    root, from above, where [J_guess] is the guess of that iteration. The
    step test bounds the error only through the slope [df]. *)
Theorem real_break_accuracy (r : R) (j : nat) :
  f r = 0 ->
  Solver.stops_at V Jsc J0 n Rs Rsh 100 j Jsc ->
  Solver.converged V Jsc J0 n Rs Rsh (newton_iter f df j Jsc) = true ->
  exists J, Solver.solar_cell_current V Jsc J0 n Rs Rsh = Ok J /\
            0 <= J - r < Solver.tol * df (newton_iter f df j Jsc).
Proof.
  intros Hr Hs Hc; eexists; split; [exact (solar_cell_current_at j Hs)|].
  apply converged_step_accuracy; assumption.
Qed.

End Params.

(** ** Closed form at short circuit without series resistance

    With [V = 0] and [Rs = 0] the initial guess is the root: the residual
    vanishes at [Jsc], the first update does not move and the loop leaves at
    once. *)
Section ShortCircuit.
Variables Jsc J0 n Rsh : R.
Hypothesis J0_nonneg : 0 <= J0.
Hypothesis n_pos : 0 < n.
Hypothesis Rsh_pos : 0 < Rsh.

Lemma short_circuit_root : Cell.f 0 Jsc J0 n 0 Rsh Jsc = 0.
Proof.
  rewrite f_eq, diode_arg_eq.
  replace ((0 + Jsc * 0) / (n * Cell.Vt)) with 0 by (unfold Rdiv; ring).
  rewrite exp_0; unfold Rdiv; ring.
Qed.

Lemma short_circuit_converged :
  Solver.converged 0 Jsc J0 n 0 Rsh Jsc = true.
Proof.
  pose proof (diode_convex 0 Jsc J0 n 0 Rsh J0_nonneg (Rle_refl 0) n_pos Rsh_pos).
  apply converged_real.
  rewrite (proj2 (newton_fixed_iff _ _ Jsc) short_circuit_root).
  rewrite Rminus_diag, Rabs_R0; apply tol_pos.
Qed.

Lemma short_circuit_stops :
  Solver.stops_at 0 Jsc J0 n 0 Rsh 100 0 Jsc.
Proof. apply Solver.stops_at_0; left; exact short_circuit_converged. Qed.

End ShortCircuit.

(** ** The operating point as a function of the voltage *)

Section TwoVoltages.
Variables V1 V2 Jsc J0 n Rs Rsh : R.
Hypothesis J0_nonneg : 0 <= J0.
Hypothesis Rs_nonneg : 0 <= Rs.
Hypothesis n_pos : 0 < n.
Hypothesis Rsh_pos : 0 < Rsh.

(** At a given current the residual grows with the voltage. *)
Lemma f_increasing_in_V (J : R) :
  V1 <= V2 -> Cell.f V1 Jsc J0 n Rs Rsh J <= Cell.f V2 Jsc J0 n Rs Rsh J.
Proof.
  intros HV; rewrite !f_eq, !diode_arg_eq.
  pose proof (Rinv_0_lt_compat _ (nVt_pos n n_pos)) as Hic.
  pose proof (Rinv_0_lt_compat _ Rsh_pos) as Hir.
  assert (exp ((V1 + J * Rs) / (n * Cell.Vt))
          <= exp ((V2 + J * Rs) / (n * Cell.Vt))) as He
    by (apply exp_le; unfold Rdiv; nra).
  unfold Rdiv in *; nra.
Qed.

(** C21. Monotonicity of the characteristic: the operating point does not
    increase with the applied voltage. *)
Theorem operating_point_antitone (r1 r2 : R) :
  V1 <= V2 ->
  Cell.f V1 Jsc J0 n Rs Rsh r1 = 0 -> Cell.f V2 Jsc J0 n Rs Rsh r2 = 0 ->
  r2 <= r1.
Proof.
  intros HV H1 H2.
  pose proof (diode_convex V2 Jsc J0 n Rs Rsh J0_nonneg Rs_nonneg n_pos Rsh_pos).
  apply (f_le_inv (Cell.f V2 Jsc J0 n Rs Rsh) (Cell.df_val V2 J0 n Rs Rsh)).
  rewrite H2, <- H1; apply f_increasing_in_V, HV.
Qed.

End TwoVoltages.

(** ** Without series resistance

    With [Rs = 0] the equation is explicit, the residual is affine in the
    current with slope one, and a single update lands on the root from
    anywhere. *)
Lemma explicit_root_without_Rs (V Jsc J0 n Rsh : R) :
  Cell.f V Jsc J0 n 0 Rsh
    (Jsc - J0 * (exp (V / (n * Cell.Vt)) - 1) - V / Rsh) = 0.
Proof.
  rewrite f_eq, diode_arg_eq.
  replace (V + (Jsc - J0 * (exp (V / (n * Cell.Vt)) - 1) - V / Rsh) * 0)
    with V by ring.
  ring.
Qed.

Section NoSeriesResistance.
Variables V Jsc J0 n Rsh : R.
Hypothesis n_pos : 0 < n.
Hypothesis Rsh_pos : 0 < Rsh.

Local Abbreviation f := (Cell.f V Jsc J0 n 0 Rsh).
Local Abbreviation df := (Cell.df_val V J0 n 0 Rsh).
Local Abbreviation root :=
  (Jsc - J0 * (exp (V / (n * Cell.Vt)) - 1) - V / Rsh).

Lemma newton_without_Rs (x : R) : newton f df x = root.
Proof.
  unfold newton; rewrite f_eq, df_eq, diode_arg_eq.
  replace (V + x * 0) with V by ring; unfold Rdiv.
  rewrite !Rmult_0_r, !Rmult_0_l, Rplus_0_r, Rplus_0_r, Rinv_1; ring.
Qed.

Lemma converged_without_Rs (k : nat) :
  Solver.converged V Jsc J0 n 0 Rsh (newton_iter f df (S k) Jsc) = true.
Proof.
  apply converged_real; rewrite newton_iter_S_r, !newton_without_Rs.
  rewrite Rminus_diag, Rabs_R0; apply tol_pos.
Qed.

(** C32. Without series resistance the call is exact: for [Rs = 0], any
    voltage and any [n > 0], [Rsh > 0], the loop is left through [break]
    in its first or second iteration and the call returns the operating
    point in closed form, [Jsc - J0*(exp(V/(n*Vt)) - 1) - V/Rsh], which at
    [V = 0] is [Jsc] ([closed_form_at_short_circuit]). *)
Theorem without_series_resistance_exact :
  exists j, (j <= 1)%nat /\
    Solver.stops_at V Jsc J0 n 0 Rsh 100 j Jsc /\
    Solver.converged V Jsc J0 n 0 Rsh (newton_iter f df j Jsc) = true /\
    Solver.solar_cell_current V Jsc J0 n 0 Rsh = Ok root.
Proof.
  destruct (Solver.solar_cell_current_break V Jsc J0 n 0 Rsh 2 1
              (divisors_ok_params n Rsh n_pos Rsh_pos) ltac:(lia) ltac:(lia))
    as (j & Hj & Hs & Hc & Hr).
  - rewrite iterate_real; apply converged_without_Rs.
  - exists j; rewrite iterate_real in Hc.
    rewrite Hr, iterate_real, newton_iter_S_r, newton_without_Rs.
    repeat split; solve [lia|apply Hs|exact Hc].
Qed.

End NoSeriesResistance.

Lemma closed_form_at_short_circuit (Jsc J0 n Rsh : R) :
  Jsc - J0 * (exp (0 / (n * Cell.Vt)) - 1) - 0 / Rsh = Jsc.
Proof. unfold Rdiv; rewrite !Rmult_0_l, exp_0; ring. Qed.

(** ** The reference parameters satisfy the section hypotheses *)

Lemma ref_J0_nonneg : 0 <= Cell.J0 (F := R).
Proof. cell_consts; lra. Qed.

Lemma ref_Rs_nonneg : 0 <= Cell.Rs (F := R).
Proof. cell_consts; lra. Qed.

Lemma ref_n_pos : 0 < Cell.n (F := R).
Proof. cell_consts; lra. Qed.

Lemma ref_Rsh_pos : 0 < Cell.Rsh (F := R).
Proof. cell_consts; lra. Qed.

Lemma ref_forward_bias : 0 <= 1 / 2 + Cell.Jsc * Cell.Rs.
Proof. cell_consts; lra. Qed.

Lemma ref_reverse_bias : - (1 / 10) + Cell.Jsc * Cell.Rs < 0.
Proof. cell_consts; lra. Qed.

(** ** Witnesses *)

Lemma real_result_not_below_root_witness :
  exists J : R,
    Solver.solar_cell_current 0 Cell.Jsc Cell.J0 Cell.n 0 Cell.Rsh = Ok J /\
    Cell.Jsc <= J /\ 0 <= Cell.f 0 Cell.Jsc Cell.J0 Cell.n 0 Cell.Rsh J.
Proof.
  destruct (solar_cell_current_real 0 Cell.Jsc Cell.J0 Cell.n 0 Cell.Rsh
              ref_n_pos ref_Rsh_pos) as (j & _ & Hj).
  eexists; split; [exact Hj|].
  exact (real_result_not_below_root 0 Cell.Jsc Cell.J0 Cell.n 0 Cell.Rsh
           ref_J0_nonneg (Rle_refl 0) ref_n_pos ref_Rsh_pos Cell.Jsc _
           (short_circuit_root Cell.Jsc Cell.J0 Cell.n Cell.Rsh) Hj).
Defined.

Lemma real_result_at_most_Jsc_witness :
  exists J : R,
    Solver.solar_cell_current (1 / 2) Cell.Jsc Cell.J0 Cell.n Cell.Rs Cell.Rsh
    = Ok J /\ J <= Cell.Jsc.
Proof.
  destruct (solar_cell_current_real (1 / 2) Cell.Jsc Cell.J0 Cell.n Cell.Rs
              Cell.Rsh ref_n_pos ref_Rsh_pos) as (j & _ & Hj).
  eexists; split; [exact Hj|].
  exact (real_result_at_most_Jsc (1 / 2) Cell.Jsc Cell.J0 Cell.n Cell.Rs
           Cell.Rsh ref_J0_nonneg ref_Rs_nonneg ref_n_pos ref_Rsh_pos _
           ref_forward_bias Hj).
Defined.

Lemma real_reverse_bias_exceeds_Jsc_witness :
  exists J : R,
    Solver.solar_cell_current (- (1 / 10)) Cell.Jsc Cell.J0 Cell.n Cell.Rs
      Cell.Rsh = Ok J /\ Cell.Jsc < J.
Proof.
  destruct (solar_cell_current_real (- (1 / 10)) Cell.Jsc Cell.J0 Cell.n
              Cell.Rs Cell.Rsh ref_n_pos ref_Rsh_pos) as (j & _ & Hj).
  eexists; split; [exact Hj|].
  exact (real_reverse_bias_exceeds_Jsc (- (1 / 10)) Cell.Jsc Cell.J0 Cell.n
           Cell.Rs Cell.Rsh ref_J0_nonneg ref_Rs_nonneg ref_n_pos ref_Rsh_pos
           _ ref_reverse_bias Hj).
Defined.

Lemma real_break_accuracy_witness :
  exists J : R,
    Solver.solar_cell_current 0 Cell.Jsc Cell.J0 Cell.n 0 Cell.Rsh = Ok J /\
    0 <= J - Cell.Jsc
      < Solver.tol * Cell.df_val 0 Cell.J0 Cell.n 0 Cell.Rsh Cell.Jsc.
Proof.
  exact (real_break_accuracy 0 Cell.Jsc Cell.J0 Cell.n 0 Cell.Rsh
           ref_J0_nonneg (Rle_refl 0) ref_n_pos ref_Rsh_pos Cell.Jsc 0
           (short_circuit_root Cell.Jsc Cell.J0 Cell.n Cell.Rsh)
           (short_circuit_stops Cell.Jsc Cell.J0 Cell.n Cell.Rsh
              ref_J0_nonneg ref_n_pos ref_Rsh_pos)
           (short_circuit_converged Cell.Jsc Cell.J0 Cell.n Cell.Rsh
              ref_J0_nonneg ref_n_pos ref_Rsh_pos)).
Defined.

Lemma operating_point_exists_unique_witness :
  exists! r : R, Cell.f (1 / 2) Cell.Jsc Cell.J0 Cell.n Cell.Rs Cell.Rsh r = 0.
Proof.
  exact (operating_point_exists_unique (1 / 2) Cell.Jsc Cell.J0 Cell.n Cell.Rs
           Cell.Rsh ref_J0_nonneg ref_Rs_nonneg ref_n_pos ref_Rsh_pos).
Defined.

Lemma without_series_resistance_exact_witness :
  exists j, (j <= 1)%nat /\
    Solver.stops_at 0.5 Cell.Jsc Cell.J0 Cell.n 0 Cell.Rsh 100 j Cell.Jsc /\
    Solver.converged 0.5 Cell.Jsc Cell.J0 Cell.n 0 Cell.Rsh
      (newton_iter (Cell.f 0.5 Cell.Jsc Cell.J0 Cell.n 0 Cell.Rsh)
         (Cell.df_val 0.5 Cell.J0 Cell.n 0 Cell.Rsh) j Cell.Jsc) = true /\
    Solver.solar_cell_current 0.5 Cell.Jsc Cell.J0 Cell.n 0 Cell.Rsh
    = Ok (Cell.Jsc - Cell.J0 * (exp (0.5 / (Cell.n * Cell.Vt)) - 1)
          - 0.5 / Cell.Rsh).
Proof.
  exact (without_series_resistance_exact 0.5 Cell.Jsc Cell.J0 Cell.n Cell.Rsh
           ref_n_pos ref_Rsh_pos).
Defined.

Lemma operating_point_antitone_witness :
  Cell.Jsc - Cell.J0 * (exp (1 / (Cell.n * Cell.Vt)) - 1) - 1 / Cell.Rsh
  <= Cell.Jsc.
Proof.
  apply (operating_point_antitone 0 1 Cell.Jsc Cell.J0 Cell.n 0 Cell.Rsh
           ref_J0_nonneg (Rle_refl 0) ref_n_pos ref_Rsh_pos);
    [lra|apply short_circuit_root|apply explicit_root_without_Rs].
Defined.

End DiodeR.
