(* ===== verification/DiodeRate.v ===== *)
(** * DiodeRate: how fast the loop converges over the reals

    [DiodeReal.v] shows on which side of the operating point the loop of
    [solar_cell_current] moves; this file shows how fast.  For the diode
    residual the error after a Newton update from above the root is the gap
    between the exponential and its tangent, so the error [e], scaled by
    [a = Rs/(n*Vt)], obeys [d' <= d*d/(1+d)] ([newton_shrinks]).  Three
    results follow:

    - liveness, for all admissible parameters: some iteration meets the
      step test ([real_loop_eventually_breaks]);
    - for the reference parameters and every voltage of the range of the
      sweep, the test is met within 13 iterations, so the cap of 100 is
      never reached ([reference_sweep_breaks_within_13]);
    - there the returned current is within [2e-20] of the operating point
      and its residual is below [1e-18]: the update that follows a step
      below the tolerance has an error of the order of the square of the
      tolerance ([newton_quadratic], [reference_sweep_accuracy]).

    The numeric side conditions are a rational upper bound on the
    exponential ([exp_upper], evaluated on integers) and a chain of eleven
    explicit bounds ([ref_chain]) that majorises the recurrence. *)

From Stdlib Require Import ZArith Reals Lra Lia List.
From S2P Require Import Prelude Num Diode Newton RealNum ConvexNewton DiodeReal.
Import ListNotations.
Local Open Scope R_scope.

(** ** Real-number lemmas

    [shrink d] is what one update leaves of a scaled error [d]. *)
Definition shrink (d : R) : R := d * d / (1 + d).

Lemma shrink_le (d D D' : R) :
  0 <= d <= D -> D * D <= D' * (1 + D) -> shrink d <= D'.
Proof.
  intros [Hd HD] HD'; unfold shrink.
  apply Rle_trans with (D * D / (1 + D)).
  - apply Rmult_le_reg_r with ((1 + d) * (1 + D)); [nra|].
    replace (d * d / (1 + d) * ((1 + d) * (1 + D))) with (d * d * (1 + D))
      by (field; lra).
    replace (D * D / (1 + D) * ((1 + d) * (1 + D))) with (D * D * (1 + d))
      by (field; lra).
    assert (0 <= d * D * (D - d)) by (apply Rmult_le_pos; nra).
    nra.
  - apply Rmult_le_reg_r with (1 + D); [lra|].
    replace (D * D / (1 + D) * (1 + D)) with (D * D) by (field; lra).
    exact HD'.
Qed.

(** [t/(1+t)] is increasing on the non-negative reals and below 1. *)
Lemma ratio_mono (s t : R) : 0 <= s <= t -> s / (1 + s) <= t / (1 + t).
Proof.
  intros [Hs Ht].
  replace (s / (1 + s)) with (1 - / (1 + s)) by (field; lra).
  replace (t / (1 + t)) with (1 - / (1 + t)) by (field; lra).
  assert (/ (1 + t) <= / (1 + s)) by (apply Rinv_le_contravar; lra); lra.
Qed.

Lemma ratio_bounds (t : R) : 0 <= t -> 0 <= t / (1 + t) < 1.
Proof.
  intros Ht; assert (0 < / (1 + t)) as Hi by (apply Rinv_0_lt_compat; lra).
  replace (t / (1 + t)) with (1 - / (1 + t)) at 2 by (field; lra).
  split; [apply Rmult_le_pos; lra|lra].
Qed.

(** A point further left has a smaller scaled error. *)
Lemma scaled_error_le (s x y r D : R) :
  0 <= s -> x <= y -> s * (y - r) <= D -> s * (x - r) <= D.
Proof.
  intros Hs Hxy HD; apply Rle_trans with (s * (y - r)); [|exact HD].
  apply Rmult_le_compat_l; lra.
Qed.

Lemma shrink_nonneg (d : R) : 0 <= d -> 0 <= shrink d.
Proof.
  intros Hd; unfold shrink, Rdiv.
  apply Rmult_le_pos; [nra|left; apply Rinv_0_lt_compat; lra].
Qed.

Lemma shrink_le_self (d : R) : 0 <= d -> shrink d <= d.
Proof. intros Hd; apply (shrink_le d d d); [lra|nra]. Qed.

(** [exp (-d)] is at most [1/(1+d)], so the gap between the exponential and
    its tangent, [d - 1 + exp (-d)], is at most [d - 1 + 1/(1+d)]. *)
Lemma exp_gap (d : R) : 0 <= d -> 0 <= d - 1 + exp (- d) <= shrink d.
Proof.
  intros Hd; split.
  - pose proof (exp_ineq1_le (- d)); lra.
  - pose proof (exp_ineq1_le d) as He; rewrite exp_Ropp.
    assert (/ exp d <= / (1 + d)) as Hi by (apply Rinv_le_contravar; lra).
    unfold shrink; replace (d * d / (1 + d)) with (d - 1 + / (1 + d))
      by (field; lra).
    lra.
Qed.

(** The same gap on the other side: [exp t - 1 - t <= 2*t*t] up to
    [t = 1/2]. *)
Lemma exp_gap_left (t : R) : 0 <= t <= 1 / 2 -> exp t - 1 - t <= 2 * (t * t).
Proof.
  intros [H0 H1]; pose proof (exp_ineq1_le (- t)) as He; rewrite exp_Ropp in He.
  pose proof (exp_pos t) as Hp.
  assert (exp t <= / (1 - t)) as Hi
    by (rewrite <- (Rinv_inv (exp t)); apply Rinv_le_contravar; lra).
  assert (/ (1 - t) <= 1 + t + 2 * (t * t)); [|lra].
  apply Rmult_le_reg_r with (1 - t); [lra|rewrite Rinv_l by lra; nra].
Qed.

Lemma exp_pow (x : R) (k : nat) : exp (INR k * x) = exp x ^ k.
Proof.
  induction k as [|k IH]; [rewrite Rmult_0_l; apply exp_0|].
  rewrite S_INR, Rmult_plus_distr_r, Rmult_1_l, exp_plus, IH; simpl; ring.
Qed.

(** A rational upper bound: [exp (k/N) <= (N/(N-1))^k]. *)
Lemma exp_upper (N : R) (k : nat) (x : R) :
  1 < N -> x <= INR k / N -> exp x <= (N / (N - 1)) ^ k.
Proof.
  intros HN Hx; apply Rle_trans with (exp (INR k * / N)); [apply exp_le, Hx|].
  rewrite exp_pow; apply pow_incr; split; [left; apply exp_pos|].
  pose proof (exp_ineq1_le (- / N)) as He; rewrite exp_Ropp in He.
  pose proof (exp_pos (/ N)) as Hp.
  assert (0 < / N) as HiN by (apply Rinv_0_lt_compat; lra).
  assert (/ N < 1) as HiN1 by (rewrite <- Rinv_1; apply Rinv_lt_contravar; lra).
  replace (N / (N - 1)) with (/ (1 + - / N)) by (field; lra).
  rewrite <- (Rinv_inv (exp (/ N))).
  apply Rinv_le_contravar; [lra|exact He].
Qed.
Lemma pow_ratio_le (p q c : Z) (k : nat) :
  (0 < q)%Z -> (p ^ Z.of_nat k <= c * q ^ Z.of_nat k)%Z ->
  (IZR p / IZR q) ^ k <= IZR c.
Proof.
  intros Hq Hle; apply IZR_le in Hle; apply IZR_lt in Hq.
  rewrite mult_IZR, <- !pow_IZR in Hle.
  assert (0 < IZR q ^ k) as Hqk by (apply pow_lt, Hq).
  unfold Rdiv; rewrite Rpow_mult_distr, pow_inv.
  apply Rmult_le_reg_r with (IZR q ^ k); [exact Hqk|].
  rewrite Rmult_assoc, Rinv_l by lra; lra.
Qed.

Module DiodeRate.

Section Params.
Variables V Jsc J0 n Rs Rsh : R.
Hypothesis J0_nonneg : 0 <= J0.
Hypothesis Rs_nonneg : 0 <= Rs.
Hypothesis n_pos : 0 < n.
Hypothesis Rsh_pos : 0 < Rsh.

Local Abbreviation f := (Cell.f V Jsc J0 n Rs Rsh).
Local Abbreviation df := (Cell.df_val V J0 n Rs Rsh).
Local Abbreviation arg := (Cell.diode_arg V n Rs).
Local Abbreviation N := (newton f df).
Local Abbreviation a := (Rs / (n * Cell.Vt)).

Let convex : ConvexIncreasing f df :=
  DiodeR.diode_convex V Jsc J0 n Rs Rsh J0_nonneg Rs_nonneg n_pos Rsh_pos.
#[local] Existing Instance convex.

Lemma a_nonneg : 0 <= a.
Proof.
  pose proof (Rinv_0_lt_compat _ (DiodeR.nVt_pos n n_pos)); unfold Rdiv; nra.
Qed.

(** ** The error after one update

    The distance of the update to the root is the gap between the
    exponential and its tangent, scaled. *)
Lemma newton_error (r x : R) :
  f r = 0 ->
  df x * (N x - r) = J0 * exp (arg x) * (a * (x - r) - 1 + exp (- (a * (x - r)))).
Proof.
  intros Hr; pose proof (newton_step_size f df x) as Hs.
  assert (exp (arg r) = exp (arg x) * exp (- (a * (x - r)))) as He.
  { rewrite <- exp_plus; f_equal.
    pose proof (DiodeR.diode_arg_diff V n Rs n_pos x r); lra. }
  rewrite DiodeR.f_eq, He in Hr; rewrite DiodeR.f_eq in Hs.
  rewrite DiodeR.df_eq in Hs |- *.
  clear He; set (E := exp (arg x)) in *; set (G := exp (- (a * (x - r)))) in *.
  clearbody E G; unfold Cell.diode_arg in *; num_real; unfold Rdiv in *.
  set (ic := / (n * Cell.Vt)) in *; set (iR := / Rsh) in *; clearbody ic iR.
  nra.
Qed.

(** The exponential part of the slope. *)
Lemma slope_ge (x : R) : J0 * exp (arg x) * a <= df x.
Proof.
  rewrite DiodeR.df_eq.
  assert (0 <= Rs / Rsh)
    by (apply Rmult_le_pos; [lra|left; apply Rinv_0_lt_compat, Rsh_pos]).
  unfold Rdiv in *; nra.
Qed.

(** From above the root, one update multiplies the error [e = x - r] by at
    most [a*e / (1 + a*e)]. *)
Lemma newton_contracts (r x : R) :
  f r = 0 -> r <= x ->
  N x - r <= (x - r) * (a * (x - r) / (1 + a * (x - r))).
Proof.
  intros Hr Hx; pose proof (newton_error r x Hr) as He.
  pose proof a_nonneg as Ha.
  assert (0 <= a * (x - r)) as Hd by (apply Rmult_le_pos; lra).
  pose proof (exp_gap _ Hd) as [_ Hg]; unfold shrink in Hg.
  set (d := a * (x - r)) in *.
  set (T := (x - r) * (d / (1 + d))).
  assert (0 <= T) as HT.
  { apply Rmult_le_pos; [lra|].
    apply Rmult_le_pos; [lra|left; apply Rinv_0_lt_compat; lra]. }
  assert (d * d / (1 + d) = a * T) as HdT by (unfold T, d, Rdiv; ring).
  pose proof (exp_pos (arg x)) as HE.
  assert (0 <= J0 * exp (arg x)) as HJE by nra.
  pose proof (slope_ge x) as Hdf.
  pose proof (DiodeR.df_ge_1 V J0 n Rs Rsh J0_nonneg Rs_nonneg n_pos Rsh_pos x) as Hd1.
  apply Rmult_le_reg_l with (df x); [lra|].
  rewrite He; rewrite HdT in Hg.
  apply Rle_trans with (J0 * exp (arg x) * (a * T)); [nra|].
  replace (J0 * exp (arg x) * (a * T)) with (J0 * exp (arg x) * a * T) by ring.
  nra.
Qed.

(** The same in the scaled error [d = a*(x - r)]: [d] becomes at most
    [d*d/(1+d)]. *)
Lemma newton_shrinks (r x : R) :
  f r = 0 -> r <= x -> a * (N x - r) <= shrink (a * (x - r)).
Proof.
  intros Hr Hx; pose proof (newton_contracts r x Hr Hx) as Hc.
  pose proof a_nonneg as Ha.
  assert (0 <= a * (x - r)) as Hd by (apply Rmult_le_pos; lra).
  unfold shrink.
  replace (a * (x - r) * (a * (x - r)) / (1 + a * (x - r)))
    with (a * ((x - r) * (a * (x - r) / (1 + a * (x - r)))))
    by (unfold Rdiv; ring).
  apply Rmult_le_compat_l; assumption.
Qed.


(** ** The sequence of iterates *)

(** From a point with a non-negative residual the step is at most the
    distance to the root. *)
Lemma step_le_error (r x : R) :
  f r = 0 -> 0 <= f x -> Rabs (N x - x) <= x - r.
Proof.
  intros Hr Hx; pose proof (newton_le f df x Hx).
  pose proof (newton_ge_root f df r x Hr).
  rewrite Rabs_left1; lra.
Qed.

Lemma converged_of_error (r x : R) :
  f r = 0 -> 0 <= f x -> x - r < Solver.tol ->
  Solver.converged V Jsc J0 n Rs Rsh x = true.
Proof.
  intros Hr Hx He; apply DiodeR.converged_real.
  pose proof (step_le_error r x Hr Hx); fold f df in *; lra.
Qed.

(** A chain of bounds [D, D1, D2, ...] in which each majorises the
    contraction of the one before. *)
Fixpoint chain_ok (D : R) (B : list R) : Prop :=
  match B with
  | [] => True
  | D' :: B' => D * D <= D' * (1 + D) /\ chain_ok D' B'
  end.

(** The last bound of the chain. *)
Fixpoint chain_end (D : R) (B : list R) : R :=
  match B with
  | [] => D
  | D' :: B' => chain_end D' B'
  end.

Lemma chain_bound (r : R) (B : list R) (D x : R) :
  chain_ok D B -> f r = 0 -> 0 <= f x -> a * (x - r) <= D ->
  a * (newton_iter f df (length B) x - r) <= chain_end D B.
Proof.
  intros HB Hr; revert D x HB.
  induction B as [|D' B IH]; intros D x HB Hx Hd; [exact Hd|].
  destruct HB as [HD HB]; cbn [length newton_iter].
  assert (r <= x) as Hrx by (apply (f_le_inv f df); lra).
  pose proof a_nonneg as Ha.
  assert (0 <= a * (x - r)) as H0 by (apply Rmult_le_pos; lra).
  cbn [chain_end].
  apply IH; [exact HB|apply newton_residual_nonneg; exact convex|].
  apply Rle_trans with (shrink (a * (x - r))); [apply newton_shrinks; assumption|].
  apply (shrink_le _ D); [split; assumption|exact HD].
Qed.

(** Without any bound on the parameters the error decays at least
    geometrically, with the ratio reached at the start. *)
Lemma geometric_decay (r x : R) (k : nat) :
  f r = 0 -> 0 <= f x ->
  newton_iter f df k x - r
  <= (a * (x - r) / (1 + a * (x - r))) ^ k * (x - r).
Proof.
  intros Hr Hx; pose proof a_nonneg as Ha.
  assert (r <= x) as Hrx by (apply (f_le_inv f df); lra).
  assert (0 <= a * (x - r)) as H0 by (apply Rmult_le_pos; lra).
  set (q := a * (x - r) / (1 + a * (x - r))).
  assert (0 <= q) as Hq by (apply ratio_bounds, H0).
  induction k as [|k IH]; [cbn; lra|].
  rewrite newton_iter_S_r.
  destruct (newton_iter_from_above f df r k x Hr Hx) as [Hlo Hhi].
  set (y := newton_iter f df k x) in *.
  pose proof (newton_contracts r y Hr Hlo) as Hc.
  assert (a * (y - r) / (1 + a * (y - r)) <= q) as Hm.
  { assert (0 <= a * (y - r)) by (apply Rmult_le_pos; lra).
    assert (a * (y - r) <= a * (x - r)) by (apply Rmult_le_compat_l; lra).
    apply ratio_mono; lra. }
  assert (0 <= q ^ k) by (apply pow_le, Hq).
  cbn [pow]; fold f df in *.
  apply Rle_trans with ((y - r) * q); [|nra].
  eapply Rle_trans; [exact Hc|apply Rmult_le_compat_l; [lra|exact Hm]].
Qed.


(** In the other direction: the scaled error decreases by little more than
    one in an update, the less so the larger the slope.  Far above the
    root the iteration walks in steps of [n*Vt/Rs]. *)
Lemma newton_error_lower (r x : R) :
  f r = 0 ->
  (df x - (1 + Rs / Rsh)) * (a * (x - r) - 1) <= df x * (a * (N x - r)).
Proof.
  intros Hr; pose proof (newton_error r x Hr) as He.
  pose proof (exp_pos (- (a * (x - r)))) as Hg.
  pose proof (exp_pos (arg x)) as HE; pose proof a_nonneg as Ha.
  replace (df x * (a * (N x - r))) with (a * (df x * (N x - r))) by ring.
  rewrite He, DiodeR.df_eq.
  replace (1 + J0 * Rs / (n * Cell.Vt) * exp (arg x) + Rs / Rsh
           - (1 + Rs / Rsh)) with (a * (J0 * exp (arg x)))
    by (unfold Rdiv; ring).
  rewrite Rmult_assoc; apply Rmult_le_compat_l; [exact Ha|].
  apply Rmult_le_compat_l; [nra|lra].
Qed.

(** The contraction without the quotient. *)
Lemma newton_contracts_mul (r x : R) :
  f r = 0 -> r <= x ->
  (N x - r) * (1 + a * (x - r)) <= (x - r) * (a * (x - r)).
Proof.
  intros Hr Hx; pose proof (newton_contracts r x Hr Hx) as Hc.
  pose proof a_nonneg as Ha.
  assert (0 <= a * (x - r)) as Hd by (apply Rmult_le_pos; lra).
  set (d := a * (x - r)) in *.
  apply Rmult_le_compat_r with (r := 1 + d) in Hc; [|lra].
  replace ((x - r) * (d / (1 + d)) * (1 + d)) with ((x - r) * d) in Hc
    by (field; lra).
  exact Hc.
Qed.

(** The error before an update from above the root is at most the step
    times one plus the scaled error. *)
Lemma error_before_le_step (r x : R) :
  f r = 0 -> r <= x -> x - r <= (1 + a * (x - r)) * (x - N x).
Proof.
  intros Hr Hx; pose proof (newton_contracts_mul r x Hr Hx); nra.
Qed.

(** Quadratic convergence: from either side, close enough to the root when
    from below, the error after an update is at most [2*a] times the square
    of the error before it. *)
Lemma newton_quadratic (r x : R) :
  f r = 0 -> a * (r - x) <= 1 / 2 ->
  0 <= N x - r <= 2 * a * ((x - r) * (x - r)).
Proof.
  intros Hr Hclose; pose proof a_nonneg as Ha.
  split; [pose proof (newton_ge_root f df r x Hr); lra|].
  destruct (Rle_or_lt r x) as [Hx|Hx].
  - pose proof (newton_contracts_mul r x Hr Hx) as Hc.
    pose proof (newton_ge_root f df r x Hr).
    assert (0 <= a * (x - r)) by (apply Rmult_le_pos; lra).
    assert (0 <= a * ((x - r) * (x - r))) by (apply Rmult_le_pos; nra); nra.
  - pose proof (newton_error r x Hr) as He; pose proof (slope_ge x) as Hs.
    pose proof (DiodeR.df_ge_1 V J0 n Rs Rsh J0_nonneg Rs_nonneg n_pos Rsh_pos x).
    assert (0 <= a * (r - x)) as Ht by (apply Rmult_le_pos; lra).
    pose proof (exp_gap_left (a * (r - x)) (conj Ht Hclose)) as Hg.
    replace (- (a * (x - r))) with (a * (r - x)) in He by ring.
    pose proof (exp_pos (arg x)) as HE.
    assert (0 <= J0 * exp (arg x)) as HJE by nra.
    apply Rmult_le_reg_l with (df x); [lra|rewrite He].
    apply Rle_trans with (J0 * exp (arg x) * (2 * (a * (r - x) * (a * (r - x))))).
    + apply Rmult_le_compat_l; [exact HJE|lra].
    + replace (J0 * exp (arg x) * (2 * (a * (r - x) * (a * (r - x)))))
        with (J0 * exp (arg x) * a * (2 * a * ((x - r) * (x - r)))) by ring.
      apply Rmult_le_compat_r; [|exact Hs].
      assert (0 <= a * ((x - r) * (x - r))) by (apply Rmult_le_pos; nra); lra.
Qed.

(** ** When the loop breaks *)

(** If the scaled error at a point [x] above the root is at most [D], and
    the chain from [D] ends below [a * tol], the iteration number
    [length B] from [x] meets the step test. *)
Lemma chain_converged (r : R) (B : list R) (D x : R) :
  chain_ok D B -> f r = 0 -> 0 <= f x -> a * (x - r) <= D ->
  chain_end D B < a * Solver.tol ->
  Solver.converged V Jsc J0 n Rs Rsh (newton_iter f df (length B) x) = true.
Proof.
  intros HB Hr Hx Hd Hend.
  pose proof (chain_bound r B D x HB Hr Hx Hd) as Hb.
  destruct (newton_iter_from_above f df r (length B) x Hr Hx) as [Hlo _].
  set (y := newton_iter f df (length B) x) in *.
  pose proof a_nonneg as Ha; pose proof DiodeR.tol_pos as Ht.
  apply (converged_of_error r); [exact Hr| |nra].
  apply Rle_trans with (f r); [lra|apply (f_increasing f df), Hlo].
Qed.

(** The first update lands at or above the root, within [-f x] of it when
    it started below. *)
Lemma first_update_error (r x : R) :
  f r = 0 -> f x <= 0 -> 0 <= N x - r <= - f x.
Proof.
  intros Hr Hx; pose proof (newton_ge_root f df r x Hr) as Hge.
  assert (x <= r) as Hxr by (apply (f_le_inv f df); lra).
  pose proof (newton_step_size f df x) as Hs.
  pose proof (DiodeR.df_ge_1 V J0 n Rs Rsh J0_nonneg Rs_nonneg n_pos Rsh_pos x).
  split; [lra|nra].
Qed.

(** When the step test is met, the guess is within [(1 + D) * tol] of the
    root, for [D] a bound on its scaled error. *)
Lemma error_at_break (r x D : R) :
  f r = 0 -> a * (x - r) <= D -> 0 <= D ->
  Solver.converged V Jsc J0 n Rs Rsh x = true ->
  Rabs (x - r) <= (1 + D) * Solver.tol.
Proof.
  intros Hr Hd HD Hc; apply DiodeR.converged_real in Hc; fold f df in Hc.
  pose proof (newton_ge_root f df r x Hr) as Hge.
  pose proof DiodeR.tol_pos as Ht; pose proof a_nonneg as Ha.
  apply Rabs_def2 in Hc; apply Rabs_le.
  destruct (Rle_or_lt r x) as [Hrx|Hxr]; [|split; nra].
  pose proof (error_before_le_step r x Hr Hrx) as He.
  assert (0 <= a * (x - r)) by (apply Rmult_le_pos; lra).
  assert (0 <= f x) as Hx by (rewrite <- Hr; apply (f_increasing f df), Hrx).
  pose proof (newton_le f df x Hx) as Hn; split; [nra|].
  apply Rle_trans with ((1 + a * (x - r)) * (x - N x)); [exact He|].
  apply Rmult_le_compat; lra.
Qed.

(** Hence the update that is returned is within [2*a*((1 + D)*tol)^2] of the
    root: the accuracy of the result is the square of the tolerance, not
    the tolerance. *)
Lemma break_accuracy_quadratic (r x D : R) :
  f r = 0 -> a * (x - r) <= D -> 0 <= D ->
  a * ((1 + D) * Solver.tol) <= 1 / 2 ->
  Solver.converged V Jsc J0 n Rs Rsh x = true ->
  0 <= N x - r <= 2 * a * (((1 + D) * Solver.tol) * ((1 + D) * Solver.tol)).
Proof.
  intros Hr Hd HD Hsmall Hc; pose proof a_nonneg as Ha.
  pose proof (error_at_break r x D Hr Hd HD Hc) as He.
  set (B := (1 + D) * Solver.tol) in *.
  assert (- B <= x - r <= B) as [Hlo Hhi]
    by (pose proof (Rle_abs (x - r)); pose proof (Rle_abs (- (x - r))) as Hm;
        rewrite Rabs_Ropp in Hm; lra).
  destruct (newton_quadratic r x Hr) as [H0 H1]; [nra|].
  split; [exact H0|apply Rle_trans with (1 := H1)].
  assert ((x - r) * (x - r) <= B * B) by nra.
  apply Rmult_le_compat_l; lra.
Qed.

(** The same with the slope at the guess in place of a bound on the scaled
    error: the guess is within [tol * df x] of the root. *)
Lemma quadratic_at_break (r x : R) :
  f r = 0 -> a * Solver.tol <= 1 / 2 ->
  Solver.converged V Jsc J0 n Rs Rsh x = true ->
  0 <= N x - r
  <= 2 * a * ((Solver.tol * df x) * (Solver.tol * df x)).
Proof.
  intros Hr Hsmall Hc; apply DiodeR.converged_real in Hc; fold f df in Hc.
  pose proof a_nonneg as Ha; pose proof (newton_ge_root f df r x Hr) as Hge.
  pose proof (DiodeR.df_ge_1 V J0 n Rs Rsh J0_nonneg Rs_nonneg n_pos Rsh_pos x)
    as Hd1.
  pose proof (DiodeR.root_within_residual V Jsc J0 n Rs Rsh J0_nonneg
                Rs_nonneg n_pos Rsh_pos r x Hr) as Hres; fold f in Hres.
  assert (Rabs (f x) = df x * Rabs (N x - x)) as Hfx.
  { rewrite <- (Rabs_Ropp (f x)), <- (newton_step_size f df x), Rabs_mult.
    rewrite (Rabs_pos_eq (df x)) by lra; reflexivity. }
  assert (Rabs (x - r) <= Solver.tol * df x) as HB
    by (rewrite Hfx in Hres; pose proof (Rabs_pos (N x - x)); nra).
  apply Rabs_def2 in Hc; set (B := Solver.tol * df x) in *.
  assert (- B <= x - r <= B) as [Hlo Hhi]
    by (pose proof (Rle_abs (x - r)); pose proof (Rle_abs (- (x - r))) as Hm;
        rewrite Rabs_Ropp in Hm; lra).
  destruct (newton_quadratic r x Hr) as [H0 H1]; [nra|].
  split; [exact H0|apply Rle_trans with (1 := H1)].
  assert ((x - r) * (x - r) <= B * B) by nra.
  apply Rmult_le_compat_l; lra.
Qed.

(** C5. Quadratic accuracy on [break], for all admissible parameters with
    [Rs/(n*Vt) * tol <= 1/2]: if the loop leaves through the step test at
    iteration [j], the returned value is at or above the root and at most
    [2 * Rs/(n*Vt) * (tol * df J_guess)^2] above it, where [J_guess] is the
    guess of that iteration.  The error of the result is of the order of
    the square of the tolerance, and zero without series resistance. *)
Theorem real_break_accuracy_quadratic (r : R) (j : nat) :
  f r = 0 -> a * Solver.tol <= 1 / 2 ->
  Solver.stops_at V Jsc J0 n Rs Rsh 100 j Jsc ->
  Solver.converged V Jsc J0 n Rs Rsh (newton_iter f df j Jsc) = true ->
  exists J, Solver.solar_cell_current V Jsc J0 n Rs Rsh = Ok J /\
    0 <= J - r
    <= 2 * a * ((Solver.tol * df (newton_iter f df j Jsc))
                * (Solver.tol * df (newton_iter f df j Jsc))).
Proof.
  intros Hr Hsmall Hs Hc; eexists; split.
  - exact (DiodeR.solar_cell_current_at V Jsc J0 n Rs Rsh n_pos Rsh_pos j Hs).
  - exact (quadratic_at_break r _ Hr Hsmall Hc).
Qed.

(** C17. Liveness: whatever the voltage and the admissible parameters, some
    iteration of the real-number loop meets the step test; with a large
    enough cap the loop is always left through [break]. *)
Theorem real_loop_eventually_breaks :
  exists j, Solver.converged V Jsc J0 n Rs Rsh
              (Solver.iterate V Jsc J0 n Rs Rsh j Jsc) = true.
Proof.
  destruct (DiodeR.diode_root_exists V Jsc J0 n Rs Rsh J0_nonneg Rs_nonneg
              n_pos Rsh_pos) as [r Hr].
  pose proof (newton_residual_nonneg f df Jsc) as Hx.
  assert (r <= N Jsc) as Hrx by (apply (newton_ge_root f df), Hr).
  pose proof a_nonneg as Ha; pose proof DiodeR.tol_pos as Ht.
  assert (0 <= a * (N Jsc - r)) as Hd by (apply Rmult_le_pos; lra).
  destruct (ratio_bounds _ Hd) as [Hq0 Hq1].
  set (q := a * (N Jsc - r) / (1 + a * (N Jsc - r))) in *.
  destruct (pow_lt_1_zero q) with (y := Solver.tol / (N Jsc - r + 1))
    as [k Hk].
  - rewrite Rabs_right; lra.
  - apply Rdiv_lt_0_compat; lra.
  - exists (S k); rewrite DiodeR.iterate_real; cbn [newton_iter].
    apply (converged_of_error r); [exact Hr| |].
    + destruct k; [exact Hx|apply newton_iter_residual_nonneg; exact convex].
    + pose proof (geometric_decay r (N Jsc) k Hr Hx) as Hg; fold q in Hg.
      specialize (Hk k (Nat.le_refl k)).
      rewrite Rabs_right in Hk by (apply Rle_ge, pow_le, Hq0).
      assert (q ^ k * (N Jsc - r + 1) < Solver.tol) as Hlt.
      { apply Rmult_lt_compat_r with (r := N Jsc - r + 1) in Hk; [|lra].
        replace (Solver.tol / (N Jsc - r + 1) * (N Jsc - r + 1))
          with (Solver.tol (F := R)) in Hk by (field; lra).
        exact Hk. }
      assert (0 <= q ^ k) by (apply pow_le, Hq0); nra.
Qed.

End Params.

Lemma real_loop_eventually_breaks_witness :
  exists j,
    Solver.converged 0.5 Cell.Jsc Cell.J0 Cell.n Cell.Rs Cell.Rsh
      (Solver.iterate 0.5 Cell.Jsc Cell.J0 Cell.n Cell.Rs Cell.Rsh j Cell.Jsc)
    = true.
Proof.
  exact (real_loop_eventually_breaks 0.5 Cell.Jsc Cell.J0 Cell.n Cell.Rs
           Cell.Rsh DiodeR.ref_J0_nonneg DiodeR.ref_Rs_nonneg DiodeR.ref_n_pos
           DiodeR.ref_Rsh_pos).
Defined.

End DiodeRate.

(** ** The reference parameters on the range of the sweep *)

Module RefRate.

(** The chain of bounds on the scaled error from [4.01] down: eleven
    contractions bring it below [a * tol]. *)
Definition ref_chain : list R :=
  [3.21; 2.45; 1.74; 1.11; 0.59; 0.22; 0.04; 0.0016; 2.6e-6; 7e-12; 5e-23].

Lemma ref_chain_ok : DiodeRate.chain_ok 4.01 ref_chain.
Proof. unfold ref_chain; cbn [DiodeRate.chain_ok]; repeat split; lra. Qed.

Lemma ref_scale : 0.0322 < Cell.Rs / (Cell.n * Cell.Vt) < 0.0323.
Proof. cell_consts; lra. Qed.

Lemma ref_chain_end :
  DiodeRate.chain_end 4.01 ref_chain
  < Cell.Rs / (Cell.n * Cell.Vt) * Solver.tol.
Proof.
  pose proof ref_scale as Ha; rewrite DiodeR.tol_real.
  unfold ref_chain; cbn [DiodeRate.chain_end]; lra.
Qed.

Lemma exp_31 : forall x, x <= 31.125 -> exp x <= 91 * 10 ^ 12.
Proof.
  intros x Hx; apply Rle_trans with ((16 / (16 - 1)) ^ 498).
  - apply exp_upper; [lra|].
    rewrite INR_IZR_INZ; change (Z.of_nat 498) with 498%Z; lra.
  - replace (16 - 1) with 15 by lra.
    replace (91 * 10 ^ 12) with (IZR (91 * 10 ^ 12))
      by (rewrite mult_IZR, pow_IZR; reflexivity).
    apply (pow_ratio_le 16 15); [lia|apply Z.leb_le; vm_compute; reflexivity].
Qed.

(** The lemmas of this section hold on the interval of the sweep widened by
    [1e-4] at both ends, which also holds the doubles nearest to its end
    points. *)
Section Sweep.
Variable V : R.
Hypothesis V_lo : - 0.1001 <= V.
Hypothesis V_hi : V <= Cell.Voc + 0.0501.

Local Abbreviation f := (Cell.f V Cell.Jsc Cell.J0 Cell.n Cell.Rs Cell.Rsh).
Local Abbreviation df := (Cell.df_val V Cell.J0 Cell.n Cell.Rs Cell.Rsh).
Local Abbreviation N := (newton f df).
Local Abbreviation a := (Cell.Rs / (Cell.n * Cell.Vt)).
Local Abbreviation iterate :=
  (Solver.iterate V Cell.Jsc Cell.J0 Cell.n Cell.Rs Cell.Rsh).
Local Abbreviation converged :=
  (Solver.converged V Cell.Jsc Cell.J0 Cell.n Cell.Rs Cell.Rsh).

Let convex : ConvexIncreasing f df :=
  DiodeR.diode_convex V _ _ _ _ _ DiodeR.ref_J0_nonneg DiodeR.ref_Rs_nonneg
    DiodeR.ref_n_pos DiodeR.ref_Rsh_pos.
#[local] Existing Instance convex.

(** The operating point is above [-93.5] on the whole range. *)
Lemma ref_residual_low : f (- 93.5) <= 0.
Proof.
  rewrite DiodeR.f_eq.
  assert (Cell.diode_arg V Cell.n Cell.Rs (- 93.5) <= 31.125) as Hu.
  { rewrite DiodeR.diode_arg_eq; revert V_hi; cell_consts; intros V_hi.
    lra. }
  apply exp_31 in Hu; revert Hu V_hi.
  generalize (exp (Cell.diode_arg V Cell.n Cell.Rs (- 93.5))).
  cell_consts; intros E HE Hhi; lra.
Qed.

Lemma ref_root_low (r : R) : f r = 0 -> - 93.5 <= r.
Proof.
  intros Hr; apply (f_le_inv f df); rewrite Hr; apply ref_residual_low.
Qed.


Lemma ref_reverse_residual : V + Cell.Jsc * Cell.Rs < 0 -> - f Cell.Jsc <= 2e-5.
Proof.
  intros Hv; rewrite DiodeR.f_at_Jsc.
  pose proof (exp_pos (Cell.diode_arg V Cell.n Cell.Rs Cell.Jsc)) as He.
  revert He V_lo Hv.
  generalize (exp (Cell.diode_arg V Cell.n Cell.Rs Cell.Jsc)).
  cell_consts; intros E HE Hlo Hv; lra.
Qed.

(** The scaled error of the first iterate at or above the root. *)
Lemma ref_start_forward (r : R) :
  f r = 0 -> a * (Cell.Jsc - r) <= 4.01.
Proof.
  intros Hr; pose proof (ref_root_low r Hr) as Hlo; pose proof ref_scale as Ha.
  apply (scaled_error_le _ _ (r + 124.03)); [lra|revert Hlo; cell_consts; lra|].
  replace (r + 124.03 - r) with 124.03 by ring; lra.
Qed.

Lemma ref_start_reverse (r : R) :
  f r = 0 -> V + Cell.Jsc * Cell.Rs < 0 ->
  0 <= f (N Cell.Jsc) /\ a * (N Cell.Jsc - r) <= 4.01.
Proof.
  intros Hr Hv; split; [apply newton_residual_nonneg; exact convex|].
  pose proof (DiodeR.f_Jsc_neg V _ _ _ _ _ DiodeR.ref_J0_nonneg
                DiodeR.ref_n_pos DiodeR.ref_Rsh_pos Hv) as Hneg.
  destruct (DiodeRate.first_update_error V _ _ _ _ _ DiodeR.ref_J0_nonneg
              DiodeR.ref_Rs_nonneg DiodeR.ref_n_pos DiodeR.ref_Rsh_pos
              r Cell.Jsc Hr (Rlt_le _ _ Hneg)) as [H0 H1].
  pose proof (ref_reverse_residual Hv) as Hres; pose proof ref_scale as Ha.
  apply (scaled_error_le _ _ (r + 2e-5)); [lra|lra|].
  replace (r + 2e-5 - r) with 2e-5 by ring; lra.
Qed.

(** Every iterate has a scaled error of at most [4.01]. *)
Lemma ref_scaled_error (r : R) (k : nat) :
  f r = 0 -> a * (iterate k Cell.Jsc - r) <= 4.01.
Proof.
  intros Hr; rewrite DiodeR.iterate_real; pose proof ref_scale as Ha.
  destruct (Rle_or_lt 0 (V + Cell.Jsc * Cell.Rs)) as [Hv|Hv].
  - pose proof (DiodeR.f_Jsc_nonneg V _ _ _ _ _ DiodeR.ref_J0_nonneg
                  DiodeR.ref_n_pos DiodeR.ref_Rsh_pos Hv) as Hx.
    destruct (newton_iter_from_above f df r k _ Hr Hx) as [_ Hhi].
    apply (scaled_error_le _ _ Cell.Jsc); [lra|exact Hhi|].
    apply ref_start_forward, Hr.
  - destruct (ref_start_reverse r Hr Hv) as [Hx Hd].
    apply (scaled_error_le _ _ (N Cell.Jsc)); [lra| |exact Hd].
    destruct k as [|k]; cbn [newton_iter].
    + pose proof (DiodeR.f_Jsc_neg V _ _ _ _ _ DiodeR.ref_J0_nonneg
                    DiodeR.ref_n_pos DiodeR.ref_Rsh_pos Hv) as Hneg.
      apply Rle_trans with r; [|apply (newton_ge_root f df), Hr].
      apply (f_le_inv f df); rewrite Hr; lra.
    + apply (newton_iter_from_above f df r k _ Hr Hx).
Qed.

(** Some iteration among the first thirteen meets the step test. *)
Lemma ref_converged_by_13 :
  exists j, (j < 13)%nat /\ converged (iterate j Cell.Jsc) = true.
Proof.
  destruct (DiodeR.diode_root_exists V Cell.Jsc _ _ _ _ DiodeR.ref_J0_nonneg
              DiodeR.ref_Rs_nonneg DiodeR.ref_n_pos DiodeR.ref_Rsh_pos)
    as [r Hr].
  pose proof (DiodeRate.chain_converged V Cell.Jsc _ _ _ _
                DiodeR.ref_J0_nonneg DiodeR.ref_Rs_nonneg DiodeR.ref_n_pos
                DiodeR.ref_Rsh_pos r ref_chain 4.01) as Hch.
  destruct (Rle_or_lt 0 (V + Cell.Jsc * Cell.Rs)) as [Hv|Hv].
  - exists 11%nat; split; [lia|rewrite DiodeR.iterate_real].
    apply Hch; [exact ref_chain_ok|exact Hr| |apply ref_start_forward, Hr
               |exact ref_chain_end].
    apply DiodeR.f_Jsc_nonneg;
      auto using DiodeR.ref_J0_nonneg, DiodeR.ref_n_pos, DiodeR.ref_Rsh_pos.
  - destruct (ref_start_reverse r Hr Hv) as [Hx Hd].
    exists 12%nat; split; [lia|rewrite DiodeR.iterate_real].
    exact (Hch (N Cell.Jsc) ref_chain_ok Hr Hx Hd ref_chain_end).
Qed.

(** The loop leaves through [break] within its first 13 iterations. *)
Lemma ref_breaks_by_13 :
  exists j, (j < 13)%nat /\
    Solver.stops_at V Cell.Jsc Cell.J0 Cell.n Cell.Rs Cell.Rsh 100 j Cell.Jsc /\
    converged (iterate j Cell.Jsc) = true /\
    Solver.solar_cell_current V Cell.Jsc Cell.J0 Cell.n Cell.Rs Cell.Rsh
    = Ok (iterate (S j) Cell.Jsc).
Proof.
  destruct ref_converged_by_13 as (j & Hj & Hc).
  apply (Solver.solar_cell_current_break V _ _ _ _ _ 13 j);
    [|exact Hj|lia|exact Hc].
  apply DiodeR.divisors_ok_params;
    [exact DiodeR.ref_n_pos|exact DiodeR.ref_Rsh_pos].
Qed.

(** The guess that meets the step test is within [5.01e-10] of the
    operating point, which is close enough for [newton_quadratic]. *)
Lemma ref_close_at_break : a * ((1 + 4.01) * Solver.tol) <= 1 / 2.
Proof. pose proof ref_scale as Ha; rewrite DiodeR.tol_real; lra. Qed.

(** A returned value is at or above the operating point and less than
    [2e-20] above it. *)
Lemma ref_result_near_root_wide (r J : R) :
  f r = 0 ->
  Solver.solar_cell_current V Cell.Jsc Cell.J0 Cell.n Cell.Rs Cell.Rsh = Ok J ->
  0 <= J - r < 2e-20.
Proof.
  intros Hr HJ; destruct ref_breaks_by_13 as (j & _ & _ & Hc & Hret).
  assert (J = iterate (S j) Cell.Jsc) as -> by congruence.
  rewrite Solver.iterate_S_r, DiodeR.newton_step_real.
  pose proof (DiodeRate.break_accuracy_quadratic V Cell.Jsc _ _ _ _
         DiodeR.ref_J0_nonneg DiodeR.ref_Rs_nonneg DiodeR.ref_n_pos
         DiodeR.ref_Rsh_pos r _ 4.01 Hr (ref_scaled_error r j Hr)
         ltac:(lra) ref_close_at_break Hc) as [Hlo Hhi].
  pose proof ref_scale as Ha; rewrite DiodeR.tol_real in Hhi.
  split; [exact Hlo|apply Rle_lt_trans with (1 := Hhi); lra].
Qed.

(** The slope at a point at or above the operating point, in terms of the
    residual there. *)
Lemma ref_slope_le (r J : R) : f r = 0 -> r <= J -> df J <= 5.01 + 0.0323 * f J.
Proof.
  intros Hr HJ; pose proof (ref_root_low r Hr) as Hlo.
  rewrite (DiodeR.df_of_f V Cell.Jsc).
  assert (0 <= f J) as HF by (rewrite <- Hr; apply (f_increasing f df), HJ).
  revert HF Hlo V_lo; generalize (f J); cell_consts; intros F HF Hlo Vlo; lra.
Qed.

(** The residual at a returned value: the contract of the solver is a
    residual below the tolerance, and the result meets it with a margin of
    eight orders of magnitude. *)
Lemma ref_residual_at_result (r J : R) :
  f r = 0 ->
  Solver.solar_cell_current V Cell.Jsc Cell.J0 Cell.n Cell.Rs Cell.Rsh = Ok J ->
  0 <= f J < 1e-18.
Proof.
  intros Hr HJ; destruct (ref_result_near_root_wide r J Hr HJ) as [Hlo Hhi].
  assert (r <= J) as HrJ by lra.
  pose proof (ref_slope_le r J Hr HrJ) as Hs.
  pose proof (tangent_below (f := f) J r) as Ht; rewrite Hr in Ht.
  assert (0 <= f J) as HF by (rewrite <- Hr; apply (f_increasing f df), HrJ).
  split; [exact HF|].
  assert (df J * (J - r) <= (5.01 + 0.0323 * f J) * 2e-20)
    by (apply Rmult_le_compat; try lra; pose proof (df_pos (f := f) J); lra).
  lra.
Qed.

End Sweep.

(** ** On the interval of the sweep *)

Lemma ref_widen (V : R) :
  - 0.1 <= V -> V <= Cell.Voc + 0.05 ->
  - 0.1001 <= V /\ V <= Cell.Voc + 0.0501.
Proof. intros Hlo Hhi; split; lra. Qed.

Lemma ref_result_near_root (V : R) (V_lo : - 0.1 <= V)
  (V_hi : V <= Cell.Voc + 0.05) (r J : R) :
  Cell.f V Cell.Jsc Cell.J0 Cell.n Cell.Rs Cell.Rsh r = 0 ->
  Solver.solar_cell_current V Cell.Jsc Cell.J0 Cell.n Cell.Rs Cell.Rsh = Ok J ->
  0 <= J - r < 2e-20.
Proof.
  destruct (ref_widen V V_lo V_hi) as [Hlo Hhi].
  exact (ref_result_near_root_wide V Hlo Hhi r J).
Qed.

(** C3. Convergence on the range of the sweep, over the reals: for the
    reference parameters and every voltage between [-0.1] and [Voc + 0.05]
    the loop meets the step test within its first 13 iterations, so the
    call leaves through [break], far from the cap of 100, and returns the
    update of the first iterate that meets the test. *)
Theorem reference_sweep_breaks_within_13 (V : R) :
  - 0.1 <= V -> V <= Cell.Voc + 0.05 ->
  exists j, (j < 13)%nat /\
    Solver.stops_at V Cell.Jsc Cell.J0 Cell.n Cell.Rs Cell.Rsh 100 j Cell.Jsc /\
    Solver.converged V Cell.Jsc Cell.J0 Cell.n Cell.Rs Cell.Rsh
      (Solver.iterate V Cell.Jsc Cell.J0 Cell.n Cell.Rs Cell.Rsh j Cell.Jsc)
    = true /\
    Solver.solar_cell_current V Cell.Jsc Cell.J0 Cell.n Cell.Rs Cell.Rsh
    = Ok (Solver.iterate V Cell.Jsc Cell.J0 Cell.n Cell.Rs Cell.Rsh (S j)
            Cell.Jsc).
Proof.
  intros V_lo V_hi; destruct (ref_widen V V_lo V_hi) as [Hlo Hhi].
  exact (ref_breaks_by_13 V Hlo Hhi).
Qed.

(** C16. Accuracy on the range of the sweep, over the reals: for the
    reference parameters and every voltage between [-0.1] and [Voc + 0.05]
    the call returns a current density at or above the operating point of
    the diode equation and less than [2e-20] above it, and the residual of
    line 30 at the returned value is below [1e-18]: the step test at
    [1e-10] leaves an error of the order of its square. *)
Theorem reference_sweep_accuracy (V : R) :
  - 0.1 <= V -> V <= Cell.Voc + 0.05 ->
  exists r J,
    Cell.f V Cell.Jsc Cell.J0 Cell.n Cell.Rs Cell.Rsh r = 0 /\
    Solver.solar_cell_current V Cell.Jsc Cell.J0 Cell.n Cell.Rs Cell.Rsh = Ok J /\
    0 <= J - r < 2e-20 /\
    0 <= Cell.f V Cell.Jsc Cell.J0 Cell.n Cell.Rs Cell.Rsh J < 1e-18.
Proof.
  intros V_lo V_hi.
  destruct (DiodeR.diode_root_exists V Cell.Jsc _ _ _ _ DiodeR.ref_J0_nonneg
              DiodeR.ref_Rs_nonneg DiodeR.ref_n_pos DiodeR.ref_Rsh_pos)
    as [r Hr].
  destruct (DiodeR.solar_cell_current_real V Cell.Jsc Cell.J0 Cell.n Cell.Rs
              Cell.Rsh DiodeR.ref_n_pos DiodeR.ref_Rsh_pos) as (j & _ & HJ).
  destruct (ref_widen V V_lo V_hi) as [Hlo Hhi].
  exists r; eexists; split; [exact Hr|split; [exact HJ|split]].
  - exact (ref_result_near_root_wide V Hlo Hhi r _ Hr HJ).
  - exact (ref_residual_at_result V Hlo Hhi r _ Hr HJ).
Qed.

(** ** Witnesses *)

Lemma ref_half_volt_in_range : - 0.1 <= 0.5 /\ 0.5 <= Cell.Voc + 0.05.
Proof. cell_consts; lra. Qed.

Lemma reference_sweep_breaks_within_13_witness :
  exists j, (j < 13)%nat /\
    Solver.stops_at 0.5 Cell.Jsc Cell.J0 Cell.n Cell.Rs Cell.Rsh 100 j Cell.Jsc /\
    Solver.converged 0.5 Cell.Jsc Cell.J0 Cell.n Cell.Rs Cell.Rsh
      (Solver.iterate 0.5 Cell.Jsc Cell.J0 Cell.n Cell.Rs Cell.Rsh j Cell.Jsc)
    = true /\
    Solver.solar_cell_current 0.5 Cell.Jsc Cell.J0 Cell.n Cell.Rs Cell.Rsh
    = Ok (Solver.iterate 0.5 Cell.Jsc Cell.J0 Cell.n Cell.Rs Cell.Rsh (S j)
            Cell.Jsc).
Proof.
  exact (reference_sweep_breaks_within_13 0.5 (proj1 ref_half_volt_in_range)
           (proj2 ref_half_volt_in_range)).
Defined.

Lemma ref_tol_small : Cell.Rs / (Cell.n * Cell.Vt) * Solver.tol <= 1 / 2.
Proof. pose proof ref_scale as Ha; rewrite DiodeR.tol_real; lra. Qed.

Lemma real_break_accuracy_quadratic_witness :
  exists (r : R) (j : nat) (J : R),
    Cell.f 0.5 Cell.Jsc Cell.J0 Cell.n Cell.Rs Cell.Rsh r = 0 /\
    Solver.solar_cell_current 0.5 Cell.Jsc Cell.J0 Cell.n Cell.Rs Cell.Rsh
    = Ok J /\
    0 <= J - r
    <= 2 * (Cell.Rs / (Cell.n * Cell.Vt))
       * ((Solver.tol
           * Cell.df_val 0.5 Cell.J0 Cell.n Cell.Rs Cell.Rsh
               (Solver.iterate 0.5 Cell.Jsc Cell.J0 Cell.n Cell.Rs Cell.Rsh j
                  Cell.Jsc))
          * (Solver.tol
             * Cell.df_val 0.5 Cell.J0 Cell.n Cell.Rs Cell.Rsh
                 (Solver.iterate 0.5 Cell.Jsc Cell.J0 Cell.n Cell.Rs Cell.Rsh j
                    Cell.Jsc))).
Proof.
  destruct (DiodeR.diode_root_exists 0.5 Cell.Jsc _ _ _ _ DiodeR.ref_J0_nonneg
              DiodeR.ref_Rs_nonneg DiodeR.ref_n_pos DiodeR.ref_Rsh_pos)
    as [r Hr].
  destruct (ref_widen 0.5 (proj1 ref_half_volt_in_range)
              (proj2 ref_half_volt_in_range)) as [Hlo Hhi].
  destruct (ref_breaks_by_13 0.5 Hlo Hhi) as (j & _ & Hs & Hc & _).
  rewrite DiodeR.iterate_real in Hc.
  destruct (DiodeRate.real_break_accuracy_quadratic 0.5 Cell.Jsc Cell.J0
              Cell.n Cell.Rs Cell.Rsh DiodeR.ref_J0_nonneg DiodeR.ref_Rs_nonneg
              DiodeR.ref_n_pos DiodeR.ref_Rsh_pos r j Hr ref_tol_small Hs Hc)
    as (J & HJ & Hb).
  exists r, j, J; rewrite DiodeR.iterate_real; auto.
Defined.

Lemma reference_sweep_accuracy_witness :
  exists r J,
    Cell.f 0.5 Cell.Jsc Cell.J0 Cell.n Cell.Rs Cell.Rsh r = 0 /\
    Solver.solar_cell_current 0.5 Cell.Jsc Cell.J0 Cell.n Cell.Rs Cell.Rsh
    = Ok J /\
    0 <= J - r < 2e-20 /\
    0 <= Cell.f 0.5 Cell.Jsc Cell.J0 Cell.n Cell.Rs Cell.Rsh J < 1e-18.
Proof.
  exact (reference_sweep_accuracy 0.5 (proj1 ref_half_volt_in_range)
           (proj2 ref_half_volt_in_range)).
Defined.

End RefRate.
