(* ===== verification/Enclosure.v ===== *)
(** * Enclosure: the exponential between two computed integers

    To compare a current density computed on binary64 with the operating
    point of the model over the reals, the residual has to be evaluated at
    the computed value with a guaranteed sign.  This file encloses
    [exp (W / (d * 2^c))], for integers [W], [d] and [c], between two
    integers scaled by [2^P].

    The argument is halved [k] times.  At the reduced argument [y], between
    0 and 1, [exp (- y)] lies between two consecutive partial sums of its
    alternating series; the sums are evaluated in fixed point with [P]
    fractional bits, every product rounded down for the lower bound and up
    for the upper bound.  The enclosure of [exp (- y)], or of its
    reciprocal when the argument is positive, is then squared [k] times,
    again with directed rounding.  Whatever [P], [k] and the number of
    terms are, the integers computed are bounds; the three only decide how
    tight the enclosure is, and whether there is one. *)

From Stdlib Require Import ZArith Reals Lra Lia Bool.
From S2P Require Import Prelude DiodeRate.

Local Open Scope R_scope.

(** ** The exponential between partial sums of its series *)

(** The terms of the exponential series. *)
Definition term (y : R) (i : nat) : R := y ^ i / INR (fact i).

Definition alt_partial (y : R) (n : nat) : R := sum_f_R0 (tg_alt (term y)) n.

Lemma term_0 (y : R) : term y 0 = 1.
Proof. unfold term; cbn; lra. Qed.

Lemma term_S (y : R) (i : nat) : term y (S i) = term y i * y / INR (S i).
Proof.
  unfold term; rewrite fact_simpl, mult_INR; cbn [pow].
  pose proof (INR_fact_neq_0 i); pose proof (not_0_INR (S i) ltac:(lia)).
  field; split; assumption.
Qed.

Lemma term_nonneg (y : R) (i : nat) : 0 <= y -> 0 <= term y i.
Proof.
  intros Hy; unfold term; apply Rmult_le_pos; [apply pow_le; exact Hy|].
  left; apply Rinv_0_lt_compat, INR_fact_lt_0.
Qed.

Lemma term_decreasing (y : R) : 0 <= y <= 1 -> Un_decreasing (term y).
Proof.
  intros Hy i; rewrite term_S; pose proof (term_nonneg y i (proj1 Hy)) as Ht.
  assert (1 <= INR (S i)) as Hi by (apply (le_INR 1); lia).
  apply (Rmult_le_reg_r (INR (S i))); [lra|].
  replace (term y i * y / INR (S i) * INR (S i)) with (term y i * y)
    by (field; lra).
  apply Rmult_le_compat_l; [exact Ht|lra].
Qed.

Lemma alt_partial_cv (y : R) : Un_cv (alt_partial y) (exp (- y)).
Proof.
  intros eps Heps; destruct (proj2_sig (exist_exp (- y)) eps Heps) as [N HN].
  exists N; intros n Hn; specialize (HN n Hn).
  unfold alt_partial; erewrite sum_eq; [exact HN|].
  intros i _; unfold tg_alt, term; cbv beta.
  replace (- y) with (-1 * y) by ring; rewrite Rpow_mult_distr.
  unfold Rdiv; ring.
Qed.

(** [exp (- y)] lies between two consecutive partial sums. *)
Lemma exp_neg_between (y : R) (N : nat) :
  0 <= y <= 1 ->
  alt_partial y (S (2 * N)) <= exp (- y) <= alt_partial y (2 * N).
Proof.
  intros Hy; apply alternated_series_ineq.
  - apply term_decreasing; exact Hy.
  - exact (cv_speed_pow_fact y).
  - exact (alt_partial_cv y).
Qed.

Lemma alt_partial_0 (y : R) : alt_partial y 0 = 1.
Proof. unfold alt_partial, tg_alt; cbn [sum_f_R0 pow]; rewrite term_0; lra. Qed.

Lemma alt_partial_S (y : R) (n : nat) :
  alt_partial y (S n) = alt_partial y n + (-1) ^ S n * term y (S n).
Proof. reflexivity. Qed.

(** ** Integer division and shifts, rounded *)

Lemma div_down (a k : Z) : (0 < k)%Z -> IZR (a / k) * IZR k <= IZR a.
Proof.
  intros Hk; rewrite <- mult_IZR; apply IZR_le.
  pose proof (Z.mul_div_le a k Hk); lia.
Qed.

Lemma div_up (a k : Z) : (0 < k)%Z -> IZR a + 1 <= IZR ((a + k) / k) * IZR k.
Proof.
  intros Hk; rewrite <- mult_IZR, <- (plus_IZR a 1); apply IZR_le.
  pose proof (Z.div_mod (a + k) k ltac:(lia)).
  pose proof (Z.mod_pos_bound (a + k) k Hk); lia.
Qed.

Lemma nested_floor (a s d : Z) :
  (0 < s)%Z -> (0 < d)%Z ->
  (a / s / d * (d * s) <= a < (a / s / d + 1) * (d * s))%Z.
Proof.
  intros Hs Hd; rewrite Z.div_div by lia.
  pose proof (Z.div_mod a (s * d) ltac:(lia)).
  pose proof (Z.mod_pos_bound a (s * d) ltac:(lia)); lia.
Qed.

Section Fixed.
Variable P : Z.
Hypothesis P_nonneg : (0 <= P)%Z.

Local Abbreviation S2 := (IZR (2 ^ P)).

(** [lo / 2^P <= x <= hi / 2^P]. *)
Definition encloses (lo hi : Z) (x : R) : Prop := IZR lo <= S2 * x <= IZR hi.

Lemma scale_pos : 0 < S2.
Proof. apply IZR_lt, Z.pow_pos_nonneg; lia. Qed.

Lemma shiftr_bounds (x : Z) :
  (0 <= x)%Z ->
  (0 <= Z.shiftr x P)%Z /\
  IZR (Z.shiftr x P) * S2 <= IZR x < IZR (Z.shiftr x P + 1) * S2.
Proof.
  intros Hx; rewrite Z.shiftr_div_pow2 by exact P_nonneg.
  assert (0 < 2 ^ P)%Z as Hp by (apply Z.pow_pos_nonneg; lia).
  pose proof (Z.div_mod x (2 ^ P) ltac:(lia)) as Hd.
  pose proof (Z.mod_pos_bound x (2 ^ P) Hp) as Hm.
  split; [apply Z.div_pos; lia|].
  rewrite <- !mult_IZR; split; [apply IZR_le|apply IZR_lt]; lia.
Qed.

(** ** Products of fixed-point numbers, divided by an integer *)

Definition mul_down (t Y k : Z) : Z := Z.shiftr (t * Y) P / k.
Definition mul_up (t Y k : Z) : Z := (Z.shiftr (t * Y) P + k) / k.

Lemma mul_down_le (t Y k : Z) (x y : R) :
  (0 <= t)%Z -> (0 <= Y)%Z -> (0 < k)%Z ->
  IZR t <= S2 * x -> IZR Y <= S2 * y ->
  (0 <= mul_down t Y k)%Z /\ IZR (mul_down t Y k) <= S2 * (x * y / IZR k).
Proof.
  intros Ht HY Hk Hx Hy; unfold mul_down; pose proof scale_pos as HS.
  destruct (shiftr_bounds (t * Y) ltac:(nia)) as (H0 & Hlo & _).
  split; [apply Z.div_pos; lia|].
  pose proof (div_down (Z.shiftr (t * Y) P) k Hk) as Hd.
  assert (0 < IZR k) as Hk' by (apply IZR_lt; exact Hk).
  assert (0 <= IZR t) by (apply IZR_le; exact Ht).
  assert (0 <= IZR Y) by (apply IZR_le; exact HY).
  rewrite mult_IZR in Hlo.
  assert (IZR t * IZR Y <= (S2 * x) * (S2 * y)) by (apply Rmult_le_compat; lra).
  assert (IZR (Z.shiftr (t * Y) P) <= S2 * (x * y)) as Hs
    by (apply (Rmult_le_reg_r S2); [exact HS|lra]).
  apply (Rmult_le_reg_r (IZR k)); [exact Hk'|].
  replace (S2 * (x * y / IZR k) * IZR k) with (S2 * (x * y)) by (field; lra).
  lra.
Qed.

Lemma mul_up_ge (t Y k : Z) (x y : R) :
  (0 < k)%Z -> 0 <= x -> 0 <= y ->
  S2 * x <= IZR t -> S2 * y <= IZR Y ->
  S2 * (x * y / IZR k) <= IZR (mul_up t Y k).
Proof.
  intros Hk Hx Hy Ht HY; unfold mul_up; pose proof scale_pos as HS.
  assert (0 <= t)%Z as Ht0 by (apply le_IZR; nra).
  assert (0 <= Y)%Z as HY0 by (apply le_IZR; nra).
  destruct (shiftr_bounds (t * Y) ltac:(nia)) as (_ & _ & Hhi).
  pose proof (div_up (Z.shiftr (t * Y) P) k Hk) as Hd.
  assert (0 < IZR k) as Hk' by (apply IZR_lt; exact Hk).
  rewrite mult_IZR in Hhi; rewrite plus_IZR in Hhi.
  assert ((S2 * x) * (S2 * y) <= IZR t * IZR Y)
    by (apply Rmult_le_compat; nra).
  assert (S2 * (x * y) <= IZR (Z.shiftr (t * Y) P) + 1) as Hs
    by (apply (Rmult_le_reg_r S2); [exact HS|lra]).
  apply (Rmult_le_reg_r (IZR k)); [exact Hk'|].
  replace (S2 * (x * y / IZR k) * IZR k) with (S2 * (x * y)) by (field; lra).
  lra.
Qed.

(** ** The series of [exp (- y)], two terms at a time

    [alt_pairs N i] adds the terms [i + 1] (subtracted) and [i + 2] (added),
    [N] times.  The state is an enclosure of the last term and one of the
    partial sum. *)

Fixpoint alt_pairs (N i : nat) (Ylo Yhi tlo thi slo shi : Z)
  : Z * Z * Z * Z :=
  match N with
  | O => (tlo, thi, slo, shi)
  | S N' =>
      let k := Z.of_nat (S i) in
      let alo := mul_down tlo Ylo k in
      let ahi := mul_up thi Yhi k in
      let blo := mul_down alo Ylo (k + 1)%Z in
      let bhi := mul_up ahi Yhi (k + 1)%Z in
      alt_pairs N' (S (S i)) Ylo Yhi blo bhi
        (slo - ahi + blo)%Z (shi - alo + bhi)%Z
  end.

(** An enclosure of [2^P * exp (- y)] for [y] between [Ylo / 2^P] and
    [Yhi / 2^P]: the sum of [2 * N] terms above, one more term below. *)
Definition exp_neg (N : nat) (Ylo Yhi : Z) : Z * Z :=
  let '(tlo, thi, slo, shi) :=
    alt_pairs N 0 Ylo Yhi (2 ^ P) (2 ^ P) (2 ^ P) (2 ^ P) in
  ((slo - mul_up thi Yhi (Z.of_nat (S (2 * N))))%Z, shi).

Section Series.
Variables (y : R) (Ylo Yhi : Z).
Hypothesis Ylo_nonneg : (0 <= Ylo)%Z.
Hypothesis Y_encloses : encloses Ylo Yhi y.

Lemma y_nonneg : 0 <= y.
Proof.
  pose proof scale_pos as HS; destruct Y_encloses as [Hlo _].
  assert (0 <= IZR Ylo) by (apply IZR_le; exact Ylo_nonneg); nra.
Qed.

(** The state after the term of even index [2 * j]. *)
Definition series_inv (j : nat) (st : Z * Z * Z * Z) : Prop :=
  let '(tlo, thi, slo, shi) := st in
  (0 <= tlo)%Z /\ encloses tlo thi (term y (2 * j)) /\
  encloses slo shi (alt_partial y (2 * j)).

Lemma of_nat_S_real (i : nat) : IZR (Z.of_nat (S i)) = INR (S i).
Proof. rewrite INR_IZR_INZ; reflexivity. Qed.

Lemma series_step (j : nat) (tlo thi slo shi : Z) :
  series_inv j (tlo, thi, slo, shi) ->
  series_inv (S j)
    (alt_pairs 1 (2 * j) Ylo Yhi tlo thi slo shi).
Proof.
  intros (Ht0 & [Htl Hth] & [Hsl Hsh]); destruct Y_encloses as [Hyl Hyh].
  pose proof y_nonneg as Hy; pose proof (term_nonneg y (2 * j) Hy) as Hx.
  cbn [alt_pairs series_inv]; set (k := Z.of_nat (S (2 * j))).
  assert (0 < k)%Z as Hk by (unfold k; lia).
  assert (IZR k = INR (S (2 * j))) as Ek by apply of_nat_S_real.
  assert (IZR (k + 1) = INR (S (S (2 * j)))) as Ek1
    by (replace (k + 1)%Z with (Z.of_nat (S (S (2 * j)))) by (unfold k; lia);
        apply of_nat_S_real).
  destruct (mul_down_le tlo Ylo k _ _ Ht0 Ylo_nonneg Hk Htl Hyl) as [Ha0 Hal].
  pose proof (mul_up_ge thi Yhi k _ _ Hk Hx Hy Hth Hyh) as Hah.
  rewrite Ek, <- term_S in Hal, Hah.
  pose proof (term_nonneg y (S (2 * j)) Hy) as Hx1.
  destruct (mul_down_le _ Ylo (k + 1) _ _ Ha0 Ylo_nonneg ltac:(lia) Hal Hyl)
    as [Hb0 Hbl].
  pose proof (mul_up_ge _ Yhi (k + 1) _ _ ltac:(lia) Hx1 Hy Hah Hyh) as Hbh.
  rewrite Ek1, <- term_S in Hbl, Hbh.
  replace (2 * S j)%nat with (S (S (2 * j))) by lia.
  split; [exact Hb0|split; [split; assumption|]].
  unfold encloses; rewrite !alt_partial_S, pow_1_odd.
  replace (S (S (2 * j))) with (2 * S j)%nat at 1 3 by lia.
  rewrite pow_1_even, !plus_IZR, !minus_IZR; lra.
Qed.

Lemma alt_pairs_sound (N j : nat) (st : Z * Z * Z * Z) :
  series_inv j st ->
  let '(tlo, thi, slo, shi) := st in
  series_inv (N + j) (alt_pairs N (2 * j) Ylo Yhi tlo thi slo shi).
Proof.
  revert j st; induction N as [|N IH]; intros j [[[tlo thi] slo] shi] Hinv;
    [exact Hinv|].
  apply series_step in Hinv; cbn [alt_pairs] in Hinv |- *.
  replace (S N + j)%nat with (N + S j)%nat by lia.
  replace (S (S (2 * j))) with (2 * S j)%nat by lia.
  exact (IH (S j) (_, _, _, _) Hinv).
Qed.

Lemma exp_neg_sound (N : nat) :
  y <= 1 ->
  encloses (fst (exp_neg N Ylo Yhi)) (snd (exp_neg N Ylo Yhi)) (exp (- y)).
Proof.
  intros Hy1; pose proof y_nonneg as Hy; pose proof scale_pos as HS.
  assert (series_inv 0 (2 ^ P, 2 ^ P, 2 ^ P, 2 ^ P)%Z) as H0.
  { cbn [series_inv Nat.mul]; unfold encloses.
    rewrite term_0, alt_partial_0; split; [apply Z.pow_nonneg; lia|lra]. }
  pose proof (alt_pairs_sound N 0 _ H0) as Hinv; cbv beta iota in Hinv.
  unfold exp_neg; change (2 * 0)%nat with 0%nat in Hinv.
  destruct (alt_pairs N 0 Ylo Yhi (2 ^ P) (2 ^ P) (2 ^ P) (2 ^ P))
    as [[[tlo thi] slo] shi].
  rewrite Nat.add_0_r in Hinv; destruct Hinv as (_ & [_ Hth] & [Hsl Hsh]).
  destruct (exp_neg_between y N (conj Hy Hy1)) as [Hlo Hhi].
  destruct Y_encloses as [_ Hyh].
  pose proof (mul_up_ge thi Yhi (Z.of_nat (S (2 * N))) _ _ ltac:(lia)
                (term_nonneg y (2 * N) Hy) Hy Hth Hyh) as Hnext.
  rewrite of_nat_S_real, <- term_S in Hnext.
  rewrite alt_partial_S, pow_1_odd in Hlo.
  cbn [fst snd]; unfold encloses; rewrite minus_IZR; split; nra.
Qed.

End Series.

(** ** Squaring with directed rounding *)

Fixpoint sq_down (m : nat) (a : Z) : Z :=
  match m with
  | O => a
  | S m' => sq_down m' (Z.shiftr (a * a) P)
  end.

Fixpoint sq_up (m : nat) (b : Z) : Z :=
  match m with
  | O => b
  | S m' => sq_up m' (Z.shiftr (b * b) P + 1)
  end.

Lemma pow_two_succ (t : R) (m : nat) : (t ^ 2) ^ (2 ^ m) = t ^ (2 ^ S m).
Proof. rewrite <- pow_mult; reflexivity. Qed.

Lemma sq_down_le (m : nat) (a : Z) (t : R) :
  (0 <= a)%Z -> IZR a <= S2 * t -> IZR (sq_down m a) <= S2 * t ^ (2 ^ m).
Proof.
  revert a t; induction m as [|m IH]; intros a t Ha Hat.
  - cbn [sq_down Nat.pow]; lra.
  - cbn [sq_down]; rewrite <- pow_two_succ.
    pose proof scale_pos as HS.
    destruct (shiftr_bounds (a * a) ltac:(nia)) as (H0 & Hlo & _).
    apply IH; [exact H0|]; rewrite mult_IZR in Hlo.
    assert (0 <= IZR a) as Ha' by (apply IZR_le; exact Ha).
    assert (IZR a * IZR a <= (S2 * t) * (S2 * t)) as Hsq
      by (apply Rmult_le_compat; lra).
    apply (Rmult_le_reg_r S2); [exact HS|]; lra.
Qed.

Lemma sq_up_ge (m : nat) (b : Z) (t : R) :
  0 <= t -> S2 * t <= IZR b -> S2 * t ^ (2 ^ m) <= IZR (sq_up m b).
Proof.
  revert b t; induction m as [|m IH]; intros b t Ht Hbt.
  - cbn [sq_up Nat.pow]; lra.
  - cbn [sq_up]; rewrite <- pow_two_succ.
    pose proof scale_pos as HS.
    destruct (shiftr_bounds (b * b) ltac:(nia)) as (_ & _ & Hhi).
    apply IH; [nra|]; rewrite mult_IZR in Hhi.
    assert ((S2 * t) * (S2 * t) <= IZR b * IZR b) as Hsq
      by (apply Rmult_le_compat; nra).
    apply (Rmult_le_reg_r S2); [exact HS|]; lra.
Qed.

Lemma sq_encloses (m : nat) (lo hi : Z) (t : R) :
  (0 <= lo)%Z -> 0 <= t -> encloses lo hi t ->
  encloses (sq_down m lo) (sq_up m hi) (t ^ (2 ^ m)).
Proof.
  intros Hlo Ht [Hl Hh]; split; [apply sq_down_le|apply sq_up_ge]; assumption.
Qed.

(** ** The reciprocal *)

Lemma recip_encloses (lo hi : Z) (e : R) :
  (0 < lo)%Z -> encloses lo hi e ->
  (0 <= 2 ^ (2 * P) / hi)%Z /\
  encloses (2 ^ (2 * P) / hi) (2 ^ (2 * P) / lo + 1) (/ e).
Proof.
  intros Hlo [Hl Hh]; pose proof scale_pos as HS.
  assert (0 < IZR lo) as Hlo' by (apply IZR_lt; exact Hlo).
  assert (0 < e) as He by nra.
  assert (0 < hi)%Z as Hhi by (apply lt_IZR; nra).
  assert (0 < IZR hi) as Hhi' by (apply IZR_lt; exact Hhi).
  assert (IZR (2 ^ (2 * P)) = S2 * S2) as E2
    by (rewrite <- mult_IZR; f_equal; rewrite <- Z.pow_add_r by lia; f_equal; lia).
  assert (0 <= 2 ^ (2 * P))%Z as H2 by (apply Z.pow_nonneg; lia).
  split; [apply Z.div_pos; lia|].
  pose proof (div_down (2 ^ (2 * P)) hi Hhi) as Hd.
  pose proof (Z.div_mod (2 ^ (2 * P)) lo ltac:(lia)) as Hm.
  pose proof (Z.mod_pos_bound (2 ^ (2 * P)) lo Hlo) as Hb.
  assert (IZR (2 ^ (2 * P)) < IZR (2 ^ (2 * P) / lo + 1) * IZR lo) as Hup
    by (rewrite <- mult_IZR; apply IZR_lt; lia).
  rewrite E2 in Hd, Hup; pose proof (Rinv_0_lt_compat e He) as Hie.
  assert (e * / e = 1) as Hee by (field; lra).
  split.
  - apply (Rmult_le_reg_r (IZR hi)); [exact Hhi'|].
    apply Rle_trans with (S2 * S2); [exact Hd|].
    replace (S2 * S2) with (S2 * / e * (S2 * e)) by (field; lra).
    apply Rmult_le_compat_l; [nra|exact Hh].
  - apply (Rmult_le_reg_r (IZR lo)); [exact Hlo'|].
    apply Rle_trans with (S2 * S2); [|lra].
    replace (S2 * S2) with (S2 * / e * (S2 * e)) by (field; lra).
    apply Rmult_le_compat_l; [nra|exact Hl].
Qed.

(** ** The exponential of a fraction

    [exp_encl N k W d c] encloses [2^P * exp (W / (d * 2^c))].  The
    argument is divided by [2^k] so that the series of [2 * N + 1] terms
    applies, and the sum is squared [k] times; for a positive argument the
    reciprocal is taken first. *)

Definition reduced (k : nat) (W d c : Z) : Z :=
  (Z.shiftr (Z.shiftl (Z.abs W) P) (c + Z.of_nat k) / d)%Z.

Definition exp_encl (N k : nat) (W d c : Z) : option (Z * Z) :=
  let Ylo := reduced k W d c in
  if (2 ^ P <=? Ylo)%Z then None
  else
    let '(lo, hi) := exp_neg N Ylo (Ylo + 1) in
    if (lo <=? 0)%Z then None
    else if (0 <=? W)%Z then
      Some (sq_down k (2 ^ (2 * P) / hi), sq_up k (2 ^ (2 * P) / lo + 1))%Z
    else Some (sq_down k lo, sq_up k hi).

Section Argument.
Variables (k : nat) (W d c : Z).
Hypothesis d_pos : (0 < d)%Z.
Hypothesis c_nonneg : (0 <= c)%Z.

(** The absolute value of the argument, divided by [2^k]. *)
Definition reduced_arg : R := IZR (Z.abs W) / (IZR d * IZR (2 ^ c) * 2 ^ k).

Lemma reduced_den_pos : 0 < IZR d * IZR (2 ^ c) * 2 ^ k.
Proof.
  repeat apply Rmult_lt_0_compat;
    [apply IZR_lt; exact d_pos|apply IZR_lt, Z.pow_pos_nonneg; lia|
     apply pow_lt; lra].
Qed.

Lemma reduced_encloses :
  (0 <= reduced k W d c)%Z /\
  encloses (reduced k W d c) (reduced k W d c + 1) reduced_arg.
Proof.
  unfold reduced, reduced_arg.
  rewrite Z.shiftl_mul_pow2, Z.shiftr_div_pow2 by lia.
  set (a := (Z.abs W * 2 ^ P)%Z); set (s := (2 ^ (c + Z.of_nat k))%Z).
  assert (0 < s)%Z as Hs by (apply Z.pow_pos_nonneg; lia).
  assert (0 <= a)%Z as Ha
    by (apply Z.mul_nonneg_nonneg; [lia|apply Z.pow_nonneg; lia]).
  destruct (nested_floor a s d Hs d_pos) as [Hlo Hhi].
  split; [apply Z.div_pos; [apply Z.div_pos|]; lia|].
  apply IZR_le in Hlo; apply IZR_lt in Hhi; rewrite !mult_IZR in Hlo, Hhi.
  assert (IZR d * IZR s = IZR d * IZR (2 ^ c) * 2 ^ k) as Es
    by (unfold s; rewrite Z.pow_add_r, mult_IZR, <- pow_IZR by lia; ring).
  assert (IZR a = IZR (Z.abs W) * S2) as Ea by (unfold a; apply mult_IZR).
  pose proof reduced_den_pos as HD; pose proof scale_pos as HS.
  rewrite Es, Ea in Hlo, Hhi; revert HD Hlo Hhi.
  generalize (IZR d * IZR (2 ^ c) * 2 ^ k); intros D HD Hlo Hhi.
  split; apply (Rmult_le_reg_r D); try exact HD;
    replace (S2 * (IZR (Z.abs W) / D) * D) with (IZR (Z.abs W) * S2)
      by (field; lra); lra.
Qed.

Lemma arg_nonneg :
  (0 <= W)%Z -> IZR W / (IZR d * IZR (2 ^ c)) = INR (2 ^ k) * reduced_arg.
Proof.
  intros HW; unfold reduced_arg; rewrite Z.abs_eq by exact HW.
  rewrite pow_INR; change (INR 2) with 2; pose proof reduced_den_pos.
  assert (0 < 2 ^ k) by (apply pow_lt; lra).
  field; split; [lra|split; apply Rgt_not_eq; [
    apply IZR_lt, Z.pow_pos_nonneg; lia|apply IZR_lt; exact d_pos]].
Qed.

Lemma arg_neg :
  (W < 0)%Z -> IZR W / (IZR d * IZR (2 ^ c)) = INR (2 ^ k) * - reduced_arg.
Proof.
  intros HW; unfold reduced_arg; rewrite Z.abs_neq, opp_IZR by lia.
  rewrite pow_INR; change (INR 2) with 2; pose proof reduced_den_pos.
  assert (0 < 2 ^ k) by (apply pow_lt; lra).
  field; split; [lra|split; apply Rgt_not_eq; [
    apply IZR_lt, Z.pow_pos_nonneg; lia|apply IZR_lt; exact d_pos]].
Qed.

(** The enclosure holds. *)
Lemma exp_encl_sound (N : nat) (lo hi : Z) :
  exp_encl N k W d c = Some (lo, hi) ->
  encloses lo hi (exp (IZR W / (IZR d * IZR (2 ^ c)))).
Proof.
  unfold exp_encl; destruct reduced_encloses as [HY0 HY].
  pose proof scale_pos as HS.
  destruct (Z.leb_spec (2 ^ P) (reduced k W d c)) as [|Hy1]; [discriminate|].
  assert (reduced_arg <= 1) as Hle.
  { destruct HY as [_ Hh]; apply (Rmult_le_reg_l S2); [exact HS|].
    apply Rle_trans with (1 := Hh); rewrite Rmult_1_r; apply IZR_le; lia. }
  pose proof (exp_neg_sound _ _ _ HY0 HY N Hle) as He.
  destruct (exp_neg N _ _) as [l h]; cbn [fst snd] in He.
  destruct (Z.leb_spec l 0) as [|Hl]; [discriminate|].
  destruct (Z.leb_spec 0 W) as [HW|HW]; intros [= <- <-].
  - rewrite (arg_nonneg HW), exp_pow.
    destruct (recip_encloses l h _ Hl He) as [H0 Hr].
    rewrite exp_Ropp, Rinv_inv in Hr.
    apply sq_encloses; [exact H0|left; apply exp_pos|exact Hr].
  - rewrite (arg_neg HW), exp_pow.
    apply sq_encloses; [lia|left; apply exp_pos|exact He].
Qed.

End Argument.

End Fixed.
