(* ===== verification/Residual.v ===== *)
(** * Residual: the residual of the reference cell between two integers

    For the reference parameters the residual of line 30 at a voltage
    [V = Vn / D] and a current density [J = Jn / D], where [D = d * 2^c],
    is, multiplied by [10^12],

      [A / D + exp (W / (1551 * D))]

    with the integers [W = 50 * (1000 * Vn + Jn)] and
    [A = 1000000100000 * Jn + 10^8 * Vn - 30526387880001 * D].  With the
    exponential enclosed as in [Enclosure.v] this gives two integers that
    bound the residual, hence its sign, or its size, by a comparison of
    integers.  Fractions over a power of two are the doubles of
    [FloatReal.v]; fractions over a power of ten are the decimal voltages
    of [RefModel.v]. *)

From Stdlib Require Import ZArith Reals Lra Lia Bool.
From S2P Require Import Prelude Num Diode RealNum DiodeReal Enclosure.

Module Residual.

Local Abbreviation f V := (Cell.f V Cell.Jsc Cell.J0 Cell.n Cell.Rs Cell.Rsh).

(** Fractional bits, pairs of terms of the series, and squarings. *)
Definition bits : Z := 60.
Definition pairs : nat := 5.
Definition squarings : nat := 8.

Definition arg_num (Vn Jn : Z) : Z := (1000 * Vn + Jn) * 50.

Definition linear_num (Vn Jn D : Z) : Z :=
  1000000100000 * Jn + 100000000 * Vn - 30526387880001 * D.

(** Bounds of [10^12 * residual * D * 2^bits]. *)
Definition residual_encl (Vn Jn d c : Z) : option (Z * Z) :=
  let D := (d * 2 ^ c)%Z in
  let A := linear_num Vn Jn D in
  match exp_encl bits pairs squarings (arg_num Vn Jn) (1551 * d) c with
  | Some (Elo, Ehi) =>
      Some (A * 2 ^ bits + Elo * D, A * 2 ^ bits + Ehi * D)%Z
  | None => None
  end.

(** The residual is negative, positive, or at most [T * 1e-12] in absolute
    value. *)
Definition residual_negative (Vn Jn d c : Z) : bool :=
  match residual_encl Vn Jn d c with
  | Some (_, hi) => (hi <? 0)%Z
  | None => false
  end.

Definition residual_positive (Vn Jn d c : Z) : bool :=
  match residual_encl Vn Jn d c with
  | Some (lo, _) => (0 <? lo)%Z
  | None => false
  end.

Definition residual_within (T Vn Jn d c : Z) : bool :=
  match residual_encl Vn Jn d c with
  | Some (lo, hi) =>
      let M := (T * (d * 2 ^ c) * 2 ^ bits)%Z in
      ((- M <=? lo) && (hi <=? M))%Z
  | None => false
  end.

Local Open Scope R_scope.

Lemma bits_nonneg : (0 <= bits)%Z.
Proof. unfold bits; lia. Qed.

Lemma pow2_pos (a : Z) : (0 <= a)%Z -> 0 < IZR (2 ^ a).
Proof. intros Ha; apply IZR_lt, Z.pow_pos_nonneg; lia. Qed.

Section Point.
Variables Vn Jn d c : Z.
Hypothesis d_pos : (0 < d)%Z.
Hypothesis c_nonneg : (0 <= c)%Z.

Local Abbreviation D := (IZR (d * 2 ^ c)).
Local Abbreviation V := (IZR Vn / D).
Local Abbreviation J := (IZR Jn / D).

Lemma den_pos : 0 < D.
Proof. apply IZR_lt, Z.mul_pos_pos; [exact d_pos|apply Z.pow_pos_nonneg; lia]. Qed.

Lemma arg_real :
  IZR (arg_num Vn Jn) / (IZR (1551 * d) * IZR (2 ^ c))
  = Cell.diode_arg V Cell.n Cell.Rs J.
Proof.
  pose proof den_pos as HD; transitivity ((1000 * V + J) * 50 / 1551).
  - unfold arg_num; rewrite !mult_IZR, plus_IZR, mult_IZR in *.
    assert (0 < IZR d) by (apply IZR_lt; exact d_pos).
    pose proof (pow2_pos c c_nonneg); field; split; lra.
  - rewrite DiodeR.diode_arg_eq; cell_consts; lra.
Qed.

Lemma linear_real :
  IZR (linear_num Vn Jn (d * 2 ^ c)) / D
  = 1000000100000 * J + 100000000 * V - 30526387880001.
Proof.
  pose proof den_pos as HD; unfold linear_num.
  rewrite minus_IZR, plus_IZR, 3!mult_IZR; field; lra.
Qed.

(** [10^12] times the residual, in the form the integers bound. *)
Lemma residual_real :
  10 ^ 12 * f V J
  = IZR (linear_num Vn Jn (d * 2 ^ c)) / D
    + exp (IZR (arg_num Vn Jn) / (IZR (1551 * d) * IZR (2 ^ c))).
Proof.
  rewrite arg_real, linear_real, DiodeR.f_eq.
  generalize (exp (Cell.diode_arg V Cell.n Cell.Rs J)); intros E.
  cell_consts; lra.
Qed.

Lemma residual_encl_sound (lo hi : Z) :
  residual_encl Vn Jn d c = Some (lo, hi) ->
  IZR lo <= 10 ^ 12 * f V J * (D * IZR (2 ^ bits)) <= IZR hi.
Proof.
  unfold residual_encl.
  destruct (exp_encl bits pairs squarings _ _ c) as [[Elo Ehi]|] eqn:HE;
    [intros [= <- <-]|discriminate].
  apply (exp_encl_sound bits bits_nonneg squarings (arg_num Vn Jn)
           (1551 * d) c ltac:(lia) c_nonneg) in HE; destruct HE as [Hl Hh].
  pose proof den_pos as HD; pose proof (pow2_pos bits bits_nonneg) as HS.
  rewrite residual_real; revert Hl Hh HD.
  generalize (exp (IZR (arg_num Vn Jn) / (IZR (1551 * d) * IZR (2 ^ c)))).
  generalize (linear_num Vn Jn (d * 2 ^ c)); generalize (d * 2 ^ c)%Z.
  intros Dz A E Hl Hh HD; rewrite !plus_IZR, !mult_IZR.
  replace ((IZR A / IZR Dz + E) * (IZR Dz * IZR (2 ^ bits)))
    with (IZR A * IZR (2 ^ bits) + IZR (2 ^ bits) * E * IZR Dz)
    by (field; lra).
  split; apply Rplus_le_compat_l; apply Rmult_le_compat_r; lra.
Qed.

Lemma scale_cancel (x : R) : 0 < x -> 0 < D * IZR (2 ^ bits) * x.
Proof.
  intros Hx; pose proof den_pos; pose proof (pow2_pos bits bits_nonneg).
  apply Rmult_lt_0_compat; [apply Rmult_lt_0_compat|]; assumption.
Qed.

Lemma residual_negative_sound : residual_negative Vn Jn d c = true -> f V J < 0.
Proof.
  unfold residual_negative.
  destruct (residual_encl Vn Jn d c) as [[lo hi]|] eqn:HE; [|discriminate].
  intros H; apply Z.ltb_lt, IZR_lt in H.
  apply residual_encl_sound in HE as [_ Hh].
  pose proof (scale_cancel 1 ltac:(lra)); nra.
Qed.

Lemma residual_positive_sound : residual_positive Vn Jn d c = true -> 0 < f V J.
Proof.
  unfold residual_positive.
  destruct (residual_encl Vn Jn d c) as [[lo hi]|] eqn:HE; [|discriminate].
  intros H; apply Z.ltb_lt, IZR_lt in H.
  apply residual_encl_sound in HE as [Hl _].
  pose proof (scale_cancel 1 ltac:(lra)); nra.
Qed.

Lemma residual_within_sound (T : Z) :
  residual_within T Vn Jn d c = true -> Rabs (f V J) <= IZR T / 10 ^ 12.
Proof.
  unfold residual_within.
  destruct (residual_encl Vn Jn d c) as [[lo hi]|] eqn:HE; [|discriminate].
  intros H; apply andb_true_iff in H as [H1 H2].
  apply Z.leb_le, IZR_le in H1, H2; rewrite opp_IZR in H1.
  rewrite !mult_IZR in H1, H2; rewrite <- mult_IZR, Rmult_assoc in H1, H2.
  apply residual_encl_sound in HE as [Hl Hh].
  pose proof (scale_cancel 1 ltac:(lra)) as HM; rewrite Rmult_1_r in HM.
  revert HM H1 H2 Hl Hh; generalize (D * IZR (2 ^ bits)); intros M HM H1 H2 Hl Hh.
  assert (- IZR T <= 10 ^ 12 * f V J <= IZR T) as [Ha Hb]
    by (split; apply (Rmult_le_reg_r M); try exact HM; lra).
  apply Rabs_le; split; lra.
Qed.

End Point.

(** ** At a decimal point *)

Lemma positive_at (V J : R) (Vn Jn d : Z) :
  (0 < d)%Z -> V = IZR Vn / IZR d -> J = IZR Jn / IZR d ->
  residual_positive Vn Jn d 0 = true -> 0 < f V J.
Proof.
  intros Hd -> -> H.
  apply (residual_positive_sound _ _ d 0 Hd ltac:(lia)) in H.
  rewrite Z.pow_0_r, Z.mul_1_r in H; exact H.
Qed.

Lemma negative_at (V J : R) (Vn Jn d : Z) :
  (0 < d)%Z -> V = IZR Vn / IZR d -> J = IZR Jn / IZR d ->
  residual_negative Vn Jn d 0 = true -> f V J < 0.
Proof.
  intros Hd -> -> H.
  apply (residual_negative_sound _ _ d 0 Hd ltac:(lia)) in H.
  rewrite Z.pow_0_r, Z.mul_1_r in H; exact H.
Qed.

End Residual.
