(* ===== verification/RefModel.v ===== *)
(** * RefModel: the hard-coded figures against the model, over the reals

    [FloatRun.v] evaluates the run on binary64 and finds the marked points
    of the figure off the computed curve.  This file shows the same in exact
    arithmetic, where nothing depends on how the exponential is rounded: for
    the reference parameters the function returns about [-26.03] at the
    hard-coded [Voc], not zero, and about [18.51] at the hard-coded
    [V_MPP], not [J_MPP = 29.68].  It also bounds what the function returns
    at short circuit, and shows that the returned current does not increase
    with the voltage by more than the accuracy of the loop.

    The signs of the residual come from [Residual.v]. *)

From Stdlib Require Import ZArith Reals Lra Lia.
From S2P Require Import Prelude Num Diode Newton RealNum ConvexNewton.
From S2P Require Import DiodeReal DiodeRate Residual.

Local Open Scope R_scope.

Module RefModel.

Local Abbreviation sc V :=
  (Solver.solar_cell_current V Cell.Jsc Cell.J0 Cell.n Cell.Rs Cell.Rsh).
Local Abbreviation f V := (Cell.f V Cell.Jsc Cell.J0 Cell.n Cell.Rs Cell.Rsh).
Local Abbreviation df V := (Cell.df_val V Cell.J0 Cell.n Cell.Rs Cell.Rsh).

Lemma ref_convex (V : R) : ConvexIncreasing (f V) (df V).
Proof.
  exact (DiodeR.diode_convex V _ _ _ _ _ DiodeR.ref_J0_nonneg
           DiodeR.ref_Rs_nonneg DiodeR.ref_n_pos DiodeR.ref_Rsh_pos).
Qed.

Lemma root_exists (V : R) : exists r, f V r = 0.
Proof.
  exact (DiodeR.diode_root_exists V Cell.Jsc _ _ _ _ DiodeR.ref_J0_nonneg
           DiodeR.ref_Rs_nonneg DiodeR.ref_n_pos DiodeR.ref_Rsh_pos).
Qed.

(** The residual increases with the voltage. *)
Lemma residual_increasing_in_V (V1 V2 J : R) : V1 <= V2 -> f V1 J <= f V2 J.
Proof.
  apply DiodeR.f_increasing_in_V;
    [exact DiodeR.ref_J0_nonneg|exact DiodeR.ref_n_pos|
     exact DiodeR.ref_Rsh_pos].
Qed.

(** A point where the residual is positive is above the operating point. *)
Lemma root_below (V J r : R) : 0 < f V J -> f V r = 0 -> r < J.
Proof.
  intros HJ Hr; pose proof (ref_convex V) as HC.
  destruct (Rlt_or_le r J) as [Hlt|Hle]; [exact Hlt|].
  pose proof (f_increasing (f V) (df V) J r Hle); lra.
Qed.

(** ** The marked points *)

Lemma Voc_in_range : - 0.1 <= Cell.Voc /\ Cell.Voc <= Cell.Voc + 0.05.
Proof. cell_consts; lra. Qed.

Lemma V_MPP_in_range : - 0.1 <= Cell.V_MPP /\ Cell.V_MPP <= Cell.Voc + 0.05.
Proof. cell_consts; lra. Qed.

Lemma residual_at_Voc : f Cell.Voc (- 26.03) < 0 < f Cell.Voc (- 26.02).
Proof.
  split.
  - apply (Residual.negative_at _ _ 1008312 (- 26030000) 1000000);
      [lia|cell_consts; lra|lra|vm_compute; reflexivity].
  - apply (Residual.positive_at _ _ 1008312 (- 26020000) 1000000);
      [lia|cell_consts; lra|lra|vm_compute; reflexivity].
Qed.

Lemma residual_at_V_MPP : f Cell.V_MPP 18.51 < 0 < f Cell.V_MPP 18.52.
Proof.
  split.
  - apply (Residual.negative_at _ _ 915723 18510000 1000000);
      [lia|cell_consts; lra|lra|vm_compute; reflexivity].
  - apply (Residual.positive_at _ _ 915723 18520000 1000000);
      [lia|cell_consts; lra|lra|vm_compute; reflexivity].
Qed.

(** A point where the residual is negative is below the operating point. *)
Lemma root_above (V J r : R) : f V J < 0 -> f V r = 0 -> J < r.
Proof.
  intros HJ Hr; pose proof (ref_convex V) as HC.
  destruct (Rlt_or_le J r) as [Hlt|Hle]; [exact Hlt|].
  pose proof (f_increasing (f V) (df V) r J Hle); lra.
Qed.

(** What the function returns is between two points where the residual
    has opposite signs, up to the accuracy of the loop. *)
Lemma result_between (V Ja Jb J : R) :
  - 0.1 <= V -> V <= Cell.Voc + 0.05 ->
  f V Ja < 0 -> 0 < f V Jb -> sc V = Ok J -> Ja < J < Jb + 2e-20.
Proof.
  intros Hlo Hhi Hneg Hpos HJ.
  destruct (root_exists V) as [r Hr].
  pose proof (RefRate.ref_result_near_root V Hlo Hhi r J Hr HJ).
  pose proof (root_below V Jb r Hpos Hr).
  pose proof (root_above V Ja r Hneg Hr); lra.
Qed.

(** C34. The hard-coded figures are off the model curve in exact arithmetic:
    for the reference parameters the call at the hard-coded [Voc] returns a
    current density between [-26.03] and [-26.02] (an open circuit would
    be [0]), and the call at the hard-coded [V_MPP] returns between [18.51]
    and [18.53], while the marked maximum power point is at
    [J_MPP = 29.68]. *)
Theorem hard_coded_points_off_real_curve :
  (exists J, sc Cell.Voc = Ok J /\ - 26.03 < J < - 26.01) /\
  (exists J, sc Cell.V_MPP = Ok J /\ 18.51 < J < 18.53 /\ 29.68 < Cell.J_MPP).
Proof.
  split.
  - destruct (DiodeR.solar_cell_current_real Cell.Voc Cell.Jsc Cell.J0 Cell.n
                Cell.Rs Cell.Rsh DiodeR.ref_n_pos DiodeR.ref_Rsh_pos)
      as (j & _ & HJ).
    eexists; split; [exact HJ|].
    pose proof (result_between _ _ _ _ (proj1 Voc_in_range)
                  (proj2 Voc_in_range) (proj1 residual_at_Voc)
                  (proj2 residual_at_Voc) HJ); lra.
  - destruct (DiodeR.solar_cell_current_real Cell.V_MPP Cell.Jsc Cell.J0
                Cell.n Cell.Rs Cell.Rsh DiodeR.ref_n_pos DiodeR.ref_Rsh_pos)
      as (j & _ & HJ).
    eexists; split; [exact HJ|].
    pose proof (result_between _ _ _ _ (proj1 V_MPP_in_range)
                  (proj2 V_MPP_in_range) (proj1 residual_at_V_MPP)
                  (proj2 residual_at_V_MPP) HJ).
    split; [lra|cell_consts; lra].
Qed.

(** ** Monotonicity of what the function returns *)

(** C22. Monotonicity of the solver on the range of the sweep, over the
    reals: for two voltages [V1 <= V2] of the range the current returned at
    [V2] exceeds the one returned at [V1] by less than [2e-20], the accuracy
    of the loop. *)
Theorem reference_solver_monotone_up_to_tolerance (V1 V2 J1 J2 : R) :
  - 0.1 <= V1 -> V1 <= V2 -> V2 <= Cell.Voc + 0.05 ->
  sc V1 = Ok J1 -> sc V2 = Ok J2 -> J2 < J1 + 2e-20.
Proof.
  intros Hlo H12 Hhi HJ1 HJ2.
  destruct (root_exists V1) as [r1 Hr1]; destruct (root_exists V2) as [r2 Hr2].
  pose proof (RefRate.ref_result_near_root V1 Hlo ltac:(lra) r1 J1 Hr1 HJ1).
  pose proof (RefRate.ref_result_near_root V2 ltac:(lra) Hhi r2 J2 Hr2 HJ2).
  assert (r2 <= r1); [|lra].
  pose proof (ref_convex V2) as HC; apply (f_le_inv (f V2) (df V2)).
  rewrite Hr2, <- Hr1.
  apply DiodeR.f_increasing_in_V;
    auto using DiodeR.ref_J0_nonneg, DiodeR.ref_n_pos, DiodeR.ref_Rsh_pos.
Qed.

(** ** Short circuit *)

Lemma residual_at_short_circuit : 0 <= f 0 Cell.Jsc <= 3.1e-6.
Proof.
  split.
  - apply DiodeR.f_Jsc_nonneg;
      auto using DiodeR.ref_J0_nonneg, DiodeR.ref_n_pos, DiodeR.ref_Rsh_pos.
    cell_consts; lra.
  - rewrite DiodeR.f_at_Jsc.
    assert (exp (Cell.diode_arg 0 Cell.n Cell.Rs Cell.Jsc) <= 3) as He.
    { apply Rle_trans with (exp 1); [apply exp_le|apply exp_le_3].
      rewrite DiodeR.diode_arg_eq; cell_consts; lra. }
    revert He; generalize (exp (Cell.diode_arg 0 Cell.n Cell.Rs Cell.Jsc)).
    cell_consts; intros E HE; lra.
Qed.

(** C33. Short circuit with the reference parameters, over the reals: at
    [V = 0] the call returns a current density that is at most [Jsc] and
    less than [3.1e-6] below it (the drop across the series resistance,
    through the shunt). *)
Theorem reference_short_circuit_current :
  exists J, sc 0 = Ok J /\ Cell.Jsc - 3.1e-6 <= J <= Cell.Jsc.
Proof.
  destruct (DiodeR.solar_cell_current_real 0 Cell.Jsc Cell.J0 Cell.n Cell.Rs
              Cell.Rsh DiodeR.ref_n_pos DiodeR.ref_Rsh_pos) as (j & _ & HJ).
  destruct (root_exists 0) as [r Hr]; pose proof (ref_convex 0) as HC.
  destruct residual_at_short_circuit as [Hlo Hhi].
  eexists; split; [exact HJ|].
  destruct (newton_iter_from_above (f 0) (df 0) r (S j) Cell.Jsc Hr Hlo)
    as [Hge Hle].
  assert (r <= Cell.Jsc) as Hr' by (apply (f_le_inv (f 0) (df 0)); lra).
  pose proof (error_le_residual (f 0) (df 0) r Cell.Jsc
                (DiodeR.df_ge_1 0 _ _ _ _ DiodeR.ref_J0_nonneg
                   DiodeR.ref_Rs_nonneg DiodeR.ref_n_pos DiodeR.ref_Rsh_pos)
                Hr Hr').
  lra.
Qed.

(** ** Witnesses *)

Lemma reference_solver_monotone_up_to_tolerance_witness :
  exists J1 J2, sc 0 = Ok J1 /\ sc 0.5 = Ok J2 /\ J2 < J1 + 2e-20.
Proof.
  destruct (DiodeR.solar_cell_current_real 0 Cell.Jsc Cell.J0 Cell.n Cell.Rs
              Cell.Rsh DiodeR.ref_n_pos DiodeR.ref_Rsh_pos) as (j1 & _ & H1).
  destruct (DiodeR.solar_cell_current_real 0.5 Cell.Jsc Cell.J0 Cell.n Cell.Rs
              Cell.Rsh DiodeR.ref_n_pos DiodeR.ref_Rsh_pos) as (j2 & _ & H2).
  do 2 eexists; split; [exact H1|split; [exact H2|]].
  apply (reference_solver_monotone_up_to_tolerance 0 0.5 _ _);
    [lra|lra|exact (proj2 RefRate.ref_half_volt_in_range)|exact H1|exact H2].
Defined.

End RefModel.
