(* ===== verification/CapReal.v ===== *)
(** * CapReal: beyond the sweep the cap of 100 iterations is reached

    [FloatRun.v] evaluates the call at [V = 5] on binary64 and finds that
    none of the 100 iterations meets the step test.  This file shows that
    the same holds over the reals, for every voltage from 5 to 10 volt, so
    that it is a property of the iteration and not of rounding.  There the
    operating point is below [-3700], the first guess [Jsc] is more than
    120 steps of [n*Vt/Rs] above it, and far above the root an update moves
    by about one such step: after 100 updates the iterate is still more
    than 500 mA/cm2 above the operating point, and every step taken was
    larger than 15 mA/cm2.  The function returns that iterate as an
    ordinary value. *)

From Stdlib Require Import ZArith Reals Lra Lia.
From S2P Require Import Prelude Num Diode Newton RealNum ConvexNewton.
From S2P Require Import DiodeReal DiodeRate Residual RefModel.

Local Open Scope R_scope.

Module CapReal.

Lemma INR_100 : INR 100 = 100.
Proof. rewrite INR_IZR_INZ; reflexivity. Qed.

Lemma residual_at_5 :
  0 < Cell.f 5 Cell.Jsc Cell.J0 Cell.n Cell.Rs Cell.Rsh (- 3700).
Proof.
  apply (Residual.positive_at _ _ 5000 (- 3700000) 1000);
    [lia|lra|lra|vm_compute; reflexivity].
Qed.

Section Far.
Variable V : R.
Hypothesis V_lo : 5 <= V.
Hypothesis V_hi : V <= 10.

Local Abbreviation f := (Cell.f V Cell.Jsc Cell.J0 Cell.n Cell.Rs Cell.Rsh).
Local Abbreviation df := (Cell.df_val V Cell.J0 Cell.n Cell.Rs Cell.Rsh).
Local Abbreviation N := (newton f df).
Local Abbreviation a := (Cell.Rs / (Cell.n * Cell.Vt)).

Let convex : ConvexIncreasing f df := RefModel.ref_convex V.
#[local] Existing Instance convex.

(** The operating point is below [-3700]. *)
Lemma far_root (r : R) : f r = 0 -> r <= - 3700.
Proof.
  intros Hr; apply (f_le_inv f df); rewrite Hr.
  pose proof (RefModel.residual_increasing_in_V 5 V (- 3700) V_lo).
  pose proof residual_at_5; lra.
Qed.

Lemma far_start : 0 <= f Cell.Jsc.
Proof.
  apply DiodeR.f_Jsc_nonneg;
    auto using DiodeR.ref_J0_nonneg, DiodeR.ref_n_pos, DiodeR.ref_Rsh_pos.
  revert V_lo; cell_consts; lra.
Qed.

(** The slope at a point at or above the root, from the exponential at the
    root and its tangent. *)
Lemma far_slope (r x : R) :
  f r = 0 -> r <= x -> 120 * (1 + a * (x - r)) <= df x.
Proof.
  intros Hr Hx; pose proof (far_root r Hr) as Hlo; pose proof RefRate.ref_scale.
  pose proof (exp_tangent (Cell.diode_arg V Cell.n Cell.Rs r)
                (Cell.diode_arg V Cell.n Cell.Rs x)) as Ht.
  rewrite (DiodeR.diode_arg_diff V Cell.n Cell.Rs DiodeR.ref_n_pos) in Ht.
  rewrite DiodeR.f_eq in Hr; rewrite DiodeR.df_eq.
  assert (0 <= a * (x - r)) as Hd by (apply Rmult_le_pos; lra).
  revert Hr Ht; generalize (exp (Cell.diode_arg V Cell.n Cell.Rs r)).
  generalize (exp (Cell.diode_arg V Cell.n Cell.Rs x)); intros Ex Er Hr Ht.
  set (d := a * (x - r)) in *; clearbody d.
  assert (3730 * 10 ^ 12 <= Er) as HEr
    by (revert Hr Hlo V_hi; cell_consts; intros; lra).
  assert (3730 * 10 ^ 12 * (1 + d) <= Ex) as HEx
    by (apply Rle_trans with (Er * (1 + d));
        [apply Rmult_le_compat_r; lra|exact Ht]).
  revert H; cell_consts; intros Ha.
  assert (0.0322 * (3730 * (1 + d)) <= 1e-12 * 0.001 / (1.2 * 0.02585) * Ex);
    [|lra].
  lra.
Qed.

(** Far above the root one update lowers the scaled error by at most
    [1.01]. *)
Lemma far_retreat (r x : R) :
  f r = 0 -> r <= x -> 1 <= a * (x - r) -> a * (x - r) - 1.01 <= a * (N x - r).
Proof.
  intros Hr Hx Hd; pose proof (far_slope r x Hr Hx) as Hs.
  pose proof (DiodeRate.newton_error_lower V Cell.Jsc _ _ _ _
                DiodeR.ref_J0_nonneg DiodeR.ref_Rs_nonneg DiodeR.ref_n_pos
                DiodeR.ref_Rsh_pos r x Hr) as Hl.
  apply Rmult_le_reg_l with (df x); [lra|].
  apply Rle_trans with (2 := Hl).
  assert (Cell.Rs / Cell.Rsh <= 1e-6) by (cell_consts; lra).
  set (d := a * (x - r)) in *; clearbody d; nra.
Qed.

(** After [k <= 100] updates the scaled error is still at least
    [120 - 1.01 * k]. *)
Lemma far_scaled_error (r : R) (k : nat) :
  f r = 0 -> (k <= 100)%nat ->
  120 - 1.01 * INR k <= a * (newton_iter f df k Cell.Jsc - r).
Proof.
  intros Hr; induction k as [|k IH]; intros Hk.
  - pose proof (far_root r Hr); pose proof RefRate.ref_scale.
    cbn [newton_iter INR]; revert H; cell_consts; intros; nra.
  - specialize (IH ltac:(lia)); rewrite newton_iter_S_r, S_INR.
    destruct (newton_iter_from_above f df r k _ Hr far_start) as [Hge _].
    assert (INR k <= 99) as HK
      by (apply le_INR in Hk; rewrite S_INR, INR_100 in Hk; lra).
    pose proof (far_retreat r _ Hr Hge ltac:(lra)); fold f df in *; lra.
Qed.

(** No iteration meets the step test: each step exceeds [15]. *)
Lemma far_not_converged (k : nat) :
  (k < 100)%nat ->
  Solver.converged V Cell.Jsc Cell.J0 Cell.n Cell.Rs Cell.Rsh
    (newton_iter f df k Cell.Jsc) = false.
Proof.
  intros Hk; destruct (RefModel.root_exists V) as [r Hr].
  pose proof (far_scaled_error r k Hr ltac:(lia)) as Hd.
  assert (INR k <= 99) as HK
    by (apply (le_INR (S k)) in Hk; rewrite S_INR, INR_100 in Hk; lra).
  destruct (newton_iter_from_above f df r k _ Hr far_start) as [Hge _].
  set (x := newton_iter f df k Cell.Jsc) in *.
  pose proof (DiodeRate.error_before_le_step V Cell.Jsc _ _ _ _
                DiodeR.ref_J0_nonneg DiodeR.ref_Rs_nonneg DiodeR.ref_n_pos
                DiodeR.ref_Rsh_pos r x Hr Hge) as He; fold f df in He.
  pose proof RefRate.ref_scale as Ha.
  destruct (Solver.converged _ _ _ _ _ _ x) eqn:Hc; [|reflexivity].
  apply DiodeR.converged_real in Hc; rewrite DiodeR.tol_real in Hc.
  apply Rabs_def2 in Hc; fold f df in Hc; exfalso.
  assert (a * (x - r) <= (1 + a * (x - r)) * (a * (x - N x))) by nra.
  nra.
Qed.

(** The hundredth update is more than 500 above the root, and so is its
    residual, the slope being at least one. *)
Lemma far_result (r : R) :
  f r = 0 ->
  500 < newton_iter f df 100 Cell.Jsc - r /\
  500 < f (newton_iter f df 100 Cell.Jsc).
Proof.
  intros Hr; pose proof (far_scaled_error r 100 Hr (Nat.le_refl _)) as Hd.
  rewrite INR_100 in Hd; pose proof RefRate.ref_scale as Ha.
  destruct (newton_iter_from_above f df r 100 _ Hr far_start) as [Hge _].
  pose proof (error_le_residual f df r _
                (DiodeR.df_ge_1 V _ _ _ _ DiodeR.ref_J0_nonneg
                   DiodeR.ref_Rs_nonneg DiodeR.ref_n_pos DiodeR.ref_Rsh_pos)
                Hr Hge) as He.
  assert (500 < newton_iter f df 100 Cell.Jsc - r) by nra; split; lra.
Qed.

End Far.

(** C18. The cap of 100 iterations is reached over the reals: for the
    reference parameters and every voltage from 5 to 10 volt, none of the
    100 iterations meets the step test, and the call returns the hundredth
    update as an ordinary value, which is more than 500 mA/cm2 above the
    operating point of the diode equation and leaves a residual of more
    than 500 in line 30, where the output contract of the specification
    asks for less than the tolerance. *)
Theorem real_cap_reached_without_notice (V : R) :
  5 <= V -> V <= 10 ->
  exists r J,
    Cell.f V Cell.Jsc Cell.J0 Cell.n Cell.Rs Cell.Rsh r = 0 /\
    (forall j, (j < 100)%nat ->
       Solver.converged V Cell.Jsc Cell.J0 Cell.n Cell.Rs Cell.Rsh
         (Solver.iterate V Cell.Jsc Cell.J0 Cell.n Cell.Rs Cell.Rsh j Cell.Jsc)
       = false) /\
    Solver.stops_at V Cell.Jsc Cell.J0 Cell.n Cell.Rs Cell.Rsh 100 99 Cell.Jsc /\
    Solver.solar_cell_current V Cell.Jsc Cell.J0 Cell.n Cell.Rs Cell.Rsh = Ok J /\
    500 < J - r /\
    500 < Cell.f V Cell.Jsc Cell.J0 Cell.n Cell.Rs Cell.Rsh J.
Proof.
  intros V_lo V_hi; destruct (RefModel.root_exists V) as [r Hr].
  assert (forall j, (j < 100)%nat ->
            Solver.converged V Cell.Jsc Cell.J0 Cell.n Cell.Rs Cell.Rsh
              (Solver.iterate V Cell.Jsc Cell.J0 Cell.n Cell.Rs Cell.Rsh j
                 Cell.Jsc) = false) as Hno
    by (intros j Hj; rewrite DiodeR.iterate_real;
        exact (far_not_converged V V_lo V_hi j Hj)).
  destruct (Solver.solar_cell_current_exhausted V Cell.Jsc Cell.J0 Cell.n
              Cell.Rs Cell.Rsh
              (DiodeR.divisors_ok_params _ _ DiodeR.ref_n_pos DiodeR.ref_Rsh_pos)
              Hno) as [Hs HJ].
  pose proof (far_result V V_lo V_hi r Hr) as [He Hf].
  rewrite <- DiodeR.iterate_real in He, Hf.
  exists r; eexists; repeat split; [exact Hr|exact Hno|apply Hs|apply Hs
                                    |apply Hs|exact HJ|exact He|exact Hf].
Qed.

Lemma real_cap_reached_without_notice_witness :
  exists r J,
    Cell.f 5 Cell.Jsc Cell.J0 Cell.n Cell.Rs Cell.Rsh r = 0 /\
    (forall j, (j < 100)%nat ->
       Solver.converged 5 Cell.Jsc Cell.J0 Cell.n Cell.Rs Cell.Rsh
         (Solver.iterate 5 Cell.Jsc Cell.J0 Cell.n Cell.Rs Cell.Rsh j Cell.Jsc)
       = false) /\
    Solver.stops_at 5 Cell.Jsc Cell.J0 Cell.n Cell.Rs Cell.Rsh 100 99 Cell.Jsc /\
    Solver.solar_cell_current 5 Cell.Jsc Cell.J0 Cell.n Cell.Rs Cell.Rsh = Ok J /\
    500 < J - r /\
    500 < Cell.f 5 Cell.Jsc Cell.J0 Cell.n Cell.Rs Cell.Rsh J.
Proof.
  apply (real_cap_reached_without_notice 5); lra.
Defined.

End CapReal.
