(* ===== verification/FloatNum.v ===== *)
(** * FloatNum: the script read over IEEE binary64

    The instance [Float_Num] interprets the interface [Num] by Rocq's
    primitive binary64 floats, the arithmetic of Python's [float] and of
    numpy's [float64]: the four operations are correctly rounded to nearest
    even, [==] and [<] are the IEEE comparisons, and the conversion of an
    [int] rounds to nearest even.  Every definition of the development
    evaluates at this instance.

    numpy's [exp] is library code outside the repository.  [FloatExp.exp]
    stands for it: the classic double-precision algorithm (reduction by a
    multiple of [ln 2] split in two parts, a degree-5 rational
    approximation, scaling by a power of two), with the IEEE special cases.
    It is faithful (within one unit in the last place); the theorems that
    evaluate the solver on floats are statements about the run with this
    exponential.  [FloatExp.exp_ref] is an independent evaluation in 128-bit
    fixed point, rounded once, against which [exp] is compared. *)

From Stdlib Require Import ZArith Floats Bool Lia List.
From S2P Require Import Prelude Num.
Import ListNotations.

Local Open Scope Z_scope.

(** [int -> float]: rounding to nearest even, as Python converts. *)
Definition float_of_Z (z : Z) : float :=
  SF2Prim (binary_normalize prec emax z 0 false).

(** [float -> int], truncating toward zero (C's conversion). *)
Definition Z_of_float (x : float) : Z :=
  match Prim2SF x with
  | S754_finite s m e =>
      let v := Z.shiftl (Zpos m) e in if s then - v else v
  | _ => 0
  end.

Module FloatExp.

Local Open Scope float_scope.

(** ** The double-precision algorithm *)

Definition o_threshold : float := 0x1.62e42fefa39efp+9.
Definition u_threshold : float := -0x1.74910d52d3051p+9.
Definition ln2HI : float := 0x1.62e42feep-1.
Definition ln2LO : float := 0x1.a39ef35793c76p-33.
Definition invln2 : float := 0x1.71547652b82fep+0.
Definition P1 : float := 0x1.555555555553ep-3.
Definition P2 : float := -0x1.6c16c16bebd93p-9.
Definition P3 : float := 0x1.1566aaf25de2cp-14.
Definition P4 : float := -0x1.bbd41c5d26bf1p-20.
Definition P5 : float := 0x1.6376972bea4dp-25.

(** Argument reduction: [x = k*ln2 + (hi - lo)] with [|hi - lo| <= ln2/2]. *)
Definition reduce (x : float) : Z * float * float :=
  let neg := x <? 0 in
  if abs x <? 0x1.0a2b2p+0 then
    if neg then ((-1)%Z, x + ln2HI, - ln2LO) else (1%Z, x - ln2HI, ln2LO)
  else
    let k := Z_of_float (invln2 * x + (if neg then -0.5 else 0.5)) in
    let t := float_of_Z k in
    (k, x - t * ln2HI, t * ln2LO).

(** The correction term of the rational approximation of [exp r]. *)
Definition poly (r : float) : float :=
  let t := r * r in
  r - t * (P1 + t * (P2 + t * (P3 + t * (P4 + t * P5)))).

Definition exp (x : float) : float :=
  if is_nan x then x
  else if o_threshold <? x then infinity
  else if x <? u_threshold then 0
  else if 0x1.62e43p-2 <=? abs x then
    let '(k, hi, lo) := reduce x in
    let r := hi - lo in
    let c := poly r in
    let y := 1 - ((lo - (r * c) / (2 - c)) - hi) in
    if (-1021 <=? k)%Z then Z.ldexp y k
    else Z.ldexp y (k + 1000) * 0x1p-1000
  else if abs x <? 0x1p-28 then 1 + x
  else
    let c := poly x in
    1 - ((x * c) / (c - 2) - x).

(** ** The reference evaluation *)

Local Open Scope Z_scope.

(** Fractional bits of the fixed-point evaluation. *)
Definition P : Z := 128.

(** [atanh_series fuel k pw acc den2]: partial sums of
    [sum x^(2i+1)/(2i+1)], with [pw] the current odd power of [x]. *)
Fixpoint atanh_series (fuel : nat) (k pw acc den2 : Z) : Z :=
  match fuel with
  | O => acc
  | S fuel' =>
      atanh_series fuel' (k + 2) (pw / den2) (acc + pw / k) den2
  end.

(** [ln 2 = 2 atanh (1/3)], in units of [2^-P]. *)
Definition LN2 : Z :=
  Eval vm_compute in 2 * atanh_series 50 1 (2 ^ P / 3) 0 9.

(** [exp_series fuel i term acc r]: the Taylor sum of [exp r] from the term
    of index [i] on, [r] and the terms in units of [2^-P]. *)
Fixpoint exp_series (fuel : nat) (i term acc r : Z) : Z :=
  match fuel with
  | O => acc
  | S fuel' =>
      let term' := Z.shiftr (term * r) P / i in
      exp_series fuel' (i + 1) term' (acc + term') r
  end.

(** The finite value [(-1)^s * m * 2^e] in units of [2^-P], rounded down. *)
Definition to_fixed (s : bool) (m : positive) (e : Z) : Z :=
  let v := Z.shiftl (Zpos m) (e + P) in
  if s then - v else v.

(** [exp] of a finite argument of moderate size: reduce by a multiple [k]
    of [ln 2], sum the series, scale by [2^k] and round once. *)
Definition exp_finite (s : bool) (m : positive) (e : Z) : float :=
  let X := to_fixed s m e in
  let k := (2 * X + LN2) / (2 * LN2) in
  let r := X - k * LN2 in
  let T := exp_series 32 1 (Z.shiftl 1 P) (Z.shiftl 1 P) r in
  SF2Prim (binary_normalize prec emax T (k - P) false).

Definition exp_ref (x : float) : float :=
  match Prim2SF x with
  | S754_nan => nan
  | S754_infinity false => infinity
  | S754_infinity true => zero
  | S754_zero _ => one
  | S754_finite s m e =>
      if PrimFloat.leb 710 x then infinity
      else if PrimFloat.leb x (-746) then zero
      else exp_finite s m e
  end.

(** [within_ulp x y]: [x] is [y] or one of its two neighbours. *)
Definition within_ulp (x y : float) : bool :=
  PrimFloat.eqb x y || PrimFloat.eqb x (next_up y)
  || PrimFloat.eqb x (next_down y).

End FloatExp.

#[export] Instance Float_Num : Num float := {|
  num_of_Z := float_of_Z;
  nadd := PrimFloat.add;
  nsub := PrimFloat.sub;
  nmul := PrimFloat.mul;
  ndiv := PrimFloat.div;
  nopp := PrimFloat.opp;
  nabs := PrimFloat.abs;
  nexp := FloatExp.exp;
  nltb := PrimFloat.ltb;
  neqb := PrimFloat.eqb
|}.

(** ** The exponential on special values and against the reference *)

Local Open Scope float_scope.

Lemma exp_special_values :
  FloatExp.exp 0 = 1 /\ FloatExp.exp (-0) = 1 /\
  FloatExp.exp infinity = infinity /\ FloatExp.exp neg_infinity = 0 /\
  FloatExp.exp nan = nan /\
  FloatExp.exp 710 = infinity /\ FloatExp.exp (-746) = 0.
Proof. repeat split; reflexivity. Qed.

(** Forty arguments spanning the range the solver passes to [np.exp] on
    the sweep (from -9.5 to 36.8). *)
Definition exp_samples : list float :=
  map (fun i => float_of_Z (Z.of_nat i - 8) * 0x1.3p+0) (seq 0 40).

Lemma exp_within_ulp_of_reference :
  forallb (fun x => FloatExp.within_ulp (FloatExp.exp x) (FloatExp.exp_ref x))
    exp_samples = true.
Proof. vm_cast_no_check (eq_refl true). Qed.
