(* ===== verification/Sweep.v ===== *)
(** * Sweep: the voltage grid and the two curves (lines 43-45, 78, 86-87)

    [V_range] is the grid of 500 voltages, [J_range] the current densities
    the solver returns on it and [P_range] their product with the voltage.
    The figure's axis limits are the only other values the script computes
    from these arrays.

    [linspace] models [numpy.linspace] with its default [endpoint=True]:
    numpy is not part of the repository, so the definition follows numpy's
    documented algorithm ([start + i*step] with [step = (stop-start)/(num-1)],
    the last sample overwritten by [stop]). *)

From Stdlib Require Import ZArith List Lia.
From S2P Require Import Prelude Num Diode Newton.
Import ListNotations.

Module Sweep.

Section WithNum.
Context {F : Type} `{Num F}.
Local Open Scope num_scope.

(** ** numpy.linspace *)

(** The samples before the endpoint is fixed: [arange(0, num) * step + start],
    or [arange(0, num) / div * delta + start] when the step rounds to zero. *)
Definition linspace_raw (start stop : F) (num : nat) : list F :=
  let div := num_of_Z (Z.of_nat (num - 1)) in
  let delta := stop - start in
  let step := delta / div in
  let y := map (fun i => num_of_Z (Z.of_nat i)) (seq 0 num) in
  let y := match num with
           | 0%nat | 1%nat => map (fun yi => yi * delta) y
           | _ => if step =? num_of_Z 0
                  then map (fun yi => yi / div * delta) y
                  else map (fun yi => yi * step) y
           end in
  map (fun yi => yi + start) y.

Definition linspace (start stop : F) (num : nat) : list F :=
  let y := linspace_raw start stop num in
  match num with
  | 0%nat | 1%nat => y
  | _ => removelast y ++ [stop]
  end.

(** ** The arrays of the script *)

(** Line 43. *)
Definition V_range : list F :=
  linspace (- dec 1 1) (Cell.Voc + dec 5 2) 500.

(** The call [solar_cell_current(V)] of line 44: every other parameter
    takes its default, the module constant of the same name (line 20). *)
Definition solar_cell_current_default (V : F) : result F :=
  Solver.solar_cell_current V Cell.Jsc Cell.J0 Cell.n Cell.Rs Cell.Rsh.

(** Line 44: the list comprehension; an exception in any call aborts it. *)
Definition J_range : result (list F) :=
  map_result solar_cell_current_default V_range.

(** Line 45: element-wise product of two arrays of the same shape. *)
Definition P_range : result (list F) :=
  (Js <- J_range ;; Ok (zip_with nmul V_range Js))%py.

(** The operating point of the specification at one voltage: the solved
    current and the derived power [V * J]. *)
Definition operating_point_power (V : F) : result F :=
  (J <- solar_cell_current_default V ;; Ok (V * J))%py.

(** ** Axis limits (lines 78, 86, 87) *)

(** Python's built-in [max] on a sequence: the first element, replaced by
    each later element that compares greater; [ValueError] on an empty one. *)
Definition py_max (l : list F) : result F :=
  match l with
  | [] => Raise ValueError
  | x :: l' => Ok (fold_left (fun m y => if m <? y then y else m) l' x)
  end.

(** Line 78: [[0, max(P_range)*1.1]]. *)
Definition power_ylim : result (F * F) :=
  (Ps <- P_range ;; m <- py_max Ps ;; Ok (num_of_Z 0, m * dec 11 1))%py.

(** Line 86: [[-0.1, Voc + 0.05]]. *)
Definition current_xlim : F * F := (- dec 1 1, Cell.Voc + dec 5 2).

(** Line 87: [[-2, Jsc * 1.1]]. *)
Definition current_ylim : F * F := (- num_of_Z 2, Cell.Jsc * dec 11 1).

(** ** Shape of the arrays *)

Lemma linspace_raw_length (start stop : F) (num : nat) :
  length (linspace_raw start stop num) = num.
Proof.
  unfold linspace_raw; rewrite length_map.
  destruct num as [|[|num]]; [reflexivity|reflexivity|].
  destruct (_ =? _); rewrite !length_map, length_seq; reflexivity.
Qed.

Lemma linspace_length (start stop : F) (num : nat) :
  length (linspace start stop num) = num.
Proof.
  unfold linspace; pose proof (linspace_raw_length start stop num) as Hl.
  destruct num as [|[|num]]; try exact Hl.
  rewrite length_app; cbn [length].
  destruct (linspace_raw start stop (S (S num))) as [|y ys]; [discriminate|].
  rewrite removelast_firstn_len, length_firstn; cbn [length] in *; lia.
Qed.

(** The endpoint is the [stop] argument itself, not a rounded sum. *)
Lemma linspace_last (start stop d : F) (num : nat) :
  last (linspace start stop (S (S num))) d = stop.
Proof. unfold linspace; apply last_last. Qed.

Lemma V_range_length : length V_range = 500%nat.
Proof. apply linspace_length. Qed.

Lemma J_range_length (Js : list F) : J_range = Ok Js -> length Js = 500%nat.
Proof.
  intros HJ; rewrite (map_result_length _ _ _ HJ); apply V_range_length.
Qed.

Lemma P_range_length (Ps : list F) : P_range = Ok Ps -> length Ps = 500%nat.
Proof.
  unfold P_range; destruct J_range as [Js|e] eqn:HJ; cbn [bind]; [|discriminate].
  intros [= <-]; rewrite zip_with_length; [apply V_range_length|].
  rewrite V_range_length; symmetry; apply (J_range_length _ HJ).
Qed.

(** ** The sweep on each branch *)

(** With non-zero divisors every call returns, and so does the sweep. *)
Lemma J_range_Ok :
  Cell.divisors_ok Cell.n Cell.Rsh = true -> exists Js, J_range = Ok Js.
Proof.
  intros Hok; apply map_result_total; intros V _.
  destruct (Solver.solar_cell_current_Ok V Cell.Jsc Cell.J0 Cell.n Cell.Rs
              Cell.Rsh Hok) as (j & _ & Hr).
  eexists; exact Hr.
Qed.

(** With a zero divisor the first call raises, and the sweep with it. *)
Lemma J_range_Raise :
  Cell.divisors_ok Cell.n Cell.Rsh = false ->
  J_range = Raise ZeroDivisionError.
Proof.
  intros Hok; unfold J_range; pose proof V_range_length as Hl.
  destruct V_range as [|V Vs]; [discriminate|].
  apply map_result_Raise_head, Solver.solar_cell_current_Raise, Hok.
Qed.

(** [max] of a non-empty sequence returns. *)
Lemma py_max_Ok (l : list F) : l <> [] -> exists m, py_max l = Ok m.
Proof. destruct l as [|x l]; [congruence|intros _; eexists; reflexivity]. Qed.

(** Line 78 never raises [ValueError]: the array has 500 elements. *)
Lemma power_ylim_Ok (Js : list F) :
  J_range = Ok Js ->
  exists m, py_max (zip_with nmul V_range Js) = Ok m /\
            power_ylim = Ok (num_of_Z 0, m * dec 11 1).
Proof.
  intros HJ; assert (P_range = Ok (zip_with nmul V_range Js)) as HP
    by (unfold P_range; rewrite HJ; reflexivity).
  pose proof (P_range_length _ HP) as Hl.
  destruct (py_max_Ok (zip_with nmul V_range Js)) as [m Hm].
  - intros Hnil; rewrite Hnil in Hl; discriminate.
  - exists m; split; [exact Hm|].
    unfold power_ylim; rewrite HP; cbn [bind]; rewrite Hm; reflexivity.
Qed.


End WithNum.

End Sweep.
