(* ===== verification/SweepReal.v ===== *)
(** * SweepReal: the sweep over the reals

    Over the reals the grid of line 43 is the evenly spaced one, so every
    voltage of [V_range] lies in the range on which [DiodeRate.v] bounds the
    loop.  The results of that file then hold of every entry of [J_range]:
    the sweep returns, and each current is within [2e-20] of the operating
    point at its voltage. *)

From Stdlib Require Import ZArith Reals Lra Lia List.
From S2P Require Import Prelude Num Diode Newton RealNum ConvexNewton.
From S2P Require Import DiodeReal DiodeRate Sweep.
Import ListNotations.

Local Open Scope R_scope.

Module SweepR.

(** Over the reals every sample of [linspace] is [start + i * step] for an
    index [i] below [num], or the endpoint [stop]. *)
Lemma linspace_In (start stop : R) (num : nat) (V : R) :
  start <> stop -> (2 <= num)%nat ->
  In V (Sweep.linspace start stop num) ->
  V = stop \/
  exists i, (i < num)%nat /\ V = INR i * ((stop - start) / INR (num - 1)) + start.
Proof.
  intros Hne Hnum HV; unfold Sweep.linspace in HV.
  destruct num as [|[|num]]; [lia|lia|].
  apply in_app_or in HV as [HV|[<-|[]]]; [right|left; reflexivity].
  apply in_removelast in HV; unfold Sweep.linspace_raw in HV; num_real.
  assert (0 < INR (S (S num) - 1)) as Hd by (apply lt_0_INR; lia).
  rewrite <- INR_IZR_INZ in HV.
  destruct (Reqb ((stop - start) / INR (S (S num) - 1)) 0) eqn:Hz.
  - apply Reqb_true_iff in Hz; exfalso; apply Hne.
    apply Rmult_eq_compat_r with (r := INR (S (S num) - 1)) in Hz.
    unfold Rdiv in Hz; rewrite Rmult_assoc, Rinv_l, Rmult_0_l in Hz; lra.
  - rewrite !map_map in HV; apply in_map_iff in HV as (i & <- & Hi).
    apply in_seq in Hi; exists i; split; [lia|].
    rewrite <- INR_IZR_INZ; reflexivity.
Qed.

Lemma V_range_bounds (V : R) :
  In V Sweep.V_range -> - 0.1 <= V /\ V <= Cell.Voc + 0.05.
Proof.
  intros HV; unfold Sweep.V_range in HV.
  apply linspace_In in HV; [|cell_consts; lra|lia].
  change (INR (500 - 1)) with (INR 499) in HV.
  assert (INR 499 = 499) as E by (rewrite INR_IZR_INZ; reflexivity).
  rewrite E in HV; revert HV; cell_consts; intros [->|(i & Hi & ->)]; [lra|].
  assert (0 <= INR i <= 499) as Hb.
  { split; [apply pos_INR|rewrite <- E; apply le_INR; lia]. }
  set (x := INR i) in *; clearbody x; lra.
Qed.

(** C15. The sweep over the reals: [J_range] returns 500 current densities,
    and each of them is at or above the operating point of the diode
    equation at its grid voltage and less than [2e-20] above it. *)
Theorem real_sweep_within_tolerance :
  exists Js,
    Sweep.J_range = Ok Js /\ length Js = 500%nat /\
    Forall2 (fun V J =>
               exists r, Cell.f V Cell.Jsc Cell.J0 Cell.n Cell.Rs Cell.Rsh r = 0
                         /\ 0 <= J - r < 2e-20)
            Sweep.V_range Js.
Proof.
  destruct (Sweep.J_range_Ok (F := R)) as [Js HJ].
  { apply DiodeR.divisors_ok_params;
      [exact DiodeR.ref_n_pos|exact DiodeR.ref_Rsh_pos]. }
  exists Js; split; [exact HJ|split; [exact (Sweep.J_range_length Js HJ)|]].
  apply map_result_Forall2 in HJ; revert HJ; apply Forall2_impl_In.
  intros V J HV Hsc; destruct (V_range_bounds V HV) as [Hlo Hhi].
  destruct (DiodeR.diode_root_exists V Cell.Jsc _ _ _ _ DiodeR.ref_J0_nonneg
              DiodeR.ref_Rs_nonneg DiodeR.ref_n_pos DiodeR.ref_Rsh_pos)
    as [r Hr].
  exists r; split; [exact Hr|exact (RefRate.ref_result_near_root V Hlo Hhi r J Hr Hsc)].
Qed.

End SweepR.
