(* ===== verification/Format.v ===== *)
(** * Format: Python's fixed-point float formatting ([f"{x:.3f}"])

    The plot labels and the report format floats with the presentation
    types [.1f], [.2f] and [.3f].  CPython prints the digits of the exact
    binary value, correctly rounded to the requested number of decimals
    with ties to even; a sign is printed for negative values, negative zero
    included, and the non-finite values print as [inf], [-inf] and [nan].

    [Fmt.format_spec] is this conversion on the sign, mantissa and exponent
    of a binary64 value; the class [Fmt] is the interface through which the
    generic definitions of [Report.v] format a number, and [Float_Fmt] its
    instance on primitive floats. *)

From Stdlib Require Import ZArith Lia String Ascii Floats Bool.
From S2P Require Import Prelude.

(** The formatting a number type offers to the report. *)
Class Fmt (F : Type) : Type := {
  format_f : nat -> F -> string   (* [format(x, ".<d>f")] *)
}.

Module Fmt.

Local Open Scope Z_scope.

(** ** Rounding a quotient to the nearest integer, ties to even *)

Definition round_half_even (a b : Z) : Z :=
  let q := a / b in
  let r := a mod b in
  match 2 * r ?= b with
  | Lt => q
  | Gt => q + 1
  | Eq => if Z.even q then q else q + 1
  end.

(** [|x| * 10^d] rounded to an integer, for [|x| = m * 2^e]. *)
Definition scaled (d : nat) (m : positive) (e : Z) : Z :=
  if 0 <=? e then Zpos m * 2 ^ e * 10 ^ Z.of_nat d
  else round_half_even (Zpos m * 10 ^ Z.of_nat d) (2 ^ (- e)).

(** ** Digits *)

Definition digit_char (v : Z) : ascii := ascii_of_nat (Z.to_nat (48 + v)).

(** The last [k] decimal digits of [n], most significant first, put in
    front of [acc]. *)
Fixpoint fixed_width (k : nat) (n : Z) (acc : string) : string :=
  match k with
  | O => acc
  | S k' => fixed_width k' (n / 10) (String (digit_char (n mod 10)) acc)
  end.

(** The number of decimal digits of [n], 1 for zero. *)
Fixpoint ndigits_fuel (fuel : nat) (n : Z) : nat :=
  match fuel with
  | O => 1
  | S fuel' => if n <? 10 then 1%nat else S (ndigits_fuel fuel' (n / 10))
  end.

Definition ndigits (n : Z) : nat := ndigits_fuel (Z.to_nat (Z.log2 n)) n.

(** The decimal digits of a natural number, ["0"] for zero. *)
Definition digits (n : Z) : string := fixed_width (ndigits n) n EmptyString.

Local Open Scope string_scope.

(** The scaled integer [N] printed with [d] decimals. *)
Definition fixed_digits (d : nat) (N : Z) : string :=
  let p := (10 ^ Z.of_nat d)%Z in
  digits (N / p) ++
  match d with
  | O => ""
  | S _ => String "." (fixed_width d (N mod p) "")
  end.

Definition sign (s : bool) : string := if s then "-" else "".

(** [format(x, ".<d>f")] on the decoded value. *)
Definition format_spec (d : nat) (x : spec_float) : string :=
  match x with
  | S754_nan => "nan"
  | S754_infinity s => sign s ++ "inf"
  | S754_zero s => sign s ++ fixed_digits d 0
  | S754_finite s m e => sign s ++ fixed_digits d (scaled d m e)
  end.

Local Open Scope Z_scope.

(** ** Reading back *)

Definition digit_val (c : ascii) : option Z :=
  let k := Z.of_nat (nat_of_ascii c) - 48 in
  if (0 <=? k) && (k <? 10) then Some k else None.

(** Reads digits into the accumulator [a]; stops at the end of the string
    or at a point, returning what follows the point. *)
Fixpoint read_digits (a : Z) (s : string) : option (Z * option string) :=
  match s with
  | EmptyString => Some (a, None)
  | String c s' =>
      if Ascii.eqb c "." then Some (a, Some s')
      else match digit_val c with
           | Some v => read_digits (10 * a + v) s'
           | None => None
           end
  end.

(** The integer [N] such that the text is [N / 10^d] written with exactly
    [d] decimals. *)
Definition parse_fixed (d : nat) (s : string) : option Z :=
  match read_digits 0 s with
  | Some (i, None) => if Nat.eqb d 0 then Some i else None
  | Some (i, Some f) =>
      if Nat.eqb (String.length f) d && negb (Nat.eqb d 0) then
        match read_digits 0 f with
        | Some (r, None) => Some (i * 10 ^ Z.of_nat d + r)
        | _ => None
        end
      else None
  | None => None
  end.

(** A formatted finite number read back: its sign and scaled integer. *)
Definition parse_f (d : nat) (s : string) : option (bool * Z) :=
  match s with
  | EmptyString => None
  | String c s' =>
      if Ascii.eqb c "-" then option_map (pair true) (parse_fixed d s')
      else option_map (pair false) (parse_fixed d s)
  end.

(** What a formatted value determines of the number: the sign and the
    scaled integer of a finite value, nothing of [inf] and [nan]. *)
Definition decode (d : nat) (x : spec_float) : option (bool * Z) :=
  match x with
  | S754_zero s => Some (s, 0)
  | S754_finite s m e => Some (s, scaled d m e)
  | _ => None
  end.

(** ** Rounding is to nearest *)

Local Open Scope Z_scope.

(** The rounded quotient is within half a unit of the exact one. *)
Lemma round_half_even_nearest (a b : Z) :
  0 < b -> Z.abs (2 * (a - b * round_half_even a b)) <= b.
Proof.
  intros Hb; unfold round_half_even.
  pose proof (Z.div_mod a b ltac:(lia)) as Hdm.
  pose proof (Z.mod_pos_bound a b Hb) as Hr.
  destruct (Z.compare_spec (2 * (a mod b)) b);
    [destruct (Z.even (a / b))|..]; lia.
Qed.

(** A tie is resolved to the even neighbour. *)
Lemma round_half_even_tie (a b : Z) :
  0 < b -> 2 * (a mod b) = b -> Z.even (round_half_even a b) = true.
Proof.
  intros Hb Ht; unfold round_half_even; rewrite Ht, Z.compare_refl.
  destruct (Z.even (a / b)) eqn:He; [exact He|].
  rewrite Z.even_add, He; reflexivity.
Qed.

(** An exact quotient is not moved. *)
Lemma round_half_even_exact (q b : Z) :
  0 < b -> round_half_even (q * b) b = q.
Proof.
  intros Hb; unfold round_half_even.
  rewrite Z.div_mul, Z.mod_mul by lia.
  destruct (Z.compare_spec (2 * 0) b); [lia|reflexivity|lia].
Qed.

(** ** Reading back what was printed *)

Lemma digit_val_char (v : Z) :
  0 <= v < 10 ->
  digit_val (digit_char v) = Some v /\ Ascii.eqb (digit_char v) "." = false.
Proof.
  intros Hv.
  assert (v = 0 \/ v = 1 \/ v = 2 \/ v = 3 \/ v = 4 \/ v = 5 \/ v = 6 \/
          v = 7 \/ v = 8 \/ v = 9) as Hc by lia.
  repeat (destruct Hc as [->|Hc]; [split; reflexivity|]); subst; split; reflexivity.
Qed.

(** Reading [k] printed digits shifts the accumulator by [k] places. *)
Lemma read_fixed_width (k : nat) (n a : Z) (acc : string) :
  0 <= n ->
  read_digits a (fixed_width k n acc)
  = read_digits (a * 10 ^ Z.of_nat k + n mod 10 ^ Z.of_nat k) acc.
Proof.
  revert n acc; induction k as [|k IH]; intros n acc Hn.
  - cbn [fixed_width Z.of_nat]; rewrite Z.pow_0_r, Z.mod_1_r; f_equal; lia.
  - cbn [fixed_width]; rewrite IH by (apply Z.div_pos; lia).
    destruct (digit_val_char (n mod 10)) as [Hv Hd];
      [apply Z.mod_pos_bound; lia|].
    cbn [read_digits]; rewrite Hd, Hv; f_equal.
    rewrite Nat2Z.inj_succ, Z.pow_succ_r by lia.
    rewrite (Z.rem_mul_r n 10 (10 ^ Z.of_nat k)) by lia; ring.
Qed.

Lemma ndigits_fuel_bound (fuel : nat) (n : Z) :
  0 <= n < 10 * 2 ^ Z.of_nat fuel ->
  n < 10 ^ Z.of_nat (ndigits_fuel fuel n).
Proof.
  revert n; induction fuel as [|fuel IH]; intros n Hn.
  - cbn in *; lia.
  - cbn [ndigits_fuel]; destruct (Z.ltb_spec n 10) as [Hlt|Hge]; [cbn; lia|].
    rewrite Nat2Z.inj_succ, Z.pow_succ_r in * by lia.
    assert (n / 10 < 10 ^ Z.of_nat (ndigits_fuel fuel (n / 10))) as Hq.
    { apply IH; split; [apply Z.div_pos; lia|].
      apply Z.div_lt_upper_bound; lia. }
    pose proof (Z.div_mod n 10 ltac:(lia)); pose proof (Z.mod_pos_bound n 10).
    lia.
Qed.

Lemma ndigits_bound (n : Z) : 0 <= n -> n < 10 ^ Z.of_nat (ndigits n).
Proof.
  intros Hn; apply ndigits_fuel_bound; split; [exact Hn|].
  destruct (Z.eq_dec n 0) as [->|Hnz]; [cbn; lia|].
  rewrite Z2Nat.id by apply Z.log2_nonneg.
  pose proof (Z.log2_spec n ltac:(lia)) as Hl.
  rewrite Z.pow_succ_r in Hl by apply Z.log2_nonneg; lia.
Qed.

Lemma read_digits_number (n a : Z) (acc : string) :
  0 <= n ->
  read_digits a (fixed_width (ndigits n) n acc)
  = read_digits (a * 10 ^ Z.of_nat (ndigits n) + n) acc.
Proof.
  intros Hn; rewrite read_fixed_width by exact Hn.
  rewrite Z.mod_small by (split; [exact Hn|apply ndigits_bound, Hn]).
  reflexivity.
Qed.

Lemma fixed_width_app (k : nat) (n : Z) (acc t : string) :
  (fixed_width k n acc ++ t)%string = fixed_width k n (acc ++ t)%string.
Proof.
  revert n acc; induction k as [|k IH]; intros n acc; [reflexivity|].
  cbn [fixed_width]; rewrite IH; reflexivity.
Qed.

Lemma fixed_width_length (k : nat) (n : Z) (acc : string) :
  String.length (fixed_width k n acc) = (k + String.length acc)%nat.
Proof.
  revert n acc; induction k as [|k IH]; intros n acc; [reflexivity|].
  cbn [fixed_width]; rewrite IH; cbn; lia.
Qed.

Lemma fixed_digits_roundtrip (d : nat) (N : Z) :
  0 <= N -> parse_fixed d (fixed_digits d N) = Some N.
Proof.
  intros HN; unfold parse_fixed, fixed_digits, digits.
  assert (0 < 10 ^ Z.of_nat d) as Hp by (apply Z.pow_pos_nonneg; lia).
  assert (0 <= N / 10 ^ Z.of_nat d) as Hq by (apply Z.div_pos; lia).
  rewrite fixed_width_app, read_digits_number by exact Hq.
  destruct d as [|d].
  - cbn [read_digits append Nat.eqb]; rewrite Z.pow_0_r, Z.div_1_r; f_equal; lia.
  - cbn [read_digits append]; change (Ascii.eqb "." ".") with true; cbn iota.
    rewrite fixed_width_length, Nat.add_0_r, Nat.eqb_refl; cbn [andb negb Nat.eqb].
    rewrite read_fixed_width by (apply Z.mod_pos_bound; lia).
    cbn [read_digits]; rewrite Z.mod_mod by lia; f_equal.
    pose proof (Z.div_mod N (10 ^ Z.of_nat (S d)) ltac:(lia)); lia.
Qed.

Lemma digit_char_not_minus (v : Z) :
  0 <= v < 10 -> Ascii.eqb (digit_char v) "-" = false.
Proof.
  intros Hv.
  assert (v = 0 \/ v = 1 \/ v = 2 \/ v = 3 \/ v = 4 \/ v = 5 \/ v = 6 \/
          v = 7 \/ v = 8 \/ v = 9) as Hc by lia.
  repeat (destruct Hc as [->|Hc]; [reflexivity|]); subst; reflexivity.
Qed.

(** Printed digits begin with a digit. *)
Lemma fixed_width_head (k : nat) (n : Z) (acc : string) :
  exists c rest,
    fixed_width (S k) n acc = String c rest /\ Ascii.eqb c "-" = false.
Proof.
  revert n acc; induction k as [|k IH]; intros n acc.
  - exists (digit_char (n mod 10)), acc; split; [reflexivity|].
    apply digit_char_not_minus, Z.mod_pos_bound; lia.
  - exact (IH (n / 10) (String (digit_char (n mod 10)) acc)).
Qed.

Lemma ndigits_pos (n : Z) : exists k, ndigits n = S k.
Proof.
  unfold ndigits; destruct (Z.to_nat (Z.log2 n)) as [|fuel]; cbn;
    [|destruct (n <? 10)]; eexists; reflexivity.
Qed.

Lemma fixed_digits_head (d : nat) (N : Z) :
  exists c rest, fixed_digits d N = String c rest /\ Ascii.eqb c "-" = false.
Proof.
  unfold fixed_digits, digits.
  destruct (ndigits_pos (N / 10 ^ Z.of_nat d)) as [k ->].
  rewrite fixed_width_app; apply fixed_width_head.
Qed.

Lemma scaled_nonneg (d : nat) (m : positive) (e : Z) : 0 <= scaled d m e.
Proof.
  assert (0 < 10 ^ Z.of_nat d) as Hp by (apply Z.pow_pos_nonneg; lia).
  unfold scaled, round_half_even; destruct (Z.leb_spec 0 e) as [He|He].
  - assert (0 < 2 ^ e) by (apply Z.pow_pos_nonneg; lia); nia.
  - assert (0 <= Z.pos m * 10 ^ Z.of_nat d / 2 ^ (- e))
      by (apply Z.div_pos; [nia|apply Z.pow_pos_nonneg; lia]).
    destruct (_ ?= _); [destruct (Z.even _)|..]; lia.
Qed.

(** Reading back a sign and an unsigned text. *)
Lemma parse_f_sign (d : nat) (s : bool) (N : Z) :
  0 <= N -> parse_f d (sign s ++ fixed_digits d N) = Some (s, N).
Proof.
  intros HN; pose proof (fixed_digits_roundtrip d N HN) as Hrt.
  destruct s; cbn [sign append]; unfold parse_f.
  - change (Ascii.eqb "-" "-") with true; cbn iota; rewrite Hrt; reflexivity.
  - destruct (fixed_digits_head d N) as (c & rest & Heq & Hc).
    rewrite Heq in Hrt |- *; rewrite Hc, Hrt; reflexivity.
Qed.


(** Formatting rounds to nearest: for a finite value [m * 2^e] the
    integer printed by [format_spec] with [d] decimals is a nearest integer
    to [m * 2^e * 10^d]; it is exact when the value is an integer. *)
Theorem scaled_is_nearest (d : nat) (m : positive) (e : Z) :
  let den := 2 ^ Z.max 0 (- e) in
  let num := Zpos m * 2 ^ Z.max 0 e in
  Z.abs (2 * (num * 10 ^ Z.of_nat d - den * scaled d m e)) <= den.
Proof.
  cbv zeta; unfold scaled; destruct (Z.leb_spec 0 e) as [He|He].
  - rewrite (Z.max_l 0 (- e)), (Z.max_r 0 e) by lia.
    rewrite Z.pow_0_r; replace (2 * _) with 0 by ring; cbn; lia.
  - rewrite (Z.max_r 0 (- e)), (Z.max_l 0 e) by lia.
    rewrite Z.pow_0_r, Z.mul_1_r.
    apply round_half_even_nearest, Z.pow_pos_nonneg; lia.
Qed.

End Fmt.

(** ** The instance on binary64 *)

#[export] Instance Float_Fmt : Fmt float := {|
  format_f d x := Fmt.format_spec d (Prim2SF x)
|}.
