(* ===== verification/Report.v ===== *)
(** * Report: the labels of the figure and the console report

    Models the text the script produces: the legend labels of the marked
    points (lines 58-65), the title (lines 81-83), the parameter box (lines
    95-103) and the sixteen [print] calls (lines 113-128).  The figures in
    the text are the measured constants and products and quotients of them;
    none comes from the solver.

    The definitions are generic in the arithmetic [Num F] and the
    formatting [Fmt F]; strings are the UTF-8 bytes written. *)

From Stdlib Require Import ZArith List String.
From S2P Require Import Prelude Num Diode Format.
Import ListNotations.

Module Report.

Section WithNum.
Context {F : Type} `{Num F} `{Fmt F}.
Local Open Scope num_scope.
Local Open Scope string_scope.

(** The literal [100] of the percentages: a Python [int]. *)
Definition hundred : F := num_of_Z 100.

(** ** Legend labels (lines 58-65) *)

Definition label_Voc : string := "Voc = " ++ format_f 3 Cell.Voc ++ " V".

Definition label_Jsc : string := "Jsc = " ++ format_f 2 Cell.Jsc ++ " mA/cm²".

Definition label_MPP : string :=
  "MPP: (" ++ format_f 3 Cell.V_MPP ++ " V, " ++ format_f 2 Cell.J_MPP
  ++ " mA/cm²)".

Definition label_max_power : string :=
  "Max Power: " ++ format_f 2 (Cell.V_MPP * Cell.J_MPP) ++ " mW/cm²".

(** ** Title (lines 81-83) *)

Definition title : string :=
  "Current-Voltage (J-V) Characteristics of GaAs p-i-n Solar Cell" ++ newline
  ++ "Efficiency (η) = " ++ format_f 2 (Cell.eta * hundred)
  ++ "% | Fill Factor (FF) = " ++ format_f 2 (Cell.FF * hundred) ++ "%".

(** ** Parameter box (lines 95-103) *)

Definition textstr : string :=
  join newline
    [ "Voc = " ++ format_f 3 Cell.Voc ++ " V";
      "Jsc = " ++ format_f 2 Cell.Jsc ++ " mA/cm²";
      "FF = " ++ format_f 2 (Cell.FF * hundred) ++ "%";
      "η = " ++ format_f 2 (Cell.eta * hundred) ++ "%";
      "V_MPP = " ++ format_f 3 Cell.V_MPP ++ " V";
      "J_MPP = " ++ format_f 2 Cell.J_MPP ++ " mA/cm²";
      "GaAs p-i-n Solar Cell" ].

(** ** Console report (lines 113-128) *)

(** The two quotients of lines 119 and 120 divide Python floats. *)
Definition percent_of (x y : F) : result F :=
  (q <- pydiv x y ;; Ok (q * hundred))%py.

Definition report_lines : list (result string) :=
  [ Ok "=== SOLAR CELL PERFORMANCE ANALYSIS ===";
    Ok ("1. Open-Circuit Voltage (Voc): " ++ format_f 3 Cell.Voc ++ " V");
    Ok ("2. Short-Circuit Current Density (Jsc): " ++ format_f 2 Cell.Jsc
        ++ " mA/cm²");
    Ok ("3. Fill Factor (FF): " ++ format_f 2 (Cell.FF * hundred) ++ "%");
    Ok ("4. Efficiency (η): " ++ format_f 2 (Cell.eta * hundred) ++ "%");
    Ok "5. Maximum Power Point:";
    (p <- percent_of Cell.V_MPP Cell.Voc ;;
     Ok ("   - Voltage (V_MPP): " ++ format_f 3 Cell.V_MPP ++ " V ("
         ++ format_f 1 p ++ "% of Voc)"))%py;
    (p <- percent_of Cell.J_MPP Cell.Jsc ;;
     Ok ("   - Current (J_MPP): " ++ format_f 2 Cell.J_MPP ++ " mA/cm² ("
         ++ format_f 1 p ++ "% of Jsc)"))%py;
    Ok ("   - Power Density: " ++ format_f 3 (Cell.V_MPP * Cell.J_MPP)
        ++ " mW/cm²");
    Ok ("6. Theoretical Maximum Power: "
        ++ format_f 3 (Cell.Voc * Cell.Jsc * Cell.FF) ++ " mW/cm²");
    Ok "7. GaAs p-i-n Solar Cell with ~2 µm active layer";
    Ok (newline ++ "=== PERFORMANCE EVALUATION ===");
    Ok "✓ Excellent efficiency (>27%)";
    Ok "✓ Outstanding fill factor (>88%)";
    Ok "✓ Very high current density (>30 mA/cm²)";
    Ok "✓ Competitive with state-of-the-art GaAs cells" ].

(** The lines written to standard output, and how the script ends. *)
Definition report : list string * result unit := print_all report_lines.

(** The only expressions of the report that can raise are the two
    quotients, and they raise [ZeroDivisionError]. *)
Lemma percent_of_Raise (x y : F) (e : exn) :
  percent_of x y = Raise e -> e = ZeroDivisionError.
Proof.
  unfold percent_of; destruct (pydiv_cases x y) as [[-> _]|[-> _]]; cbn;
    [discriminate|intros [= <-]; reflexivity].
Qed.

Lemma report_Raise (e : exn) : snd report = Raise e -> e = ZeroDivisionError.
Proof.
  unfold report, report_lines; cbn [print_all].
  destruct (percent_of Cell.V_MPP Cell.Voc) as [p|e1] eqn:H1; cbn;
    [|intros [= <-]; exact (percent_of_Raise _ _ _ H1)].
  destruct (percent_of Cell.J_MPP Cell.Jsc) as [q|e2] eqn:H2; cbn;
    [discriminate|intros [= <-]; exact (percent_of_Raise _ _ _ H2)].
Qed.

End WithNum.

End Report.
