(* ===== verification/World.v ===== *)
(** * World: the effects of the script

    Outside its arithmetic the script does two things: it calls methods of
    matplotlib objects (lines 47-110) and it prints (lines 113-128).  Both
    are modelled as data.  A [call] records the receiver, the method and the
    arguments of one library call, as Python values; the [world] is the
    sequence of calls made and lines written so far, in order.

    A statement is a function from the world to the new world and a
    [result]: the monad [io].  An exception stops a sequence and leaves the
    world as it was when it was raised, which is what an uncaught Python
    exception does to a figure under construction and to the lines already
    printed.  The class [Appends] states that a statement only adds to the
    world; its instances let type-class resolution prove it of a whole
    program. *)

From Stdlib Require Import ZArith List String Relations RelationClasses.
From S2P Require Import Prelude.
Import ListNotations.

#[local] Set Warnings "-register-all".

Section Values.
Context {F : Type}.

(** ** Python values that cross the library boundary *)

Inductive value : Type :=
| VFloat (x : F)
| VInt (z : Z)
| VStr (s : string)
| VBool (b : bool)
| VArray (xs : list F)                 (* a numpy array *)
| VList (vs : list value)              (* a list or a tuple *)
| VDict (kvs : list (string * value))
| VRef (name : string)                 (* an attribute of a library object *)
| VArtist (k : nat).                   (* the artist the k-th call created *)

(** One library call: [receiver.method(args, kwargs)]. *)
Record call : Type := Call {
  receiver : string;
  method : string;
  args : list value;
  kwargs : list (string * value)
}.

(** What the process does, in order: a library call or a line written to
    standard output. *)
Inductive event : Type :=
| Lib (c : call)
| Out (s : string).

(** The world is the sequence of events so far. *)
Definition world : Type := list event.

Fixpoint calls (w : world) : list call :=
  match w with
  | [] => []
  | Lib c :: w' => c :: calls w'
  | Out _ :: w' => calls w'
  end.

Fixpoint stdout (w : world) : list string :=
  match w with
  | [] => []
  | Lib _ :: w' => stdout w'
  | Out s :: w' => s :: stdout w'
  end.

(** ** Statements *)

Definition io (A : Type) : Type := world -> world * result A.

Definition io_ret {A : Type} (a : A) : io A := fun w => (w, Ok a).

Definition io_bind {A B : Type} (m : io A) (k : A -> io B) : io B :=
  fun w => match m w with
           | (w', Ok a) => k a w'
           | (w', Raise e) => (w', Raise e)
           end.

(** An expression that may raise and has no effect. *)
Definition lift {A : Type} (r : result A) : io A := fun w => (w, r).

(** A library call made for its effect. *)
Definition emit (c : call) : io unit := fun w => (w ++ [Lib c], Ok tt).

(** A library call made for its answer, which the library computes from
    the calls it has received before. *)
Definition query {A : Type} (c : call) (answer : list call -> A) : io A :=
  fun w => (w ++ [Lib c], Ok (answer (calls w))).

(** [print(s)]. *)
Definition print (s : string) : io unit := fun w => (w ++ [Out s], Ok tt).

(** Statements in sequence. *)
Fixpoint seq_io (ms : list (io unit)) : io unit :=
  match ms with
  | [] => io_ret tt
  | m :: ms' => io_bind m (fun _ => seq_io ms')
  end.

(** A sequence of [print] calls whose arguments may raise. *)
Definition print_lines (ls : list (result string)) : io unit :=
  seq_io (map (fun l => io_bind (lift l) print) ls).

(** ** The world only grows *)

Definition extends (w w' : world) : Prop := exists t, w' = w ++ t.

Class Appends {A : Type} (m : io A) : Prop :=
  appends : forall w, extends w (fst (m w)).

Lemma extends_refl (w : world) : extends w w.
Proof. exists []; rewrite app_nil_r; reflexivity. Qed.

Lemma extends_trans (w1 w2 w3 : world) :
  extends w1 w2 -> extends w2 w3 -> extends w1 w3.
Proof.
  intros [t ->] [t' ->]; exists (t ++ t'); rewrite app_assoc; reflexivity.
Qed.

#[export] Instance extends_preorder : PreOrder extends.
Proof. split; [exact extends_refl|exact extends_trans]. Qed.

Lemma calls_app (w w' : world) : calls (w ++ w') = calls w ++ calls w'.
Proof.
  induction w as [|[c|s] w IH]; cbn; [reflexivity|f_equal; exact IH|exact IH].
Qed.

Lemma stdout_app (w w' : world) : stdout (w ++ w') = stdout w ++ stdout w'.
Proof.
  induction w as [|[c|s] w IH]; cbn; [reflexivity|exact IH|f_equal; exact IH].
Qed.

Lemma calls_map_Lib (cs : list call) : calls (map Lib cs) = cs.
Proof. induction cs as [|c cs IH]; cbn; [reflexivity|f_equal; exact IH]. Qed.

Lemma stdout_map_Out (ss : list string) : stdout (map Out ss) = ss.
Proof. induction ss as [|x ss IH]; cbn; [reflexivity|f_equal; exact IH]. Qed.

Lemma calls_map_Out (ss : list string) : calls (map Out ss) = [].
Proof. induction ss as [|x ss IH]; cbn; [reflexivity|exact IH]. Qed.

Lemma stdout_map_Lib (cs : list call) : stdout (map Lib cs) = [].
Proof. induction cs as [|c cs IH]; cbn; [reflexivity|exact IH]. Qed.

#[export] Instance io_ret_appends {A : Type} (a : A) : Appends (io_ret a).
Proof. intros w; reflexivity. Qed.

#[export] Instance lift_appends {A : Type} (r : result A) : Appends (lift r).
Proof. intros w; reflexivity. Qed.

#[export] Instance emit_appends (c : call) : Appends (emit c).
Proof. intros w; exists [Lib c]; reflexivity. Qed.

#[export] Instance query_appends {A : Type} (c : call)
  (answer : list call -> A) : Appends (query c answer).
Proof. intros w; exists [Lib c]; reflexivity. Qed.

#[export] Instance print_appends (s : string) : Appends (print s).
Proof. intros w; exists [Out s]; reflexivity. Qed.

#[export] Instance io_bind_appends {A B : Type} (m : io A) (k : A -> io B) :
  Appends m -> (forall a, Appends (k a)) -> Appends (io_bind m k).
Proof.
  intros Hm Hk w; unfold io_bind; specialize (Hm w).
  destruct (m w) as [w' [a|e]]; cbn in *; [|exact Hm].
  etransitivity; [exact Hm|exact (Hk a w')].
Qed.

#[export] Instance seq_io_nil_appends : Appends (seq_io []).
Proof. apply io_ret_appends. Qed.

#[export] Instance seq_io_cons_appends (m : io unit) (ms : list (io unit)) :
  Appends m -> Appends (seq_io ms) -> Appends (seq_io (m :: ms)).
Proof. intros Hm Hms; apply io_bind_appends; [exact Hm|intros _; exact Hms]. Qed.

#[export] Instance seq_io_emit_appends (cs : list call) :
  Appends (seq_io (map emit cs)).
Proof. induction cs as [|c cs IH]; cbn [map]; exact _. Qed.

#[export] Instance print_lines_appends (ls : list (result string)) :
  Appends (print_lines ls).
Proof.
  unfold print_lines; induction ls as [|l ls IH]; cbn [map]; exact _.
Qed.

(** ** Laws of sequencing *)

Lemma io_bind_ret_l {A B : Type} (a : A) (k : A -> io B) (w : world) :
  io_bind (io_ret a) k w = k a w.
Proof. reflexivity. Qed.

Lemma io_bind_ret_r {A : Type} (m : io A) (w : world) :
  io_bind m io_ret w = m w.
Proof. unfold io_bind; destruct (m w) as [w' [a|e]]; reflexivity. Qed.

Lemma io_bind_assoc {A B C : Type} (m : io A) (k : A -> io B) (h : B -> io C)
  (w : world) :
  io_bind (io_bind m k) h w = io_bind m (fun a => io_bind (k a) h) w.
Proof. unfold io_bind; destruct (m w) as [w' [a|e]]; reflexivity. Qed.

(** An exception in a statement is the outcome of the sequence, and nothing
    after it runs. *)
Lemma io_bind_Raise {A B : Type} (m : io A) (k : A -> io B) (w w' : world)
  (e : exn) :
  m w = (w', Raise e) -> io_bind m k w = (w', Raise e).
Proof. unfold io_bind; intros ->; reflexivity. Qed.

Lemma io_bind_Ok {A B : Type} (m : io A) (k : A -> io B) (w w' : world)
  (a : A) :
  m w = (w', Ok a) -> io_bind m k w = k a w'.
Proof. unfold io_bind; intros ->; reflexivity. Qed.

Lemma seq_io_app (ms ms' : list (io unit)) (w : world) :
  seq_io (ms ++ ms') w = io_bind (seq_io ms) (fun _ => seq_io ms') w.
Proof.
  revert w; induction ms as [|m ms IH]; intros w; [reflexivity|].
  cbn [app seq_io]; unfold io_bind.
  destruct (m w) as [w' [[]|e]]; [rewrite IH; reflexivity|reflexivity].
Qed.

(** A list of calls, emitted in order. *)
Lemma seq_io_emit (cs : list call) (w : world) :
  seq_io (map emit cs) w = (w ++ map Lib cs, Ok tt).
Proof.
  revert w; induction cs as [|c cs IH]; intros w; cbn.
  - rewrite app_nil_r; reflexivity.
  - unfold io_bind; cbn; rewrite IH, <- app_assoc; reflexivity.
Qed.

(** [print_lines] writes what [print_all] lists and ends as it ends. *)
Lemma print_lines_print_all (ls : list (result string)) (w : world) :
  print_lines ls w
  = (w ++ map Out (fst (print_all ls)), snd (print_all ls)).
Proof.
  unfold print_lines; revert w.
  induction ls as [|[s|e] ls IH]; intros w; cbn.
  - rewrite app_nil_r; reflexivity.
  - unfold io_bind at 1; cbn; rewrite IH.
    destruct (print_all ls) as [out r]; cbn; rewrite <- app_assoc; reflexivity.
  - rewrite app_nil_r; reflexivity.
Qed.

End Values.

Arguments value F : clear implicits.
Arguments call F : clear implicits.
Arguments event F : clear implicits.
Arguments world F : clear implicits.
Arguments io F A : clear implicits.

Declare Scope io_scope.
Delimit Scope io_scope with io.

Notation "x <- c ;; k" := (io_bind c (fun x => k))
  (at level 61, c at next level, right associativity) : io_scope.
