(* ===== verification/Figure.v ===== *)
(** * Figure: the calls that build the plot (lines 47-110)

    Each block of the plotting part of [src/solarcell.py] is the list of
    library calls it makes, with the arguments as the source writes them:
    a Python [int] stays a [VInt], a float literal is a [VFloat] of its
    value, an array is a [VArray].  The blocks are named after the comments
    that head them in the source.  [figure] runs them in the order of the
    script.

    Two statements depend on more than constants: the upper limit of the
    power axis (line 78) is computed from [P_range] and raises on an empty
    array, and the legend (lines 90-92) is assembled from what the two axes
    answer when asked for their labelled artists.  The answer is modelled by
    [get_legend_handles_labels], after matplotlib: the artists of the axes
    in creation order whose label is set and does not begin with an
    underscore. *)

From Stdlib Require Import ZArith List String Ascii Bool.
From S2P Require Import Prelude Num Diode Sweep Format Report World.
Import ListNotations.

Module Figure.

Section WithNum.
Context {F : Type} `{Num F} `{Fmt F}.
Local Open Scope string_scope.
Local Open Scope list_scope.

(** ** The legend query *)

(** The methods of an axes that create an artist. *)
Definition artist_methods : list string :=
  ["plot"; "fill_between"; "axhline"; "axvline"].

Fixpoint kw_lookup (k : string) (kws : list (string * value F))
  : option (value F) :=
  match kws with
  | [] => None
  | (k', v) :: kws' => if String.eqb k k' then Some v else kw_lookup k kws'
  end.

(** The label under which an artist enters a legend, if it does. *)
Definition legend_label (c : call F) : option string :=
  match kw_lookup "label" (kwargs c) with
  | Some (VStr (String ch l)) =>
      if Ascii.eqb ch "_"%char then None else Some (String ch l)
  | _ => None
  end.

Fixpoint handles_labels_from (k : nat) (ax : string) (cs : list (call F))
  : list (nat * string) :=
  match cs with
  | [] => []
  | c :: cs' =>
      let rest := handles_labels_from (S k) ax cs' in
      if String.eqb (receiver c) ax
         && existsb (String.eqb (method c)) artist_methods
      then match legend_label c with
           | Some l => (k, l) :: rest
           | None => rest
           end
      else rest
  end.

(** [ax.get_legend_handles_labels()] after the calls [cs]: the handles, as
    the positions of the calls that created them, and the labels. *)
Definition get_legend_handles_labels (ax : string) (cs : list (call F))
  : list (nat * string) :=
  handles_labels_from 0 ax cs.

(** ** The blocks of the script *)

(** Line 48. *)
Definition create_figure : list (call F) :=
  [ Call "plt" "subplots" [] [("figsize", VList [VInt 10; VInt 7])] ].

(** Lines 51-55. *)
Definition plot_curve (V J : list F) : list (call F) :=
  [ Call "ax1" "plot" [VArray V; VArray J; VStr "b-"]
      [("linewidth", VFloat (dec 25 1)); ("label", VStr "J-V Curve")];
    Call "ax1" "set_xlabel" [VStr "Voltage (V)"] [("fontsize", VInt 14)];
    Call "ax1" "set_ylabel" [VStr "Current Density (mA/cm²)"]
      [("fontsize", VInt 14); ("color", VStr "b")];
    Call "ax1" "tick_params" [] [("axis", VStr "y"); ("labelcolor", VStr "b")];
    Call "ax1" "grid" [VBool true] [("alpha", VFloat (dec 3 1))] ].

(** Lines 58-61. *)
Definition mark_key_points : list (call F) :=
  [ Call "ax1" "plot" [VFloat Cell.Voc; VInt 0; VStr "ro"]
      [("markersize", VInt 10); ("label", VStr Report.label_Voc)];
    Call "ax1" "plot" [VInt 0; VFloat Cell.Jsc; VStr "go"]
      [("markersize", VInt 10); ("label", VStr Report.label_Jsc)];
    Call "ax1" "plot" [VFloat Cell.V_MPP; VFloat Cell.J_MPP; VStr "mo"]
      [("markersize", VInt 10); ("label", VStr Report.label_MPP)] ].

(** Lines 64-65. *)
Definition highlight_max_power : list (call F) :=
  [ Call "ax1" "fill_between"
      [VList [VInt 0; VFloat Cell.V_MPP]; VInt 0; VFloat Cell.J_MPP]
      [("alpha", VFloat (dec 2 1)); ("color", VStr "orange");
       ("label", VStr Report.label_max_power)] ].

(** Lines 68-71. *)
Definition reference_lines : list (call F) :=
  [ Call "ax1" "axhline" []
      [("y", VInt 0); ("color", VStr "k"); ("linestyle", VStr "-");
       ("alpha", VFloat (dec 3 1)); ("linewidth", VFloat (dec 5 1))];
    Call "ax1" "axvline" []
      [("x", VInt 0); ("color", VStr "k"); ("linestyle", VStr "-");
       ("alpha", VFloat (dec 3 1)); ("linewidth", VFloat (dec 5 1))];
    Call "ax1" "axvline" []
      [("x", VFloat Cell.Voc); ("color", VStr "r"); ("linestyle", VStr "--");
       ("alpha", VFloat (dec 5 1)); ("linewidth", VInt 1)];
    Call "ax1" "axhline" []
      [("y", VFloat Cell.Jsc); ("color", VStr "g"); ("linestyle", VStr "--");
       ("alpha", VFloat (dec 5 1)); ("linewidth", VInt 1)] ].

(** Lines 74-77: the second axis and the power curve. *)
Definition power_axis (V P : list F) : list (call F) :=
  [ Call "ax1" "twinx" [] [];
    Call "ax2" "plot" [VArray V; VArray P; VStr "r--"]
      [("linewidth", VFloat (dec 15 1)); ("alpha", VFloat (dec 7 1));
       ("label", VStr "Power")];
    Call "ax2" "set_ylabel" [VStr "Power Density (mW/cm²)"]
      [("fontsize", VInt 14); ("color", VStr "r")];
    Call "ax2" "tick_params" [] [("axis", VStr "y"); ("labelcolor", VStr "r")] ].

(** Line 78: [max(P_range)] is evaluated, then the call is made. *)
Definition set_power_ylim : io F unit :=
  (lim <- lift Sweep.power_ylim ;;
   emit (Call "ax2" "set_ylim" [VList [VInt 0; VFloat (snd lim)]] []))%io.

(** Lines 81-83. *)
Definition set_title : list (call F) :=
  [ Call "ax1" "set_title" [VStr Report.title]
      [("fontsize", VInt 14); ("fontweight", VStr "bold")] ].

(** Lines 86-87. *)
Definition set_limits : list (call F) :=
  [ Call "ax1" "set_xlim"
      [VList [VFloat (fst Sweep.current_xlim); VFloat (snd Sweep.current_xlim)]]
      [];
    Call "ax1" "set_ylim"
      [VList [VInt (-2); VFloat (snd Sweep.current_ylim)]] [] ].

(** Lines 90-92: both axes are asked for their labelled artists, and the
    concatenated answers are passed to [ax1.legend]. *)
Definition ask_legend (ax : string) : call F :=
  Call ax "get_legend_handles_labels" [] [].

Definition legend_call (hl : list (nat * string)) : call F :=
  Call "ax1" "legend"
    [VList (map (fun h => VArtist (fst h)) hl);
     VList (map (fun h => VStr (snd h)) hl)]
    [("loc", VStr "upper right"); ("fontsize", VInt 10)].

Definition combine_legends : io F unit :=
  (hl1 <- query (ask_legend "ax1") (get_legend_handles_labels "ax1") ;;
   hl2 <- query (ask_legend "ax2") (get_legend_handles_labels "ax2") ;;
   emit (legend_call (hl1 ++ hl2)))%io.

(** Lines 105-107; the text itself is [Report.textstr] (lines 95-103). *)
Definition text_box : list (call F) :=
  [ Call "ax1" "text"
      [VFloat (dec 2 2); VFloat (dec 98 2); VStr Report.textstr]
      [("transform", VRef "ax1.transAxes"); ("fontsize", VInt 10);
       ("verticalalignment", VStr "top");
       ("bbox", VDict [("boxstyle", VStr "round"); ("facecolor", VStr "wheat");
                       ("alpha", VFloat (dec 8 1))])] ].

(** Lines 109-110. *)
Definition show : list (call F) :=
  [ Call "plt" "tight_layout" [] []; Call "plt" "show" [] [] ].

(** ** The plotting part, in the order of the script *)

Definition emit_all (cs : list (call F)) : io F unit := seq_io (map emit cs).

Definition figure (V J P : list F) : io F unit :=
  seq_io
    [ emit_all create_figure;
      emit_all (plot_curve V J);
      emit_all mark_key_points;
      emit_all highlight_max_power;
      emit_all reference_lines;
      emit_all (power_axis V P);
      set_power_ylim;
      emit_all set_title;
      emit_all set_limits;
      combine_legends;
      emit_all text_box;
      emit_all show ].

(** The calls made before line 78, where the only exception of the
    plotting part can arise. *)
Definition calls_before_ylim (V J P : list F) : list (call F) :=
  create_figure ++ plot_curve V J ++ mark_key_points ++ highlight_max_power
  ++ reference_lines ++ power_axis V P.

(** The calls of a figure that completes, given the upper limit [top] of
    the power axis. *)
Definition calls_to_legend (V J P : list F) (top : F) : list (call F) :=
  calls_before_ylim V J P
  ++ [Call "ax2" "set_ylim" [VList [VInt 0; VFloat top]] []]
  ++ set_title ++ set_limits.

(** The three calls of lines 90-92 when the calls [cs] came before. *)
Definition legend_calls (cs : list (call F)) : list (call F) :=
  [ ask_legend "ax1"; ask_legend "ax2";
    legend_call (get_legend_handles_labels "ax1" cs
                 ++ get_legend_handles_labels "ax2" (cs ++ [ask_legend "ax1"])) ].

(** All the calls of a figure that completes. *)
Definition all_calls (V J P : list F) (top : F) : list (call F) :=
  calls_to_legend V J P top
  ++ legend_calls (calls_to_legend V J P top) ++ text_box ++ show.

(** ** The blocks as statements *)

#[export] Instance emit_all_appends (cs : list (call F)) :
  Appends (emit_all cs).
Proof. unfold emit_all; exact _. Qed.

#[export] Instance set_power_ylim_appends : Appends set_power_ylim.
Proof. unfold set_power_ylim; exact _. Qed.

#[export] Instance combine_legends_appends : Appends combine_legends.
Proof. unfold combine_legends; exact _. Qed.

#[export] Instance figure_appends (V J P : list F) : Appends (figure V J P).
Proof. unfold figure; exact _. Qed.

Lemma emit_all_run (cs : list (call F)) (w : world F) :
  emit_all cs w = (w ++ map Lib cs, Ok tt).
Proof. apply seq_io_emit. Qed.

Lemma combine_legends_run (w : world F) :
  combine_legends w = (w ++ map Lib (legend_calls (calls w)), Ok tt).
Proof.
  unfold combine_legends, query, emit, io_bind, legend_calls; cbn.
  rewrite calls_app, <- !app_assoc; reflexivity.
Qed.

(** Line 78 on each branch. *)
Lemma set_power_ylim_Ok (lim : F * F) (w : world F) :
  Sweep.power_ylim = Ok lim ->
  set_power_ylim w
  = (w ++ [Lib (Call "ax2" "set_ylim" [VList [VInt 0; VFloat (snd lim)]] [])],
     Ok tt).
Proof. unfold set_power_ylim, io_bind, lift; intros ->; reflexivity. Qed.

Lemma set_power_ylim_Raise (e : exn) (w : world F) :
  Sweep.power_ylim = Raise e -> set_power_ylim w = (w, Raise e).
Proof. unfold set_power_ylim, io_bind, lift; intros ->; reflexivity. Qed.

(** The legend: whatever the arrays and the arithmetic, the first
    axis answers with its five labelled artists in creation order (the
    curve, the three marked points and the shaded rectangle; the four
    reference lines carry no label) and the second with the power curve.
    The handles are the positions of the creating calls in the script. *)
Theorem legend_entries (V J P : list F) (top : F) :
  get_legend_handles_labels "ax1" (calls_to_legend V J P top)
  = [ (1, "J-V Curve"); (6, Report.label_Voc); (7, Report.label_Jsc);
      (8, Report.label_MPP); (9, Report.label_max_power) ] /\
  get_legend_handles_labels "ax2"
    (calls_to_legend V J P top ++ [ask_legend "ax1"])
  = [ (15, "Power") ].
Proof. split; reflexivity. Qed.

End WithNum.

End Figure.
