(* ===== verification/Script.v ===== *)
(** * Script: the whole program (lines 43-128)

    [main] is the module body of [src/solarcell.py] after its definitions:
    the sweep (lines 43-45), the figure (lines 47-110) and the report
    (lines 113-128), in that order, on the world of [World.v].  [run] starts
    it in the empty world.

    The theorems hold for every arithmetic.  They state what the program
    does as a whole: it either raises in the sweep, before anything has been
    drawn or printed, or it makes the calls of [Figure.all_calls], shows the
    figure and then prints; the figure never fails; and the legend lists the
    five labelled artists of the first axis and the power curve. *)

From Stdlib Require Import ZArith List String Bool.
From S2P Require Import Prelude Num Diode Newton Sweep Format Report World.
From S2P Require Import Figure.
Import ListNotations.

Module Script.

Section WithNum.
Context {F : Type} `{Num F} `{Fmt F}.

(** Lines 43-128.  Line 43 has no effect and cannot raise: [V_range] is a
    value. *)
Definition main : io F unit :=
  (Js <- lift Sweep.J_range ;;
   Ps <- lift Sweep.P_range ;;
   _ <- Figure.figure Sweep.V_range Js Ps ;;
   print_lines Report.report_lines)%io.

Definition run : world F * result unit := main [].

(** The maximum of the power curve built from the currents [Js]. *)
Definition py_max_of (Js : list F) : result F :=
  Sweep.py_max (zip_with nmul Sweep.V_range Js).

(** ** The figure as a statement *)

(** From the empty world the plotting part makes the calls of
    [Figure.all_calls] and returns. *)
Lemma figure_run (Js : list F) (m : F) :
  Sweep.power_ylim = Ok (num_of_Z 0, nmul m (dec 11 1)) ->
  Figure.figure Sweep.V_range Js (zip_with nmul Sweep.V_range Js) []
  = (map Lib (Figure.all_calls Sweep.V_range Js
                (zip_with nmul Sweep.V_range Js) (nmul m (dec 11 1))),
     Ok tt).
Proof.
  intros Hlim; unfold Figure.figure; cbn [seq_io]; unfold io_bind.
  rewrite !Figure.emit_all_run, (Figure.set_power_ylim_Ok _ _ Hlim).
  rewrite !Figure.emit_all_run, Figure.combine_legends_run.
  rewrite !Figure.emit_all_run; cbn [io_ret snd app].
  unfold Figure.all_calls, Figure.calls_to_legend, Figure.calls_before_ylim.
  change [Lib ?c] with (map (@Lib F) [c]).
  rewrite <- !map_app, calls_map_Lib, <- ?map_app, <- !app_assoc; reflexivity.
Qed.

(** ** The program on each branch *)

(** With non-zero divisors the sweep returns and the program goes through
    the figure to the report. *)
Lemma run_Ok :
  Cell.divisors_ok Cell.n Cell.Rsh = true ->
  exists Js m,
    Sweep.J_range = Ok Js /\
    py_max_of Js = Ok m /\
    run = (map Lib (Figure.all_calls Sweep.V_range Js
                      (zip_with nmul Sweep.V_range Js) (nmul m (dec 11 1)))
           ++ map Out (fst Report.report),
           snd Report.report).
Proof.
  intros Hok; destruct (Sweep.J_range_Ok Hok) as [Js HJ].
  destruct (Sweep.power_ylim_Ok Js HJ) as (m & Hm & Hlim).
  exists Js, m; repeat split; [exact HJ|exact Hm|].
  unfold run, main, io_bind, lift, Sweep.P_range; rewrite HJ; cbn [bind].
  rewrite (figure_run Js m Hlim), print_lines_print_all; reflexivity.
Qed.

Lemma run_Raise :
  Cell.divisors_ok Cell.n Cell.Rsh = false ->
  run = ([], Raise ZeroDivisionError).
Proof.
  intros Hok; unfold run, main, io_bind, lift.
  rewrite (Sweep.J_range_Raise Hok); reflexivity.
Qed.

#[export] Instance main_appends : Appends main.
Proof. unfold main; exact _. Qed.

(** C8. The program as a whole: with non-zero divisors [n*Vt] and [Rsh] it
    makes exactly the calls of [Figure.all_calls] on the arrays of the
    sweep, in order, and then writes the lines of the report; the figure is
    complete and shown before the first line is printed, and the program
    ends as the report ends. *)
Theorem script_draws_then_reports :
  Cell.divisors_ok Cell.n Cell.Rsh = true ->
  exists Js Ps top,
    Sweep.J_range = Ok Js /\ Sweep.P_range = Ok Ps /\
    Sweep.power_ylim = Ok (num_of_Z 0, top) /\
    run = (map Lib (Figure.all_calls Sweep.V_range Js Ps top)
           ++ map Out (fst Report.report),
           snd Report.report).
Proof.
  intros Hok; destruct (run_Ok Hok) as (Js & m & HJ & Hm & Hrun).
  exists Js, (zip_with nmul Sweep.V_range Js), (nmul m (dec 11 1)).
  repeat split; [exact HJ| | |exact Hrun].
  - unfold Sweep.P_range; rewrite HJ; reflexivity.
  - unfold Sweep.power_ylim, Sweep.P_range; rewrite HJ; cbn [bind].
    unfold py_max_of in Hm; rewrite Hm; reflexivity.
Qed.


Lemma run_Raise_only (e : exn) : snd run = Raise e -> e = ZeroDivisionError.
Proof.
  destruct (Cell.divisors_ok Cell.n Cell.Rsh) eqn:Hok.
  - destruct (run_Ok Hok) as (Js & m & _ & _ & ->); apply Report.report_Raise.
  - rewrite (run_Raise Hok); intros [= <-]; reflexivity.
Qed.

(** C28. How the program ends: normally, or with [ZeroDivisionError].  No
    other exception escapes: [max] is never applied to an empty array and
    [return J_new] never reads an unbound name. *)
Theorem script_ends_normally_or_zero_division :
  snd run = Ok tt \/ snd run = Raise ZeroDivisionError.
Proof.
  destruct (snd run) as [[]|e] eqn:Hr; [left; reflexivity|right].
  rewrite (run_Raise_only e Hr); reflexivity.
Qed.

(** The program only adds to the world: started after any sequence of
    earlier events, it leaves them in place and appends its own, whether it
    ends normally or raises. *)
Theorem script_only_appends (w : world F) : extends w (fst (main w)).
Proof. apply appends. Qed.

End WithNum.

End Script.
