(* ===== verification/IntNum.v ===== *)
(** * IntNum: an arithmetic in which the divisor of line 32 is zero

    The theorems on the error path of the program assume that [n*Vt] or
    [Rsh] compares equal to zero.  No binary64 value of the constants does
    that, so the path is exercised at a third instance of [Num]: the
    integers with floor division, in which the thermal voltage
    [0.02585 = 2585 / 10^5] is [0].  The instance exists for these witnesses
    only; nothing is claimed of the script's output in it. *)

From Stdlib Require Import ZArith List String.
From S2P Require Import Prelude Num Diode Newton Sweep Format Report World.
From S2P Require Import Figure Script.
Import ListNotations.

Local Open Scope Z_scope.

#[export] Instance Z_Num : Num Z := {|
  num_of_Z := fun z => z;
  nadd := Z.add;
  nsub := Z.sub;
  nmul := Z.mul;
  ndiv := Z.div;
  nopp := Z.opp;
  nabs := Z.abs;
  nexp := fun _ => 1;
  nltb := Z.ltb;
  neqb := Z.eqb
|}.

#[export] Instance Z_Fmt : Fmt Z := {| format_f := fun _ _ => EmptyString |}.

Lemma int_divisor_is_zero :
  Cell.divisors_ok (F := Z) Cell.n Cell.Rsh = false.
Proof. reflexivity. Qed.

