(* ===== verification/FloatRun.v ===== *)
(** * FloatRun: the run of the script on binary64

    The script has no input: its behaviour is one computation.  This file
    evaluates it at the instance [Float_Num] and states what the run does:
    the constants are the doubles Python parses, every call of the sweep
    leaves its loop through [break] within 8 iterations, the current
    decreases along the grid, and the curve the model produces does not pass
    through the hard-coded open-circuit and maximum-power points.  It also
    evaluates two calls outside the sweep in which the loop fails silently.

    The current densities of the sweep are computed once, into [J_ref];
    [J_range_ref] is the theorem that this table is what line 44 produces. *)

From Stdlib Require Import ZArith Floats List Bool Lia String.
From S2P Require Import Prelude Num Diode Newton.
From S2P Require Import Machine FloatNum Sweep Format Report.
From S2P Require Import World Figure Script.
Import ListNotations.

#[local] Set Warnings "-inexact-float".
Local Open Scope float_scope.

Module RefRun.

(** ** The constants are the parsed doubles *)

(** Each decimal literal on the right is read by the parser as the nearest
    double, as Python reads the same literal; the left-hand sides are the
    module constants of [Diode.v]. *)
Lemma constants_parsed :
  Cell.Voc = 1.008312 /\ Cell.Jsc = 30.52638788 /\ Cell.FF = 0.883105 /\
  Cell.eta = 0.271821 /\ Cell.V_MPP = 0.915723 /\ Cell.J_MPP = 29.68373326 /\
  Cell.Vt = 0.02585 /\ Cell.n = 1.2 /\ Cell.J0 = 1e-12 /\ Cell.Rs = 0.001 /\
  Cell.Rsh = 10000 /\ Solver.tol = 1e-10.
Proof. repeat split; reflexivity. Qed.

Lemma ref_divisors_ok : Cell.divisors_ok (F := float) Cell.n Cell.Rsh = true.
Proof. reflexivity. Qed.

(** ** The table of the sweep *)

Definition J_ref : list float :=
  Eval vm_compute in
    match Sweep.J_range with Ok Js => Js | Raise _ => [] end.

Lemma J_range_ref : Sweep.J_range = Ok J_ref.
Proof. vm_cast_no_check (eq_refl (Ok J_ref)). Qed.

Definition V_ref : list float := Eval vm_compute in Sweep.V_range.

Lemma V_range_ref : Sweep.V_range = V_ref.
Proof. vm_cast_no_check (eq_refl V_ref). Qed.

(** ** The sweep *)

Local Abbreviation sc := Sweep.solar_cell_current_default.
Local Abbreviation step V := (Solver.newton_step V Cell.Jsc Cell.J0 Cell.n Cell.Rs Cell.Rsh).
Local Abbreviation iter V := (Solver.iterate V Cell.Jsc Cell.J0 Cell.n Cell.Rs Cell.Rsh).
Local Abbreviation conv V := (Solver.converged V Cell.Jsc Cell.J0 Cell.n Cell.Rs Cell.Rsh).
Local Abbreviation stops V := (Solver.stops_at V Cell.Jsc Cell.J0 Cell.n Cell.Rs Cell.Rsh).

Definition breaks8 (V : float) : bool :=
  Solver.breaks_within V Cell.Jsc Cell.J0 Cell.n Cell.Rs Cell.Rsh 8 Cell.Jsc.

Lemma sweep_breaks8 : forallb breaks8 Sweep.V_range = true.
Proof. vm_cast_no_check (eq_refl true). Qed.

(** C7. Convergence on the sweep: at each of the 500 voltages of [V_range]
    the loop leaves through [break], at an iteration [j < 8]; the cap of
    100 iterations is never reached on the grid. *)
Theorem sweep_converges_within_8 (V : float) :
  In V Sweep.V_range ->
  exists j, (j < 8)%nat /\ stops V 100%nat j Cell.Jsc /\
            conv V (iter V j Cell.Jsc) = true.
Proof.
  intros HV; apply Solver.breaks_within_stops_at; [lia|].
  exact (proj1 (forallb_forall _ _) sweep_breaks8 V HV).
Qed.

Lemma sweep_converges_within_8_witness :
  exists j, (j < 8)%nat /\ stops (-0.1) 100%nat j Cell.Jsc /\
            conv (-0.1) (iter (-0.1) j Cell.Jsc) = true.
Proof.
  apply (sweep_converges_within_8 (-0.1)).
  rewrite V_range_ref; left; reflexivity.
Defined.

(** C19. Monotonicity on the grid: [J_range] is strictly decreasing, sample
    after sample, over the whole sweep. *)
Theorem J_range_strictly_decreasing (Js : list float) (i j : nat)
  (Ji Jj : float) :
  Sweep.J_range = Ok Js -> (i < j)%nat ->
  nth_error Js i = Some Ji -> nth_error Js j = Some Jj ->
  (Jj <? Ji) = true.
Proof.
  rewrite J_range_ref; intros [= <-] Hij Hi Hj.
  apply (pairwise_spec (fun a b => b <? a) J_ref) with (i := i) (j := j);
    [vm_compute; reflexivity|assumption..].
Qed.

Lemma J_range_strictly_decreasing_witness :
  (0x1.e86c04a45dc12p+4 <? 0x1.e86c1cfb84d03p+4) = true.
Proof.
  apply (J_range_strictly_decreasing J_ref 0 100 _ _ J_range_ref);
    [lia|reflexivity|reflexivity].
Defined.

(** ** The hard-coded figures against the modelled curve *)

(** C35. The hard-coded open-circuit voltage is not where the modelled
    current vanishes.  On the grid the current is positive up to sample 458
    ([V = 0.96314]) and negative from sample 459 on ([V = 0.96546]), and at
    [V = Voc = 1.008312] the solver returns a current below -26 mA/cm2. *)
Theorem hard_coded_Voc_is_not_open_circuit :
  (forall Js i J, Sweep.J_range = Ok Js -> nth_error Js i = Some J ->
     ((i <= 458)%nat -> (0 <? J) = true) /\
     ((459 <= i)%nat -> (J <? 0) = true)) /\
  nth_error Sweep.V_range 459 = Some 0x1.ee50f2d657de7p-1 /\
  (0x1.ee50f2d657de7p-1 <? Cell.Voc) = true /\
  exists J, sc Cell.Voc = Ok J /\ (J <? -26) = true.
Proof.
  split; [|split; [|split]].
  - intros Js i J HJs Hi; rewrite J_range_ref in HJs; injection HJs as <-.
    destruct (forallb_split_at (fun J => 0 <? J) (fun J => J <? 0) 459 J_ref)
      with (i := i) (x := J) as [Hpos Hneg];
      [vm_compute; reflexivity|vm_compute; reflexivity|exact Hi|].
    split; intros Hle; [apply Hpos; lia|apply Hneg; lia].
  - rewrite V_range_ref; reflexivity.
  - reflexivity.
  - eexists; split; [vm_compute; reflexivity|reflexivity].
Qed.

(** The power curve, from the table. *)
Definition P_ref : list float :=
  Eval vm_compute in zip_with PrimFloat.mul V_ref J_ref.

Lemma P_range_ref : Sweep.P_range = Ok P_ref.
Proof. unfold Sweep.P_range; rewrite J_range_ref, V_range_ref; reflexivity. Qed.

(** C36. The hard-coded maximum power point is not on the modelled curve.
    The largest value of [P_range] is 24.44 mW/cm2, reached at sample 401
    ([V = 0.8308], more than 0.08 V below [V_MPP = 0.915723]); every power on
    the curve is below the hard-coded [V_MPP * J_MPP = 27.18], which even
    exceeds the top [max(P_range) * 1.1] of the power axis. *)
Theorem hard_coded_MPP_is_not_on_curve :
  exists Ps Pmax top,
    Sweep.P_range = Ok Ps /\
    Sweep.py_max Ps = Ok Pmax /\
    nth_error Ps 401 = Some Pmax /\
    nth_error Sweep.V_range 401 = Some 0x1.a96245985824cp-1 /\
    (0x1.a96245985824cp-1 + 0.08 <? Cell.V_MPP) = true /\
    Sweep.power_ylim = Ok (0, top) /\
    (top <? Cell.V_MPP * Cell.J_MPP) = true.
Proof.
  exists P_ref; do 2 eexists; split; [exact P_range_ref|].
  unfold Sweep.power_ylim; rewrite P_range_ref, V_range_ref.
  repeat split; vm_compute; reflexivity.
Qed.

(** ** The curve and the window of the figure *)

(** C25. The curve is well formed: the sweep returns; the three arrays have
    500 entries each, all finite; the voltage grid increases strictly from
    [-0.1] to [Voc + 0.05], both endpoints included. *)
Theorem curve_well_formed :
  exists Js Ps,
    Sweep.J_range = Ok Js /\ Sweep.P_range = Ok Ps /\
    List.length Sweep.V_range = 500%nat /\
    List.length Js = 500%nat /\ List.length Ps = 500%nat /\
    forallb is_finite (Sweep.V_range ++ Js ++ Ps) = true /\
    pairwise (fun a b => a <? b) Sweep.V_range = true /\
    nth_error Sweep.V_range 0 = Some (- 0.1) /\
    nth_error Sweep.V_range 499 = Some (Cell.Voc + 0.05).
Proof.
  exists J_ref, P_ref; rewrite V_range_ref.
  split; [exact J_range_ref|split; [exact P_range_ref|]].
  repeat (apply conj); vm_compute; reflexivity.
Qed.


(** C39. The window of the current axis: the three marked points (the
    hard-coded [Voc], [Jsc] and maximum power point) lie strictly inside the
    limits of lines 86-87, while the computed curve leaves the window
    through its lower edge: exactly the samples from number 460 on are below
    the limit [-2]. *)
Theorem current_axis_window :
  let (xlo, xhi) := Sweep.current_xlim in
  let (ylo, yhi) := Sweep.current_ylim in
  ((xlo <? 0) && (0 <? Cell.V_MPP) && (Cell.V_MPP <? Cell.Voc)
   && (Cell.Voc <? xhi) = true) /\
  ((ylo <? 0) && (0 <? Cell.J_MPP) && (Cell.J_MPP <? Cell.Jsc)
   && (Cell.Jsc <? yhi) = true) /\
  forall Js i J, Sweep.J_range = Ok Js -> nth_error Js i = Some J ->
    ((i < 460)%nat -> (ylo <? J) = true) /\
    ((460 <= i)%nat -> (J <? ylo) = true).
Proof.
  cbv zeta beta iota delta [Sweep.current_xlim Sweep.current_ylim].
  split; [reflexivity|split; [reflexivity|]].
  intros Js i J HJs Hi; rewrite J_range_ref in HJs; injection HJs as <-.
  apply (forallb_split_at (fun J => fst Sweep.current_ylim <? J)
           (fun J => J <? fst Sweep.current_ylim) 460 J_ref);
    [vm_compute; reflexivity..|exact Hi].
Qed.

(** ** Calls outside the sweep: silent failures of the loop *)

(** C37. Overflow is not detected.  At [V = 22] the exponential overflows
    in the first iteration, [f/df] is [inf/inf], and the call returns nan as
    an ordinary value after running all 100 iterations. *)
Theorem overflow_returns_nan :
  nexp (Cell.diode_arg 22 Cell.n Cell.Rs Cell.Jsc) = infinity /\
  stops 22 100%nat 99%nat Cell.Jsc /\
  sc 22 = Ok nan.
Proof.
  split; [vm_compute; reflexivity|split; [|vm_compute; reflexivity]].
  apply Solver.breaks_within_false_stops_at; vm_compute; reflexivity.
Qed.

(** C38. The cap is reached without notice.  At [V = 5] none of the 100
    iterations meets the step test; the call still returns a value, which
    is the hundredth iterate and is itself far from a fixed point of the
    update: the next step would still exceed 30 mA/cm2. *)
Theorem cap_reached_returns_unconverged :
  stops 5 100%nat 99%nat Cell.Jsc /\
  sc 5 = Ok (iter 5 100 Cell.Jsc) /\
  (30 <? abs (step 5 (iter 5 100 Cell.Jsc) - iter 5 100 Cell.Jsc)) = true.
Proof.
  split; [|split; vm_compute; reflexivity].
  apply Solver.breaks_within_false_stops_at; vm_compute; reflexivity.
Qed.

(** ** The text the script produces *)


(** The text of the figure: the four legend labels, the title and the
    parameter box. *)
Theorem figure_text :
  Report.label_Voc = "Voc = 1.008 V"%string /\
  Report.label_Jsc = "Jsc = 30.53 mA/cm²"%string /\
  Report.label_MPP = "MPP: (0.916 V, 29.68 mA/cm²)"%string /\
  Report.label_max_power = "Max Power: 27.18 mW/cm²"%string /\
  Report.title =
    ("Current-Voltage (J-V) Characteristics of GaAs p-i-n Solar Cell"
     ++ newline
     ++ "Efficiency (η) = 27.18% | Fill Factor (FF) = 88.31%")%string /\
  Report.textstr =
    join newline
      [ "Voc = 1.008 V"; "Jsc = 30.53 mA/cm²"; "FF = 88.31%"; "η = 27.18%";
        "V_MPP = 0.916 V"; "J_MPP = 29.68 mA/cm²";
        "GaAs p-i-n Solar Cell" ]%string.
Proof. repeat split; vm_compute; reflexivity. Qed.

(** The evaluation lines are printed unconditionally; for the
    constants of the script the three numeric statements they make are
    true: the efficiency exceeds 27 percent, the fill factor 88 percent and
    the short-circuit current density 30 mA/cm2. *)
Theorem evaluation_lines_hold :
  (27 <? Cell.eta * Report.hundred) = true /\
  (88 <? Cell.FF * Report.hundred) = true /\
  (30 <? Cell.Jsc) = true.
Proof. repeat split; reflexivity. Qed.

(** ** Witnesses of the control-flow theorems at the reference call *)

Lemma solar_cell_current_returns_stopping_iterate_witness :
  exists! j,
    Solver.stops_at 0 Cell.Jsc Cell.J0 Cell.n Cell.Rs Cell.Rsh 100 j Cell.Jsc /\
    Sweep.solar_cell_current_default 0
    = Ok (Solver.iterate 0 Cell.Jsc Cell.J0 Cell.n Cell.Rs Cell.Rsh (S j)
            Cell.Jsc).
Proof.
  exact (Solver.solar_cell_current_returns_stopping_iterate
           0 Cell.Jsc Cell.J0 Cell.n Cell.Rs Cell.Rsh ref_divisors_ok).
Defined.

Lemma solar_cell_current_one_step_past_guess_witness :
  exists j, (j < 100)%nat /\
    0x1.e86c127f29f03p+4
    = Solver.newton_step 0 Cell.Jsc Cell.J0 Cell.n Cell.Rs Cell.Rsh
        (Solver.iterate 0 Cell.Jsc Cell.J0 Cell.n Cell.Rs Cell.Rsh j Cell.Jsc) /\
    (Solver.converged 0 Cell.Jsc Cell.J0 Cell.n Cell.Rs Cell.Rsh
       (Solver.iterate 0 Cell.Jsc Cell.J0 Cell.n Cell.Rs Cell.Rsh j Cell.Jsc)
     = true \/ j = 99%nat).
Proof.
  apply (Solver.solar_cell_current_one_step_past_guess
           0 Cell.Jsc Cell.J0 Cell.n Cell.Rs Cell.Rsh).
  vm_compute; reflexivity.
Defined.

Lemma call_invariant_witness :
  Machine.inv 0 Cell.Jsc Cell.J0 Cell.n Cell.Rs Cell.Rsh
    (Machine.Returned 0x1.e86c127f29f03p+4).
Proof.
  apply (Machine.call_invariant 0 Cell.Jsc Cell.J0 Cell.n Cell.Rs Cell.Rsh 2).
  apply steps_S with (b := Machine.Loop 1 0x1.e86c127f29f03p+4
                              (Some 0x1.e86c127f29f03p+4));
    [|apply steps_1]; apply Machine.next_step; vm_compute; reflexivity.
Defined.

Lemma script_draws_then_reports_witness :
  exists (Js Ps : list float) (top : float),
    Sweep.J_range = Ok Js /\ Sweep.P_range = Ok Ps /\
    Sweep.power_ylim = Ok (0, top) /\
    Script.run
    = ((map Lib (Figure.all_calls Sweep.V_range Js Ps top)
        ++ map Out (fst Report.report))%list,
       snd Report.report).
Proof. exact (Script.script_draws_then_reports ref_divisors_ok). Defined.

End RefRun.
