(* ===== verification/Merit.v ===== *)
(** * Merit: the figures of merit of the model, over the reals

    The script echoes an open-circuit voltage and a maximum power point
    that were measured, and plots them over the curve it computes from the
    diode model (lines 5-10, 58-65).  This file derives the two figures
    from the model itself, in exact arithmetic, for the reference
    parameters: the voltage at which the operating point is zero, and the
    maximum over the interval of the sweep of the power [V * J] that
    [Sweep.operating_point_power] computes.

    The power is bounded by a staircase.  The operating point does not
    increase with the voltage, so between two voltages [a <= a'] the power
    is at most [a'] times any current above the operating point at [a].
    Such a current is proposed by the binary64 run of the function at [a]
    and accepted by the sign of the residual there ([Residual.v]); the next
    voltage [a'] is the largest one that keeps the product below the
    bound. *)

From Stdlib Require Import ZArith Reals Lra Lia Bool Floats.
From S2P Require Import Prelude Num Diode Newton RealNum ConvexNewton.
From S2P Require Import DiodeReal DiodeRate Residual RefModel FloatNum Sweep.

#[local] Set Warnings "-inexact-float".

Module Merit.

Local Abbreviation sc V :=
  (Solver.solar_cell_current V Cell.Jsc Cell.J0 Cell.n Cell.Rs Cell.Rsh).
Local Abbreviation f V := (Cell.f V Cell.Jsc Cell.J0 Cell.n Cell.Rs Cell.Rsh).

(** ** The staircase *)

(** Voltages and currents are counted in millionths. *)
Definition den : Z := 1000000.

(** A current above the operating point at [an / den], proposed by the
    run of the function on binary64. *)
Definition level (an : Z) : Z :=
  match Sweep.solar_cell_current_default (float_of_Z an / 1000000)%float with
  | Ok J => (Z_of_float (J * 1000000)%float + 2)%Z
  | Raise _ => 0%Z
  end.

(** The power stays below [Bn / den] from [an / den] to [a_end / den]. *)
Fixpoint staircase (fuel : nat) (Bn an a_end : Z) : bool :=
  match fuel with
  | O => false
  | S fuel' =>
      let rho := level an in
      Residual.residual_positive an rho den 0
      && ((rho <=? 0)%Z
          || let an' := ((Bn * den - 1) / rho)%Z in
             (an <? an')%Z
             && ((a_end <=? an')%Z || staircase fuel' Bn an' a_end))
  end.

Local Open Scope R_scope.

(** ** The operating point along the voltage *)

Lemma root_antitone (V1 V2 r1 r2 : R) :
  V1 <= V2 -> f V1 r1 = 0 -> f V2 r2 = 0 -> r2 <= r1.
Proof.
  intros HV H1 H2; pose proof (RefModel.ref_convex V2) as HC.
  apply (f_le_inv (f V2) _); rewrite H2, <- H1.
  apply RefModel.residual_increasing_in_V, HV.
Qed.

(** Beyond a voltage the operating point is below any current at which
    the residual at that voltage is positive. *)
Lemma root_lt_level (a rho V r : R) :
  a <= V -> 0 < f a rho -> f V r = 0 -> r < rho.
Proof.
  intros HV Hpos Hr; destruct (RefModel.root_exists a) as [ra Hra].
  pose proof (root_antitone a V ra r HV Hra Hr).
  pose proof (RefModel.root_below a rho ra Hpos Hra); lra.
Qed.

Lemma piece_bound (a a' rho B V r : R) :
  0 <= a -> a <= V <= a' -> 0 < f a rho -> a' * rho < B -> 0 < B ->
  f V r = 0 -> V * r < B.
Proof.
  intros Ha [HV HV'] Hpos Hb HB Hr.
  pose proof (root_lt_level a rho V r HV Hpos Hr) as Hlt.
  destruct (Rle_or_lt r 0); nra.
Qed.

Lemma tail_bound (a rho B V r : R) :
  0 <= a -> a <= V -> 0 < f a rho -> rho <= 0 -> 0 < B ->
  f V r = 0 -> V * r < B.
Proof.
  intros Ha HV Hpos Hrho HB Hr.
  pose proof (root_lt_level a rho V r HV Hpos Hr) as Hlt; nra.
Qed.

(** ** The staircase bounds the power *)

Lemma den_real : IZR den = 10 ^ 6.
Proof. unfold den; lra. Qed.

(** The next voltage keeps the product below the bound. *)
Lemma next_voltage (Bn rho : Z) :
  (0 < rho)%Z ->
  IZR ((Bn * den - 1) / rho) / 10 ^ 6 * (IZR rho / 10 ^ 6) < IZR Bn / 10 ^ 6.
Proof.
  intros Hrho; pose proof (Z.mul_div_le (Bn * den - 1) rho Hrho) as Hm.
  apply IZR_le in Hm; revert Hm; generalize ((Bn * den - 1) / rho)%Z.
  intros an' Hm; rewrite mult_IZR, minus_IZR, mult_IZR, den_real in Hm.
  apply (Rmult_lt_reg_r (10 ^ 6 * 10 ^ 6)); [lra|].
  replace (IZR an' / 10 ^ 6 * (IZR rho / 10 ^ 6) * (10 ^ 6 * 10 ^ 6))
    with (IZR rho * IZR an') by (field; lra).
  replace (IZR Bn / 10 ^ 6 * (10 ^ 6 * 10 ^ 6)) with (IZR Bn * 10 ^ 6)
    by (field; lra).
  lra.
Qed.

Section Staircase.
Variables Bn a_end : Z.
Hypothesis Bn_pos : (0 < Bn)%Z.

Lemma staircase_sound (fuel : nat) (an : Z) (V r : R) :
  staircase fuel Bn an a_end = true -> (0 <= an)%Z ->
  IZR an / 10 ^ 6 <= V <= IZR a_end / 10 ^ 6 -> f V r = 0 ->
  V * r < IZR Bn / 10 ^ 6.
Proof.
  revert an; induction fuel as [|fuel IH]; intros an H Han [HV HV'] Hr;
    [discriminate|].
  cbn [staircase] in H; remember (level an) as rho eqn:Erho; clear Erho.
  apply andb_true_iff in H as [Hpos H].
  apply (Residual.positive_at (IZR an / 10 ^ 6) (IZR rho / 10 ^ 6)) in Hpos;
    [|unfold den; lia|rewrite den_real; reflexivity..].
  assert (0 <= IZR an / 10 ^ 6) as Han'
    by (apply IZR_le in Han; lra).
  assert (0 < IZR Bn / 10 ^ 6) as HB by (apply IZR_lt in Bn_pos; lra).
  destruct (Z.leb_spec rho 0) as [Hr0|Hr0].
  - apply IZR_le in Hr0.
    apply (tail_bound (IZR an / 10 ^ 6) (IZR rho / 10 ^ 6)); try assumption.
    lra.
  - cbn [orb] in H; apply andb_true_iff in H as [Hlt H]; apply Z.ltb_lt in Hlt.
    pose proof (next_voltage Bn rho Hr0) as Hnext; revert H Hlt Hnext.
    generalize ((Bn * den - 1) / rho)%Z; intros an' H Hlt Hnext.
    destruct (Rle_or_lt V (IZR an' / 10 ^ 6)) as [Hle|Hgt].
    + apply (piece_bound (IZR an / 10 ^ 6) (IZR an' / 10 ^ 6)
               (IZR rho / 10 ^ 6)); try assumption; split; assumption.
    + apply orb_true_iff in H as [Hend|Hrec].
      * apply Z.leb_le, IZR_le in Hend; lra.
      * apply (IH an' Hrec); [lia|split; lra|exact Hr].
Qed.

End Staircase.

(** ** The power the program computes, over the reals *)

Lemma power_real (V P : R) :
  Sweep.operating_point_power V = Ok P -> exists J, sc V = Ok J /\ P = V * J.
Proof.
  unfold Sweep.operating_point_power, Sweep.solar_cell_current_default.
  destruct (sc V) as [J|e]; cbn; [intros [= <-]; exists J; auto|discriminate].
Qed.

(** On the interval of the sweep the returned current is the operating
    point, up to the accuracy of the loop. *)
Lemma power_near_root (V P : R) :
  - 0.1 <= V -> V <= Cell.Voc + 0.05 ->
  Sweep.operating_point_power V = Ok P ->
  exists r J, f V r = 0 /\ P = V * J /\ 0 <= J - r < 2e-20.
Proof.
  intros Hlo Hhi HP; destruct (power_real V P HP) as (J & HJ & ->).
  destruct (RefModel.root_exists V) as [r Hr]; exists r, J.
  split; [exact Hr|split; [reflexivity|]].
  exact (RefRate.ref_result_near_root V Hlo Hhi r J Hr HJ).
Qed.

Lemma power_below (fuel : nat) (Bn an a_end : Z) (V P : R) :
  (0 < Bn)%Z -> (0 <= an)%Z -> staircase fuel Bn an a_end = true ->
  IZR an / 10 ^ 6 <= V <= IZR a_end / 10 ^ 6 -> V <= Cell.Voc + 0.05 ->
  Sweep.operating_point_power V = Ok P ->
  P < IZR Bn / 10 ^ 6 + 1e-9.
Proof.
  intros HB Han Hs HV Hhi HP.
  assert (0 <= V) as H0 by (apply IZR_le in Han; lra).
  destruct (power_near_root V P ltac:(lra) Hhi HP) as (r & J & Hr & -> & Hn).
  pose proof (staircase_sound Bn a_end HB fuel an V r Hs Han HV Hr) as Hb.
  revert Hhi; cell_consts; intros Hhi; nra.
Qed.

(** In reverse bias the power is negative. *)
Lemma power_negative (V P : R) :
  - 0.1 <= V -> V < 0 -> Sweep.operating_point_power V = Ok P -> P < 0.
Proof.
  intros Hlo Hneg HP.
  destruct (power_near_root V P Hlo ltac:(cell_consts; lra) HP)
    as (r & J & Hr & -> & Hn).
  assert (f V 0 < 0) as H0.
  { rewrite DiodeR.f_eq.
    assert (exp (Cell.diode_arg V Cell.n Cell.Rs 0) <= 1) as He
      by (rewrite <- exp_0; apply exp_le; rewrite DiodeR.diode_arg_eq;
          cell_consts; lra).
    revert He; generalize (exp (Cell.diode_arg V Cell.n Cell.Rs 0)).
    cell_consts; intros E HE; lra. }
  pose proof (RefModel.root_above V 0 r H0 Hr); nra.
Qed.

(** ** The maximum power *)

Lemma staircase_whole : staircase 200 24443990 0 1058312 = true.
Proof. vm_compute; reflexivity. Qed.

Lemma staircase_left : staircase 20 24442990 0 825000 = true.
Proof. vm_compute; reflexivity. Qed.

Lemma staircase_right : staircase 20 24442990 838000 1058312 = true.
Proof. vm_compute; reflexivity. Qed.

Lemma residual_near_maximum : f 0.8317 29.3895 < 0.
Proof.
  apply (Residual.negative_at _ _ 831700 29389500 1000000);
    [lia|lra|lra|vm_compute; reflexivity].
Qed.

Lemma sweep_end : Cell.Voc + 0.05 = IZR 1058312 / 10 ^ 6.
Proof. cell_consts; lra. Qed.

(** C23. The maximum power of the model, over the reals: for the reference
    parameters the power [V * J] that the program computes at a voltage of
    the interval of the sweep is below [24.444]; it exceeds [24.443] at
    [V = 0.8317], and only between [0.825] and [0.838].  The hard-coded
    maximum power point, at [V_MPP = 0.9157] with the power
    [V_MPP * J_MPP = 27.18], is neither where the maximum of the model is
    nor as large as the model allows. *)
Theorem model_maximum_power :
  (exists P, Sweep.operating_point_power 0.8317 = Ok P /\ 24.443 < P) /\
  (forall V P, - 0.1 <= V <= Cell.Voc + 0.05 ->
     Sweep.operating_point_power V = Ok P ->
     P < 24.444 /\ (V <= 0.825 \/ 0.838 <= V -> P < 24.443)) /\
  0.838 + 0.01 < Cell.V_MPP /\ 24.444 < Cell.V_MPP * Cell.J_MPP.
Proof.
  split; [|split; [|cell_consts; split; lra]].
  - destruct (DiodeR.solar_cell_current_real 0.8317 Cell.Jsc Cell.J0 Cell.n
                Cell.Rs Cell.Rsh DiodeR.ref_n_pos DiodeR.ref_Rsh_pos)
      as (j & _ & HJ).
    unfold Sweep.operating_point_power, Sweep.solar_cell_current_default.
    rewrite HJ; eexists; split; [reflexivity|].
    destruct (RefModel.root_exists 0.8317) as [r Hr].
    pose proof (RefModel.root_above _ _ r residual_near_maximum Hr).
    pose proof (RefRate.ref_result_near_root 0.8317 ltac:(lra)
                  ltac:(cell_consts; lra) r _ Hr HJ).
    num_real; lra.
  - intros V P [Hlo Hhi] HP; destruct (Rlt_or_le V 0) as [Hneg|Hpos].
    + pose proof (power_negative V P Hlo Hneg HP); split; [lra|intros _; lra].
    + assert (V <= IZR 1058312 / 10 ^ 6) as Hend by (rewrite <- sweep_end; lra).
      split; [|intros [Hl|Hr]].
      * pose proof (power_below 200 24443990 0 1058312 V P ltac:(lia)
                      ltac:(lia) staircase_whole ltac:(lra) Hhi HP); lra.
      * pose proof (power_below 20 24442990 0 825000 V P ltac:(lia)
                      ltac:(lia) staircase_left ltac:(lra) Hhi HP); lra.
      * pose proof (power_below 20 24442990 838000 1058312 V P ltac:(lia)
                      ltac:(lia) staircase_right ltac:(lra) Hhi HP); lra.
Qed.

(** ** The open-circuit voltage *)

Lemma open_circuit_signs : f 0.9631 0 < 0 < f 0.9632 0.
Proof.
  split.
  - apply (Residual.negative_at _ _ 9631 0 10000);
      [lia|lra|lra|vm_compute; reflexivity].
  - apply (Residual.positive_at _ _ 9632 0 10000);
      [lia|lra|lra|vm_compute; reflexivity].
Qed.

Lemma residual_continuous_in_V : continuity (fun V => f V 0).
Proof. unfold Cell.f, Cell.diode_arg; num_real; reg. Qed.

(** C24. The open-circuit voltage of the model, over the reals: for the
    reference parameters there is a voltage at which the operating point
    is the zero current, every such voltage lies between [0.9631] and
    [0.9632], and the hard-coded [Voc = 1.008312] is more than [0.045]
    above. *)
Theorem model_open_circuit_voltage :
  (exists V, f V 0 = 0) /\
  (forall V, f V 0 = 0 -> 0.9631 < V < 0.9632) /\
  0.9632 + 0.045 < Cell.Voc.
Proof.
  destruct open_circuit_signs as [Hneg Hpos].
  split; [|split; [|cell_consts; lra]].
  - destruct (IVT (fun V => f V 0) 0.9631 0.9632 residual_continuous_in_V
                ltac:(lra) Hneg Hpos) as (V & _ & HV).
    exists V; exact HV.
  - intros V HV; split; apply Rnot_le_lt; intros Hle.
    + pose proof (RefModel.residual_increasing_in_V V 0.9631 0 Hle); lra.
    + pose proof (RefModel.residual_increasing_in_V 0.9632 V 0 Hle); lra.
Qed.

End Merit.
