(* ===== verification/FloatReal.v ===== *)
(** * FloatReal: the binary64 run against the semantics over the reals

    [FloatRun.v] computes what the sweep produces on binary64;
    [DiodeRate.v] proves what [solar_cell_current] returns over the reals.
    This file connects the two at every voltage of the grid.  A finite
    double denotes a rational number.  At the grid voltage, taken exactly,
    the residual of the diode equation with the decimal constants is
    evaluated at the computed current density, with the exponential
    enclosed between two integers ([Enclosure.v]); it is at most [1e-12]
    in absolute value, a hundredth of the tolerance.  The slope of the residual is at least one, so the
    computed current density is within [1e-12] of the operating point,
    and, the function over the reals returning less than [2e-20] above the
    operating point, within [1.0001e-12] of what it returns.

    The power density of line 45 is one rounded product; it is compared
    with the exact product of the two doubles, and is therefore within
    [1.1e-12] of the voltage times the operating point.

    The comparison is made after the run and uses nothing of how the
    exponential is computed on binary64. *)

From Stdlib Require Import ZArith QArith Qreals Reals Lra Lia Bool List Floats.
From S2P Require Import Prelude Num Diode Newton RealNum FloatNum Sweep.
From S2P Require Import DiodeReal DiodeRate Residual FloatRun.
Import ListNotations.

Module FloatReal.

Local Abbreviation sc V :=
  (Solver.solar_cell_current V Cell.Jsc Cell.J0 Cell.n Cell.Rs Cell.Rsh).
Local Abbreviation f V := (Cell.f V Cell.Jsc Cell.J0 Cell.n Cell.Rs Cell.Rsh).

(** ** The number a double denotes *)

Definition is_finite (x : float) : bool :=
  match Prim2SF x with
  | S754_finite _ _ _ | S754_zero _ => true
  | _ => false
  end.

(** A finite double with sign [s], mantissa [m] and exponent [e] is
    [(-1)^s * m * 2^e]. *)
Definition float_Q (x : float) : Q :=
  match Prim2SF x with
  | S754_finite s m e =>
      let z := if s then Zneg m else Zpos m in
      if (0 <=? e)%Z then inject_Z (z * 2 ^ e) else z # Z.to_pos (2 ^ (- e))
  | _ => 0
  end.

Definition float_R (x : float) : R := Q2R (float_Q x).

(** A double below [2^53] in absolute value as [(m, a)], for [m / 2^a]. *)
Definition dyadic (x : float) : option (Z * Z) :=
  match Prim2SF x with
  | S754_zero _ => Some (0, 0)%Z
  | S754_finite s m e =>
      if (e <=? 0)%Z then Some (if s then Zneg m else Zpos m, (- e)%Z)
      else None
  | _ => None
  end.

(** ** The check of one point *)

(** [V = Vc / 2^c] lies in the interval of the sweep, widened by [1e-4]. *)
Definition in_range (Vc c : Z) : bool :=
  ((- 1001 * 2 ^ c <=? 10000 * Vc) && (1000000 * Vc <=? 1058412 * 2 ^ c))%Z.

(** The voltage is in the interval, and the residual at the computed
    current density is at most [1e-12] in absolute value. *)
Definition near_root (V J : float) : bool :=
  match dyadic V, dyadic J with
  | Some (mv, a), Some (mj, b) =>
      let c := Z.max a b in
      let Vc := (mv * 2 ^ (c - a))%Z in
      let Jc := (mj * 2 ^ (c - b))%Z in
      in_range Vc c && Residual.residual_within 1 Vc Jc 1 c
  | _, _ => false
  end.

(** What the check establishes of a voltage and a computed current. *)
Definition agree (V J : float) : Prop :=
  is_finite V = true /\ is_finite J = true /\
  exists r J' : R,
    (f (float_R V) r = 0 /\ sc (float_R V) = Ok J' /\
     Rabs (f (float_R V) (float_R J)) <= 1e-12 /\
     Rabs (float_R J - r) <= 1e-12 /\ Rabs (float_R J - J') <= 1.0001e-12)%R.

(** [P] is the product of [V] and [J] up to [2^-45], and [V] is in the
    interval; line 45 computes [P] by one rounded multiplication. *)
Definition product_near (V J P : float) : bool :=
  match dyadic V, dyadic J, dyadic P with
  | Some (mv, a), Some (mj, b), Some (mp, c) =>
      in_range mv a
      && (Z.abs (mp * 2 ^ (a + b) - mv * mj * 2 ^ c) * 2 ^ 45
          <=? 2 ^ (a + b) * 2 ^ c)%Z
  | _, _, _ => false
  end.

(** What the two checks establish of a voltage and a computed power
    density. *)
Definition power_agree (V P : float) : Prop :=
  is_finite P = true /\
  exists r : R,
    (f (float_R V) r = 0 /\ Rabs (float_R P - float_R V * r) <= 1.1e-12)%R.

(** ** A double and its fraction *)

Lemma dyadic_value (x : float) (m a : Z) :
  dyadic x = Some (m, a) ->
  is_finite x = true /\ (0 <= a)%Z /\ float_R x = (IZR m / IZR (2 ^ a))%R.
Proof.
  unfold dyadic, is_finite, float_R, float_Q.
  destruct (Prim2SF x) as [s| | |s n e]; try discriminate.
  - intros [= <- <-]; split; [reflexivity|split; [lia|unfold Q2R; cbn; lra]].
  - destruct (Z.leb_spec e 0) as [He|]; [intros [= <- <-]|discriminate].
    split; [reflexivity|split; [lia|]].
    set (z := if s then Z.neg n else Z.pos n).
    destruct (Z.leb_spec 0 e) as [H0|H0].
    + assert (e = 0%Z) as -> by lia; unfold Q2R, inject_Z; cbn [Qnum Qden].
      rewrite Z.mul_1_r; reflexivity.
    + unfold Q2R; cbn [Qnum Qden]; rewrite Z2Pos.id; [reflexivity|].
      apply Z.pow_pos_nonneg; lia.
Qed.

(** The same fraction over a larger power of two. *)
Lemma align (m a c : Z) :
  (0 <= a <= c)%Z ->
  (IZR (m * 2 ^ (c - a)) / IZR (2 ^ c) = IZR m / IZR (2 ^ a))%R.
Proof.
  intros H; replace c with (a + (c - a))%Z at 2 by lia.
  rewrite Z.pow_add_r, !mult_IZR by lia.
  pose proof (Residual.pow2_pos a ltac:(lia)); pose proof (Residual.pow2_pos (c - a) ltac:(lia)).
  field; split; lra.
Qed.

(** ** The check is sound *)

Local Open Scope R_scope.

Lemma in_range_sound (Vc c : Z) :
  (0 <= c)%Z -> in_range Vc c = true ->
  - 0.1001 <= IZR Vc / IZR (2 ^ c) <= Cell.Voc + 0.0501.
Proof.
  intros Hc H; apply andb_true_iff in H as [Hlo Hhi].
  apply Z.leb_le, IZR_le in Hlo, Hhi; rewrite !mult_IZR in Hlo, Hhi.
  pose proof (Residual.pow2_pos c Hc) as HC; revert Hlo Hhi.
  generalize (IZR (2 ^ c)) HC; intros C HC' Hlo Hhi.
  split; apply (Rmult_le_reg_r C); try exact HC';
    replace (IZR Vc / C * C) with (IZR Vc) by (field; lra); cell_consts; lra.
Qed.

Lemma near_root_sound (V J : float) : near_root V J = true -> agree V J.
Proof.
  unfold near_root, agree.
  destruct (dyadic V) as [[mv a]|] eqn:HV; [|discriminate].
  destruct (dyadic J) as [[mj b]|] eqn:HJ; [|discriminate].
  apply dyadic_value in HV as (HVf & Ha & ->), HJ as (HJf & Hb & ->).
  cbv zeta; intros H; apply andb_true_iff in H as [Hr Hs].
  assert (0 <= Z.max a b)%Z as Hc by lia.
  apply (in_range_sound _ _ Hc) in Hr.
  apply (Residual.residual_within_sound _ _ 1 _ ltac:(lia) Hc) in Hs.
  rewrite Z.mul_1_l in Hs; rewrite align in Hr, Hs by lia.
  rewrite align in Hs by lia.
  destruct Hr as [Hlo Hhi]; split; [exact HVf|split; [exact HJf|]].
  set (v := IZR mv / IZR (2 ^ a)) in *; set (j := IZR mj / IZR (2 ^ b)) in *.
  destruct (DiodeR.diode_root_exists v Cell.Jsc _ _ _ _ DiodeR.ref_J0_nonneg
              DiodeR.ref_Rs_nonneg DiodeR.ref_n_pos DiodeR.ref_Rsh_pos)
    as [r Hroot].
  destruct (DiodeR.solar_cell_current_real v Cell.Jsc Cell.J0 Cell.n Cell.Rs
              Cell.Rsh DiodeR.ref_n_pos DiodeR.ref_Rsh_pos) as (i & _ & HJ').
  exists r; eexists; split; [exact Hroot|split; [exact HJ'|]].
  pose proof (RefRate.ref_result_near_root_wide v Hlo Hhi r _ Hroot HJ') as Hn.
  pose proof (DiodeR.root_within_residual v Cell.Jsc _ _ _ _
                DiodeR.ref_J0_nonneg DiodeR.ref_Rs_nonneg DiodeR.ref_n_pos
                DiodeR.ref_Rsh_pos r j Hroot) as Hd.
  assert (Rabs (j - r) <= 1e-12) as Hjr by lra.
  pose proof (Rle_abs (j - r)); pose proof (Rle_abs (- (j - r))) as Hm.
  rewrite Rabs_Ropp in Hm.
  split; [lra|split; [exact Hjr|apply Rabs_le; lra]].
Qed.

Lemma ratio_le_inv (X M S : R) : 0 < M -> 0 < S -> X * S <= M -> X / M <= / S.
Proof.
  intros HM HS H; apply (Rmult_le_reg_r (M * S)); [apply Rmult_lt_0_compat|];
    try assumption.
  replace (X / M * (M * S)) with (X * S) by (field; lra).
  replace (/ S * (M * S)) with M by (field; lra); exact H.
Qed.

Lemma product_near_sound (V J P : float) :
  product_near V J P = true ->
  is_finite P = true /\ - 0.1001 <= float_R V <= Cell.Voc + 0.0501 /\
  Rabs (float_R P - float_R V * float_R J) <= / IZR (2 ^ 45).
Proof.
  unfold product_near.
  destruct (dyadic V) as [[mv a]|] eqn:HV; [|discriminate].
  destruct (dyadic J) as [[mj b]|] eqn:HJ; [|discriminate].
  destruct (dyadic P) as [[mp c]|] eqn:HP; [|discriminate].
  apply dyadic_value in HV as (_ & Ha & ->), HJ as (_ & Hb & ->).
  apply dyadic_value in HP as (HPf & Hc & ->).
  intros H; apply andb_true_iff in H as [Hr H].
  split; [exact HPf|split; [exact (in_range_sound _ _ Ha Hr)|]].
  apply Z.leb_le, IZR_le in H.
  rewrite Z.pow_add_r, !mult_IZR, abs_IZR, minus_IZR, !mult_IZR in H by lia.
  pose proof (Residual.pow2_pos a Ha) as HA; pose proof (Residual.pow2_pos b Hb) as HB.
  pose proof (Residual.pow2_pos c Hc) as HC.
  pose proof (Residual.pow2_pos 45 ltac:(lia)) as HS.
  revert H HA HB HC HS; generalize (IZR (2 ^ a)) (IZR (2 ^ b)) (IZR (2 ^ c)).
  generalize (IZR (2 ^ 45)); intros S A B C H HA HB HC HS.
  assert (0 < A * B * C) as HM by (repeat apply Rmult_lt_0_compat; assumption).
  replace (IZR mp / C - IZR mv / A * (IZR mj / B))
    with ((IZR mp * (A * B) - IZR mv * IZR mj * C) / (A * B * C))
    by (field; repeat split; lra).
  unfold Rdiv at 1; rewrite Rabs_mult, (Rabs_pos_eq (/ _))
    by (left; apply Rinv_0_lt_compat; exact HM).
  apply ratio_le_inv; assumption.
Qed.

Lemma power_agree_sound (V J P : float) :
  agree V J -> product_near V J P = true -> power_agree V P.
Proof.
  intros (_ & _ & r & J' & Hr & _ & _ & Hjr & _) H.
  apply product_near_sound in H as (HP & [Hlo Hhi] & Hd).
  split; [exact HP|exists r; split; [exact Hr|]].
  assert (/ IZR (2 ^ 45) <= 3e-14) as HS
    by (change (2 ^ 45)%Z with 35184372088832%Z; lra).
  assert (Rabs (float_R V) <= 1.0585) as HV
    by (apply Rabs_le; revert Hlo Hhi; cell_consts; lra).
  replace (float_R P - float_R V * r)
    with ((float_R P - float_R V * float_R J) + float_R V * (float_R J - r))
    by ring.
  eapply Rle_trans; [apply Rabs_triang|rewrite Rabs_mult].
  pose proof (Rmult_le_compat _ _ _ _ (Rabs_pos _) (Rabs_pos _) HV Hjr); lra.
Qed.

Lemma sweep_near_roots :
  forall2b near_root RefRun.V_ref RefRun.J_ref = true.
Proof. vm_compute; reflexivity. Qed.

(** C6. The binary64 run against the semantics over the reals: the sweep
    computes 500 current densities; at each of the 500 voltages of the
    grid the voltage and the computed current density are finite doubles,
    the residual of the diode equation at the computed current density is
    at most [1e-12] in absolute value, the current density is within
    [1e-12] of the operating point of the diode equation at that voltage,
    and within [1.0001e-12] of what [solar_cell_current] returns over the
    reals at that voltage. *)
Theorem float_sweep_agrees_with_real_semantics :
  exists Js, Sweep.J_range (F := float) = Ok Js /\ length Js = 500%nat /\
             Forall2 agree Sweep.V_range Js.
Proof.
  exists RefRun.J_ref; split; [exact RefRun.J_range_ref|].
  split; [reflexivity|rewrite RefRun.V_range_ref].
  exact (forall2b_Forall2 _ _ _ _ near_root_sound sweep_near_roots).
Qed.

Lemma sweep_products_near :
  forall2b (fun V J => product_near V J (V * J)) RefRun.V_ref RefRun.J_ref
  = true.
Proof. vm_compute; reflexivity. Qed.

(** C14. The computed power densities against the diode equation: line 45
    returns 500 power densities on binary64, each a finite double within
    [1.1e-12] of the product of its grid voltage and the operating point of
    the diode equation at that voltage. *)
Theorem float_power_agrees_with_real_semantics :
  exists Ps, Sweep.P_range (F := float) = Ok Ps /\ length Ps = 500%nat /\
             Forall2 power_agree Sweep.V_range Ps.
Proof.
  exists RefRun.P_ref; split; [exact RefRun.P_range_ref|].
  split; [reflexivity|rewrite RefRun.V_range_ref].
  change RefRun.P_ref with (zip_with PrimFloat.mul RefRun.V_ref RefRun.J_ref).
  apply (Forall2_zip_with PrimFloat.mul
           (fun V J => agree V J /\ product_near V J (V * J) = true)).
  - intros V J [Ha Hp]; exact (power_agree_sound V J _ Ha Hp).
  - apply Forall2_and.
    + exact (forall2b_Forall2 _ _ _ _ near_root_sound sweep_near_roots).
    + exact (forall2b_Forall2 _ (fun V J => product_near V J (V * J) = true)
               _ _ (fun _ _ H => H) sweep_products_near).
Qed.

End FloatReal.
